(** * Map implementations of the data-structure repository

    Shallow embedding of [ch10/map.py] (UnsortedListMap, HashMapBase,
    ChainHashMap, ProbeHashMap, SortedTableMap) and of
    [ch11/binary_search_tree.py] (TreeMap), with the properties of the
    maps stated and proved over the embedding.

    Keys and values are integers.  A Python call either returns a value
    or raises; it is modelled in the [res] monad.  Code with a [while
    True] loop or with unbounded recursion takes a [fuel] argument and
    returns [None] when the fuel does not suffice. *)

From stdpp Require Import base tactics option list numbers sorting.
From Stdlib Require Import ZArith Lia Sorted.

Local Open Scope Z_scope.

(** ** Python results *)

Inductive exn : Type :=
| KeyError
| AttributeError
| ZeroDivisionError
| IndexError
| ValueError.

Inductive res (A : Type) : Type :=
| Ok (a : A)
| Raise (e : exn).
Arguments Ok {A} a.
Arguments Raise {A} e.

#[global] Instance res_ret : MRet res := fun A a => Ok a.
#[global] Instance res_bind : MBind res :=
  fun A B f m => match m with Ok a => f a | Raise e => Raise e end.

(** ** MapBase._Item *)

Record Item : Type := mkItem { key : Z; value : Z }.

(** The pair [(item.key, item.value)]. *)
Definition pair_of (item : Item) : Z * Z := (key item, value item).

(** The right operand of [_Item.__eq__] is an arbitrary Python object:
    in this program either another [_Item] or a bare key. *)
Inductive pyobj : Type :=
| PyKey (k : Z)
| PyItem (it : Item).

(** [other.key]: a bare key has no attribute [key]. *)
Definition attr_key (other : pyobj) : res Z :=
  match other with
  | PyItem it => Ok (key it)
  | PyKey _ => Raise AttributeError
  end.

(** [_Item.__eq__]: [return self.key == other.key]. *)
Definition Item_eq (self : Item) (other : pyobj) : res bool :=
  ok ← attr_key other; Ok (key self =? ok).

(** [lst[i]] for a Python list: negative indices count from the end,
    an index out of range raises IndexError. *)
Definition list_get {A} (l : list A) (i : Z) : res A :=
  let i' := if i <? 0 then i + Z.of_nat (length l) else i in
  if i' <? 0 then Raise IndexError
  else match l !! Z.to_nat i' with
       | Some x => Ok x
       | None => Raise IndexError
       end.

(** [lst.insert(i, x)] for [0 <= i]: positions beyond the end append. *)
Definition list_insert_at {A} (l : list A) (i : nat) (x : A) : list A :=
  take i l ++ x :: drop i l.

(** [lst.pop(i)] for [0 <= i]. *)
Definition list_pop {A} (l : list A) (i : nat) : res (list A) :=
  match l !! i with
  | Some _ => Ok (take i l ++ drop (S i) l)
  | None => Raise IndexError
  end.

(** ** UnsortedListMap *)

Module UnsortedListMap.

(** The object's only field is [_table], a list of items. *)
Abbreviation t := (list Item) (only parsing).

Definition init : t := [].

Fixpoint getitem (tbl : t) (k : Z) : res Z :=
  match tbl with
  | [] => Raise KeyError
  | item :: rest => if k =? key item then Ok (value item) else getitem rest k
  end.

Fixpoint setitem (tbl : t) (k v : Z) : t :=
  match tbl with
  | [] => [mkItem k v]
  | item :: rest =>
      if k =? key item then mkItem (key item) v :: rest
      else item :: setitem rest k v
  end.

Fixpoint delitem (tbl : t) (k : Z) : res t :=
  match tbl with
  | [] => Raise KeyError
  | item :: rest =>
      if k =? key item then Ok rest
      else rest' ← delitem rest k; Ok (item :: rest')
  end.

Definition len (tbl : t) : nat := length tbl.

Definition iter (tbl : t) : list Z := key <$> tbl.

(** States obtained from the empty map by [set] and [del]. *)
Inductive reachable : t → Prop :=
| reach_init : reachable init
| reach_set tbl k v : reachable tbl → reachable (setitem tbl k v)
| reach_del tbl k tbl' :
    reachable tbl → delitem tbl k = Ok tbl' → reachable tbl'.

End UnsortedListMap.

(** ** SortedTableMap *)

Module SortedTableMap.

Abbreviation t := (list Item) (only parsing).

Definition init : t := [].

(** [_find_index]: the recursion halves [high - low]; [n] bounds the
    number of calls and [find_index] supplies the width of the interval,
    which always suffices (lemma [find_index_eq]). *)
Fixpoint find_index_go (n : nat) (tbl : t) (k low high : Z) : res Z :=
  if high <? low then Ok (high + 1)
  else
    match n with
    | O => Ok (high + 1)
    | S n' =>
        let mid := (low + high) `div` 2 in
        item ← list_get tbl mid;
        if k =? key item then Ok mid
        else if k <? key item then find_index_go n' tbl k low (mid - 1)
        else find_index_go n' tbl k (mid + 1) high
    end.

Definition find_index (tbl : t) (k low high : Z) : res Z :=
  find_index_go (Z.to_nat (high - low + 1)) tbl k low high.

Definition len (tbl : t) : nat := length tbl.

Definition zlen (tbl : t) : Z := Z.of_nat (length tbl).

Definition getitem (tbl : t) (k : Z) : res Z :=
  j ← find_index tbl k 0 (zlen tbl - 1);
  if j =? zlen tbl then Raise KeyError
  else
    item ← list_get tbl j;
    if negb (key item =? k) then Raise KeyError
    else Ok (value item).

Definition setitem (tbl : t) (k v : Z) : res t :=
  j ← find_index tbl k 0 (zlen tbl - 1);
  if j <? zlen tbl then
    item ← list_get tbl j;
    if key item =? k then Ok (<[Z.to_nat j := mkItem (key item) v]> tbl)
    else Ok (list_insert_at tbl (Z.to_nat j) (mkItem k v))
  else Ok (list_insert_at tbl (Z.to_nat j) (mkItem k v)).

Definition delitem (tbl : t) (k : Z) : res t :=
  j ← find_index tbl k 0 (zlen tbl - 1);
  if j =? zlen tbl then Raise KeyError
  else
    item ← list_get tbl j;
    if negb (key item =? k) then Raise KeyError
    else list_pop tbl (Z.to_nat j).

Definition iter (tbl : t) : list Z := key <$> tbl.

(** [__reversed__]: the keys of [reversed(self._table)]. *)
Definition reversed (tbl : t) : list Z := key <$> reverse tbl.

Definition find_min (tbl : t) : res (option (Z * Z)) :=
  if 0 <? zlen tbl then item ← list_get tbl 0; Ok (Some (pair_of item))
  else Ok None.

Definition find_max (tbl : t) : res (option (Z * Z)) :=
  if 0 <? zlen tbl then item ← list_get tbl (-1); Ok (Some (pair_of item))
  else Ok None.

Definition find_lt (tbl : t) (k : Z) : res (option (Z * Z)) :=
  j ← find_index tbl k 0 (zlen tbl - 1);
  if 0 <? j then item ← list_get tbl (j - 1); Ok (Some (pair_of item))
  else Ok None.

Definition find_le (tbl : t) (k : Z) : res (option (Z * Z)) :=
  j ← find_index tbl k 0 (zlen tbl - 1);
  if 0 <? j then
    if j <? zlen tbl then
      item ← list_get tbl j;
      if key item =? k then Ok (Some (pair_of item))
      else item' ← list_get tbl (j - 1); Ok (Some (pair_of item'))
    else item' ← list_get tbl (j - 1); Ok (Some (pair_of item'))
  else Ok None.

(** In [find_gt] the test is [self._table[j] == k]: an item compared
    with a bare key through [_Item.__eq__]. *)
Definition find_gt (tbl : t) (k : Z) : res (option (Z * Z)) :=
  j ← find_index tbl k 0 (zlen tbl - 1);
  j' ← (if j <? zlen tbl then
          item ← list_get tbl j;
          same ← Item_eq item (PyKey k);
          Ok (if same : bool then j + 1 else j)
        else Ok j);
  if j' <? zlen tbl then item ← list_get tbl j'; Ok (Some (pair_of item))
  else Ok None.

Definition find_ge (tbl : t) (k : Z) : res (option (Z * Z)) :=
  j ← find_index tbl k 0 (zlen tbl - 1);
  if j <? zlen tbl then item ← list_get tbl j; Ok (Some (pair_of item))
  else Ok None.

(** The loop of [find_range], from index [j]; [n] is [len - j], the
    number of iterations left before [j < len(self._table)] fails. *)
Fixpoint find_range_from (n : nat) (tbl : t) (j : nat) (stop : option Z)
  : list (Z * Z) :=
  match n with
  | O => []
  | S n' =>
      match tbl !! j with
      | None => []
      | Some item =>
          if match stop with None => true | Some s => key item <? s end
          then pair_of item :: find_range_from n' tbl (S j) stop
          else []
      end
  end.

(** [find_range] is a generator; the result is the sequence it yields. *)
Definition find_range (tbl : t) (start stop : option Z) : res (list (Z * Z)) :=
  j ← match start with
      | None => Ok 0
      | Some s => find_index tbl s 0 (zlen tbl - 1)
      end;
  Ok (find_range_from (length tbl - Z.to_nat j) tbl (Z.to_nat j) stop).

Inductive reachable : t → Prop :=
| reach_init : reachable init
| reach_set tbl k v tbl' :
    reachable tbl → setitem tbl k v = Ok tbl' → reachable tbl'
| reach_del tbl k tbl' :
    reachable tbl → delitem tbl k = Ok tbl' → reachable tbl'.

End SortedTableMap.

(** ** Code that may not return

    A computation that takes fuel answers [None] when the fuel runs out,
    [Some (Ok a)] when it returns [a] and [Some (Raise e)] when it raises. *)

Definition fbind {A B} (c : option (res A)) (f : A → option (res B))
  : option (res B) :=
  match c with
  | None => None
  | Some (Raise e) => Some (Raise e)
  | Some (Ok a) => f a
  end.

Notation "x ←! c ; k" := (fbind c (λ x, k))
  (at level 20, c at level 100, k at level 200, only parsing).
Notation "' x ←! c ; k" := (fbind c (λ x, k))
  (at level 20, x pattern, c at level 100, k at level 200, only parsing).

(** [lst[i] = x] for a Python list. *)
Definition list_set {A} (l : list A) (i : Z) (x : A) : res (list A) :=
  let i' := if i <? 0 then i + Z.of_nat (length l) else i in
  if i' <? 0 then Raise IndexError
  else if i' <? Z.of_nat (length l) then Ok (<[Z.to_nat i' := x]> l)
  else Raise IndexError.

(** ** HashMapBase *)

Module HashMapBase.

(** The fields [_table], [_n], [_prime], [_scale] and [_shift]; [B] is
    the type of a cell of the table. *)
Record t (B : Type) : Type := mk {
  table : list B;
  n : Z;
  prime : Z;
  scale : Z;
  shift : Z
}.
Arguments mk {B} _ _ _ _ _.
Arguments table {B} _.
Arguments n {B} _.
Arguments prime {B} _.
Arguments scale {B} _.
Arguments shift {B} _.

Definition set_table {B} (m : t B) (tbl : list B) : t B :=
  mk tbl (n m) (prime m) (scale m) (shift m).

Definition set_n {B} (m : t B) (n' : Z) : t B :=
  mk (table m) n' (prime m) (scale m) (shift m).

(** The abstract methods of the base class and [__iter__], which each
    subclass supplies; [none] is the content of a fresh cell.  The methods
    receive [self] and return it updated. *)
Class Bucket (B : Type) : Type := {
  none : B;
  bucket_getitem : nat → t B → Z → Z → option (res Z);
  bucket_setitem : nat → t B → Z → Z → Z → option (res (t B));
  bucket_delitem : nat → t B → Z → Z → option (res (t B));
  iter : t B → list Z
}.

Section base.
(** Python's builtin [hash] on keys. *)
Context (py_hash : Z → Z).
Context {B : Type} `{!Bucket B}.

(** [__init__]: [scale] and [shift] are the two random draws,
    [1 + randrange(p - 1)] and [randrange(p)]. *)
Definition init (cap p scale shift : Z) : t B :=
  mk (replicate (Z.to_nat cap) none) 0 p scale shift.

Definition capacity (m : t B) : Z := Z.of_nat (length (table m)).

Definition hash_function (m : t B) (k : Z) : res Z :=
  if prime m =? 0 then Raise ZeroDivisionError
  else if capacity m =? 0 then Raise ZeroDivisionError
  else Ok (((scale m * py_hash k + shift m) `mod` prime m) `mod` capacity m).

Definition len (m : t B) : Z := n m.

Definition getitem (fuel : nat) (m : t B) (k : Z) : option (res Z) :=
  j ←! Some (hash_function m k);
  bucket_getitem fuel m j k.

(** [self.items()] of the [MutableMapping] mixin: every key of the
    iteration, paired with [self[key]]. *)
Fixpoint items_of (get : Z → option (res Z)) (keys : list Z)
  : option (res (list (Z * Z))) :=
  match keys with
  | [] => Some (Ok [])
  | k :: rest =>
      v ←! get k;
      l ←! items_of get rest;
      Some (Ok ((k, v) :: l))
  end.

Definition items (fuel : nat) (m : t B) : option (res (list (Z * Z))) :=
  items_of (getitem fuel m) (iter m).

(** The loop of [_resize]: [self[k] = v] for every pair of [old]. *)
Fixpoint reinsert (set : t B → Z → Z → option (res (t B)))
  (old : list (Z * Z)) (m : t B) : option (res (t B)) :=
  match old with
  | [] => Some (Ok m)
  | (k, v) :: rest => m' ←! set m k v; reinsert set rest m'
  end.

(** [_resize], with [set] for the method [__setitem__] it calls. *)
Definition resize_with (set : t B → Z → Z → option (res (t B)))
  (fuel : nat) (m : t B) (cap : Z) : option (res (t B)) :=
  old ←! items fuel m;
  reinsert set old (set_n (set_table m (replicate (Z.to_nat cap) none)) 0).

(** [__setitem__] and [_resize] call each other; one unit of fuel is
    spent per call of [__setitem__]. *)
Fixpoint setitem (fuel : nat) (m : t B) (k v : Z) : option (res (t B)) :=
  match fuel with
  | O => None
  | S fuel' =>
      j ←! Some (hash_function m k);
      m1 ←! bucket_setitem fuel m j k v;
      if capacity m1 `div` 2 <? n m1
      then resize_with (setitem fuel') fuel' m1 (2 * capacity m1 - 1)
      else Some (Ok m1)
  end.

Definition resize (fuel : nat) (m : t B) (cap : Z) : option (res (t B)) :=
  resize_with (setitem fuel) fuel m cap.

Definition delitem (fuel : nat) (m : t B) (k : Z) : option (res (t B)) :=
  j ←! Some (hash_function m k);
  m1 ←! bucket_delitem fuel m j k;
  Some (Ok (set_n m1 (n m1 - 1))).

(** States obtained from a fresh map of capacity at least 2 by calls of
    [__setitem__] and [__delitem__] that return.  (With capacity 1 the load
    factor is exceeded again after every resize; a call that raises leaves
    the map as it was.) *)
Inductive reachable : t B → Prop :=
| reach_init cap p a b :
    2 ≤ cap → 2 ≤ p → 1 ≤ a < p → 0 ≤ b < p → reachable (init cap p a b)
| reach_set fuel m k v m' :
    reachable m → setitem fuel m k v = Some (Ok m') → reachable m'
| reach_del fuel m k m' :
    reachable m → delitem fuel m k = Some (Ok m') → reachable m'.

End base.
End HashMapBase.

(** ** ChainHashMap *)

Module ChainHashMap.
Import HashMapBase.

(** A cell is [None] or an [UnsortedListMap]. *)
Abbreviation cell := (option (list Item)) (only parsing).

Definition bucket_getitem (m : t cell) (j k : Z) : res Z :=
  bucket ← list_get (table m) j;
  match bucket with
  | None => Raise KeyError
  | Some b => UnsortedListMap.getitem b k
  end.

Definition bucket_setitem (m : t cell) (j k v : Z) : res (t cell) :=
  c ← list_get (table m) j;
  let b := match c with None => UnsortedListMap.init | Some b => b end in
  let oldsize := UnsortedListMap.len b in
  let b' := UnsortedListMap.setitem b k v in
  tbl ← list_set (table m) j (Some b');
  let m1 := set_table m tbl in
  if (oldsize <? UnsortedListMap.len b')%nat
  then Ok (set_n m1 (n m1 + 1))
  else Ok m1.

Definition bucket_delitem (m : t cell) (j k : Z) : res (t cell) :=
  bucket ← list_get (table m) j;
  match bucket with
  | None => Raise KeyError
  | Some b =>
      b' ← UnsortedListMap.delitem b k;
      tbl ← list_set (table m) j (Some b');
      Ok (set_table m tbl)
  end.

Definition iter (m : t cell) : list Z :=
  table m ≫= λ bucket : cell,
    match bucket with
    | None => []
    | Some b => UnsortedListMap.iter b
    end.

#[global] Instance chain_bucket : Bucket cell := {|
  none := None;
  HashMapBase.bucket_getitem := λ _ m j k, Some (bucket_getitem m j k);
  HashMapBase.bucket_setitem := λ _ m j k v, Some (bucket_setitem m j k v);
  HashMapBase.bucket_delitem := λ _ m j k, Some (bucket_delitem m j k);
  HashMapBase.iter := iter
|}.

End ChainHashMap.

(** ** ProbeHashMap *)

Module ProbeHashMap.
Import HashMapBase.

(** A cell is [None], the sentinel [_AVAIL] or an item. *)
Inductive slot : Type :=
| Empty
| Avail
| Full (item : Item).

Definition is_available (m : t slot) (j : Z) : res bool :=
  c ← list_get (table m) j;
  Ok (match c with Empty | Avail => true | Full _ => false end).

(** The loop of [_find_slot]; [first_avail] is [None] until a free cell
    has been seen. *)
Fixpoint find_slot_loop (fuel : nat) (m : t slot) (j k : Z)
  (first_avail : option Z) : option (res (bool * Z)) :=
  match fuel with
  | O => None
  | S fuel' =>
      avail ←! Some (is_available m j);
      c ←! Some (list_get (table m) j);
      let next := (j + 1) `mod` capacity m in
      if avail : bool then
        let first_avail' := match first_avail with None => j | Some a => a end in
        match c with
        | Empty => Some (Ok (false, first_avail'))
        | _ => find_slot_loop fuel' m next k (Some first_avail')
        end
      else
        match c with
        | Full item =>
            if k =? key item then Some (Ok (true, j))
            else find_slot_loop fuel' m next k first_avail
        | _ => Some (Raise AttributeError)
        end
  end.

Definition find_slot (fuel : nat) (m : t slot) (j k : Z)
  : option (res (bool * Z)) :=
  find_slot_loop fuel m j k None.

Definition bucket_getitem (fuel : nat) (m : t slot) (j k : Z)
  : option (res Z) :=
  '(found, s) ←! find_slot fuel m j k;
  if negb found then Some (Raise KeyError)
  else
    c ←! Some (list_get (table m) s);
    match c with
    | Full item => Some (Ok (value item))
    | _ => Some (Raise AttributeError)
    end.

Definition bucket_setitem (fuel : nat) (m : t slot) (j k v : Z)
  : option (res (t slot)) :=
  '(found, s) ←! find_slot fuel m j k;
  if negb found then
    tbl ←! Some (list_set (table m) s (Full (mkItem k v)));
    let m1 := set_table m tbl in
    Some (Ok (set_n m1 (n m1 + 1)))
  else
    c ←! Some (list_get (table m) s);
    match c with
    | Full item =>
        tbl ←! Some (list_set (table m) s (Full (mkItem (key item) v)));
        Some (Ok (set_table m tbl))
    | _ => Some (Raise AttributeError)
    end.

Definition bucket_delitem (fuel : nat) (m : t slot) (j k : Z)
  : option (res (t slot)) :=
  '(found, s) ←! find_slot fuel m j k;
  if negb found then Some (Raise KeyError)
  else
    tbl ←! Some (list_set (table m) s Avail);
    Some (Ok (set_table m tbl)).

(** [__iter__]: the keys of the cells that are not available, by index. *)
Definition iter (m : t slot) : list Z :=
  omap (λ c, match c with Full item => Some (key item) | _ => None end)
       (table m).

#[global] Instance probe_bucket : Bucket slot := {|
  none := Empty;
  HashMapBase.bucket_getitem := bucket_getitem;
  HashMapBase.bucket_setitem := bucket_setitem;
  HashMapBase.bucket_delitem := bucket_delitem;
  HashMapBase.iter := iter
|}.

End ProbeHashMap.

(** ** LinkedBinaryTree *)

Module LinkedBinaryTree.

(** Modelled from the spec: the positional binary tree of [ch8/tree.py]
    ([LinkedBinaryTree]), which [TreeMap] extends and which is not among
    the sources.  It exposes [root()], [left(p)], [right(p)], [parent(p)],
    [add_root(e)], [add_left(p, e)], [add_right(p, e)], [replace(p, e)],
    [delete(p)] (removes a node with at most one child, promoting its child
    if present) and [is_empty()].  A position is the path from the root to
    its node; [len] counts the nodes. *)
Inductive tree : Type :=
| Leaf
| Node (l : tree) (e : Item) (r : tree).

Inductive dir : Type := L | R.

#[global] Instance dir_eq_dec : EqDecision dir.
Proof. solve_decision. Defined.

Abbreviation position := (list dir) (only parsing).

(** The subtree rooted at position [p]; [Leaf] when [p] is no position of
    the tree. *)
Fixpoint subtree (t : tree) (p : position) {struct p} : tree :=
  match p with
  | [] => t
  | d :: p' =>
      match t with
      | Leaf => Leaf
      | Node l _ r => subtree (match d with L => l | R => r end) p'
      end
  end.

(** The tree with the subtree at [p] replaced by [f] of it. *)
Fixpoint update (t : tree) (p : position) (f : tree → tree) {struct p}
  : tree :=
  match p with
  | [] => f t
  | d :: p' =>
      match t with
      | Leaf => Leaf
      | Node l e r =>
          match d with
          | L => Node (update l p' f) e r
          | R => Node l e (update r p' f)
          end
      end
  end.

Fixpoint len (t : tree) : nat :=
  match t with
  | Leaf => 0
  | Node l _ r => len l + 1 + len r
  end.

Definition is_empty (t : tree) : bool := (len t =? 0)%nat.

(** [_pos2node(p)]: a position that is not of this tree is refused. *)
Definition pos2node (t : tree) (p : position) : res tree :=
  match subtree t p with
  | Leaf => Raise ValueError
  | n => Ok n
  end.

(** [p.element()]. *)
Definition element (t : tree) (p : position) : res Item :=
  match subtree t p with
  | Leaf => Raise ValueError
  | Node _ e _ => Ok e
  end.

Definition root (t : tree) : option position :=
  match t with
  | Leaf => None
  | Node _ _ _ => Some []
  end.

Definition left (t : tree) (p : position) : option position :=
  match subtree t (p ++ [L]) with
  | Leaf => None
  | Node _ _ _ => Some (p ++ [L])
  end.

Definition right (t : tree) (p : position) : option position :=
  match subtree t (p ++ [R]) with
  | Leaf => None
  | Node _ _ _ => Some (p ++ [R])
  end.

Definition parent (t : tree) (p : position) : option position :=
  match p with
  | [] => None
  | _ :: _ => Some (removelast p)
  end.

Definition add_root (t : tree) (e : Item) : res tree :=
  match t with
  | Leaf => Ok (Node Leaf e Leaf)
  | Node _ _ _ => Raise ValueError
  end.

Definition add_left (t : tree) (p : position) (e : Item) : res tree :=
  match subtree t p with
  | Node Leaf x r => Ok (update t p (λ _, Node (Node Leaf e Leaf) x r))
  | _ => Raise ValueError
  end.

Definition add_right (t : tree) (p : position) (e : Item) : res tree :=
  match subtree t p with
  | Node l x Leaf => Ok (update t p (λ _, Node l x (Node Leaf e Leaf)))
  | _ => Raise ValueError
  end.

Definition replace (t : tree) (p : position) (e : Item) : res tree :=
  match subtree t p with
  | Node l _ r => Ok (update t p (λ _, Node l e r))
  | Leaf => Raise ValueError
  end.

(** [_delete(p)]: the node has at most one child, which takes its place. *)
Definition delete (t : tree) (p : position) : res tree :=
  match subtree t p with
  | Node Leaf _ r => Ok (update t p (λ _, r))
  | Node l _ Leaf => Ok (update t p (λ _, l))
  | _ => Raise ValueError
  end.

End LinkedBinaryTree.

(** ** TreeMap *)

Module TreeMap.
Import LinkedBinaryTree.

(** [_subtree_search(p, k)]; [t] is the subtree rooted at [p]. *)
Fixpoint subtree_search_in (t : tree) (p : position) (k : Z) : position :=
  match t with
  | Leaf => p
  | Node l e r =>
      if k =? key e then p
      else if k <? key e then
        match l with
        | Leaf => p
        | Node _ _ _ => subtree_search_in l (p ++ [L]) k
        end
      else
        match r with
        | Leaf => p
        | Node _ _ _ => subtree_search_in r (p ++ [R]) k
        end
  end.

Definition subtree_search (t : tree) (p : position) (k : Z) : position :=
  subtree_search_in (subtree t p) p k.

(** [_subtree_first_position(p)]: the loop follows left children; [t] is
    the subtree rooted at [walk]. *)
Fixpoint subtree_first_in (t : tree) (walk : position) : position :=
  match t with
  | Node (Node _ _ _ as l) _ _ => subtree_first_in l (walk ++ [L])
  | _ => walk
  end.

Definition subtree_first_position (t : tree) (p : position) : position :=
  subtree_first_in (subtree t p) p.

Fixpoint subtree_last_in (t : tree) (walk : position) : position :=
  match t with
  | Node _ _ (Node _ _ _ as r) => subtree_last_in r (walk ++ [R])
  | _ => walk
  end.

Definition subtree_last_position (t : tree) (p : position) : position :=
  subtree_last_in (subtree t p) p.

Definition first (t : tree) : option position :=
  if (0 <? len t)%nat then subtree_first_position t <$> root t else None.

Definition last (t : tree) : option position :=
  if (0 <? len t)%nat then subtree_last_position t <$> root t else None.

(** The loop of [after]: [walk] climbs while it is the right child of its
    parent.  The argument is [walk] reversed, so that the parent is its
    tail. *)
Fixpoint after_walk (t : tree) (rwalk : list dir) : option position :=
  match rwalk with
  | [] => None
  | _ :: rancestor =>
      let walk := rev rwalk in
      let ancestor := rev rancestor in
      if decide (Some walk = right t ancestor) then after_walk t rancestor
      else Some ancestor
  end.

Definition after (t : tree) (p : position) : res (option position) :=
  _ ← pos2node t p;
  match right t p with
  | Some r => Ok (Some (subtree_first_position t r))
  | None => Ok (after_walk t (rev p))
  end.

(** The loop of [before]: [walk] climbs while it is the left child of its
    parent. *)
Fixpoint before_walk (t : tree) (rwalk : list dir) : option position :=
  match rwalk with
  | [] => None
  | _ :: rancestor =>
      let walk := rev rwalk in
      let ancestor := rev rancestor in
      if decide (Some walk = left t ancestor) then before_walk t rancestor
      else Some ancestor
  end.

Definition before (t : tree) (p : position) : res (option position) :=
  _ ← pos2node t p;
  match left t p with
  | Some l => Ok (Some (subtree_last_position t l))
  | None => Ok (before_walk t (rev p))
  end.

Definition find_position (t : tree) (k : Z) : option position :=
  if is_empty t then None
  else (λ r, subtree_search t r k) <$> root t.

Definition find_min (t : tree) : res (option (Z * Z)) :=
  if is_empty t then Ok None
  else
    match first t with
    | None => Raise AttributeError
    | Some p => e ← element t p; Ok (Some (pair_of e))
    end.

(** The last line of [find_ge] is
    [return p.key(), p.value() if p is not None else None]: a pair whose
    first component is [p.key()], evaluated whatever [p] is. *)
Definition find_ge (t : tree) (k : Z) : res (option (Z * Z)) :=
  if is_empty t then Ok None
  else
    match find_position t k with
    | None => Raise AttributeError
    | Some p =>
        e ← element t p;
        p' ← (if key e <? k then after t p else Ok (Some p));
        match p' with
        | None => Raise AttributeError
        | Some q => e' ← element t q; Ok (Some (key e', value e'))
        end
    end.

(** The loop of [find_range] and of [__iter__], from position [p]; at most
    [fuel] pairs are yielded. *)
Fixpoint range_from (fuel : nat) (t : tree) (p : option position)
  (stop : option Z) : option (res (list (Z * Z))) :=
  match p with
  | None => Some (Ok [])
  | Some q =>
      e ←! Some (element t q);
      if match stop with None => true | Some s => key e <? s end then
        match fuel with
        | O => None
        | S fuel' =>
            nxt ←! Some (after t q);
            rest ←! range_from fuel' t nxt stop;
            Some (Ok (pair_of e :: rest))
        end
      else Some (Ok [])
  end.

(** [find_range] is a generator; the result is the sequence it yields.
    The loop runs at most once per node. *)
Definition find_range (t : tree) (start stop : option Z)
  : option (res (list (Z * Z))) :=
  if negb (is_empty t) then
    p ←! match start with
         | None => Some (Ok (first t))
         | Some s =>
             match find_position t s with
             | None => Some (Raise AttributeError)
             | Some q =>
                 e ←! Some (element t q);
                 if key e <? s then Some (after t q) else Some (Ok (Some q))
             end
         end;
    range_from (len t) t p stop
  else Some (Ok []).

Definition getitem (t : tree) (k : Z) : res Z :=
  if is_empty t then Raise KeyError
  else
    match root t with
    | None => Raise AttributeError
    | Some r =>
        let p := subtree_search t r k in
        e ← element t p;
        if negb (k =? key e) then Raise KeyError else Ok (value e)
    end.

Definition setitem (t : tree) (k v : Z) : res tree :=
  if is_empty t then add_root t (mkItem k v)
  else
    match root t with
    | None => Raise AttributeError
    | Some r =>
        let p := subtree_search t r k in
        e ← element t p;
        if key e =? k then replace t p (mkItem (key e) v)
        else if key e <? k then add_right t p (mkItem k v)
        else add_left t p (mkItem k v)
    end.

(** [__iter__]: the keys, from [first()] along [after]. *)
Definition iter (t : tree) : option (res (list Z)) :=
  l ←! range_from (len t) t (first t) None;
  Some (Ok (l.*1)).

Definition delete (t : tree) (p : position) : res tree :=
  _ ← pos2node t p;
  match left t p, right t p with
  | Some lp, Some _ =>
      let replacement := subtree_last_position t lp in
      e ← element t replacement;
      t1 ← replace t p e;
      LinkedBinaryTree.delete t1 replacement
  | _, _ => LinkedBinaryTree.delete t p
  end.

Definition delitem (t : tree) (k : Z) : res tree :=
  if negb (is_empty t) then
    match root t with
    | None => Raise AttributeError
    | Some r =>
        let p := subtree_search t r k in
        e ← element t p;
        if k =? key e then delete t p else Raise KeyError
    end
  else Raise KeyError.

Inductive reachable : tree → Prop :=
| reach_init : reachable Leaf
| reach_set t k v t' : reachable t → setitem t k v = Ok t' → reachable t'
| reach_del t k t' : reachable t → delitem t k = Ok t' → reachable t'
| reach_delete t p t' : reachable t → delete t p = Ok t' → reachable t'.

End TreeMap.

(** ** merge_sort

    [ch12/merge_sort.py], on lists of integers.  [merge] and [merge_sort]
    change the list [s] in place; the model returns its final content.
    One unit of fuel is spent per iteration of the loop of [merge] and per
    call of [merge_sort]. *)

Module MergeSort.

(** The loop of [merge]; [i] and [j] are the indices into [s1] and [s2]. *)
Fixpoint merge_loop (fuel : nat) (s1 s2 s : list Z) (i j : Z)
  : option (res (list Z)) :=
  if i + j <? Z.of_nat (length s) then
    match fuel with
    | O => None
    | S fuel' =>
        from_s1 ←! Some (if j =? Z.of_nat (length s2) then Ok true
                         else if i <? Z.of_nat (length s1) then
                           a ← list_get s1 i; b ← list_get s2 j; Ok (a <? b)
                         else Ok false);
        if from_s1 : bool then
          a ←! Some (list_get s1 i);
          s' ←! Some (list_set s (i + j) a);
          merge_loop fuel' s1 s2 s' (i + 1) j
        else
          b ←! Some (list_get s2 j);
          s' ←! Some (list_set s (i + j) b);
          merge_loop fuel' s1 s2 s' i (j + 1)
    end
  else Some (Ok s).

Definition merge (fuel : nat) (s1 s2 s : list Z) : option (res (list Z)) :=
  merge_loop fuel s1 s2 s 0 0.

(** [s[0:mid]] is [take mid s] and [s[mid:num]] is [drop mid s]; both are
    new lists, sorted by the recursive calls before [merge] writes [s]. *)
Fixpoint merge_sort (fuel : nat) (s : list Z) : option (res (list Z)) :=
  let num := Z.of_nat (length s) in
  if num <? 2 then Some (Ok s)
  else
    match fuel with
    | O => None
    | S fuel' =>
        let mid := num `div` 2 in
        s1 ←! merge_sort fuel' (take (Z.to_nat mid) s);
        s2 ←! merge_sort fuel' (drop (Z.to_nat mid) s);
        merge fuel s1 s2 s
    end.

End MergeSort.

(** ** LinkedQueue

    [ch7/linked_queue.py].  The nodes live in a store, a list indexed by
    location; [_Node(element)] appends a node to it.  The queue object has
    the fields [_head], [_tail] and [_size]. *)

Module LinkedQueue.

Record node : Type := mkNode { element : Z; next : option nat }.

Record t : Type := mk {
  store : list node;
  head : option nat;
  tail : option nat;
  size : Z
}.

(** A call returns, raises [Empty], or raises [AttributeError] (an
    attribute of [None], or of a location outside the store, is asked
    for). *)
Inductive outcome (A : Type) : Type :=
| Return (a : A)
| RaiseEmpty
| RaiseAttributeError.
Arguments Return {A} a.
Arguments RaiseEmpty {A}.
Arguments RaiseAttributeError {A}.

Definition init : t := mk [] None None 0.

Definition len (q : t) : Z := size q.

Definition is_empty (q : t) : bool := size q =? 0.

Definition first (q : t) : outcome Z :=
  if is_empty q then RaiseEmpty
  else
    match head q ≫= λ h, store q !! h with
    | None => RaiseAttributeError
    | Some nd => Return (element nd)
    end.

Definition enqueue (q : t) (e : Z) : outcome t :=
  let nd := length (store q) in
  let st := store q ++ [mkNode e None] in
  if is_empty q then Return (mk st (Some nd) (Some nd) (size q + 1))
  else
    match tail q with
    | None => RaiseAttributeError
    | Some tl =>
        match st !! tl with
        | None => RaiseAttributeError
        | Some last =>
            Return (mk (<[tl := mkNode (element last) (Some nd)]> st)
                       (head q) (Some nd) (size q + 1))
        end
    end.

Definition dequeue (q : t) : outcome (Z * t) :=
  if is_empty q then RaiseEmpty
  else
    match head q ≫= λ h, store q !! h with
    | None => RaiseAttributeError
    | Some nd =>
        let q1 := mk (store q) (next nd) (tail q) (size q - 1) in
        if is_empty q1 then Return (element nd, mk (store q1) (head q1) None (size q1))
        else Return (element nd, q1)
    end.

Inductive reachable : t → Prop :=
| reach_init : reachable init
| reach_enqueue q e q' : reachable q → enqueue q e = Return q' → reachable q'
| reach_dequeue q x q' : reachable q → dequeue q = Return (x, q') → reachable q'.

End LinkedQueue.

(** ** Python's [hash] on integers, and some concrete maps *)

(** CPython's [hash] of an [int] on a 64-bit build: the value modulo
    [2^61 - 1] with the sign of the argument, and [-2] in place of [-1]. *)
Definition int_hash (k : Z) : Z :=
  let h := Z.rem k (2 ^ 61 - 1) in if h =? -1 then -2 else h.

Module Examples.
Import HashMapBase.

Definition unsorted_12 : list Item :=
  UnsortedListMap.setitem (UnsortedListMap.setitem UnsortedListMap.init 1 10) 2 20.

Definition sorted_135 : list Item := [mkItem 1 10; mkItem 3 30; mkItem 5 50].

Definition tree_1 : LinkedBinaryTree.tree :=
  LinkedBinaryTree.Node LinkedBinaryTree.Leaf (mkItem 1 10) LinkedBinaryTree.Leaf.

Definition tree_315 : LinkedBinaryTree.tree :=
  LinkedBinaryTree.Node
    (LinkedBinaryTree.Node LinkedBinaryTree.Leaf (mkItem 1 10) LinkedBinaryTree.Leaf)
    (mkItem 3 30)
    (LinkedBinaryTree.Node LinkedBinaryTree.Leaf (mkItem 5 50) LinkedBinaryTree.Leaf).

(** A map made with the default arguments of [__init__] ([cap=11],
    [p=109345121]), where the two random draws gave [scale = 1] and
    [shift = 0]. *)
Definition empty_chain : t ChainHashMap.cell := init 11 109345121 1 0.

Definition empty_probe : t ProbeHashMap.slot := init 11 109345121 1 0.

(** [m[0] = 5; m[11] = 7]: both keys have cell 0 as their home. *)
Definition probe_pair : t ProbeHashMap.slot :=
  mk ([ProbeHashMap.Full (mkItem 0 5); ProbeHashMap.Full (mkItem 11 7)]
        ++ replicate 9 ProbeHashMap.Empty) 2 109345121 1 0.

(** [for k in ks: m[k] = k; del m[k]]. *)
Fixpoint churn (fuel : nat) (m : t ProbeHashMap.slot) (ks : list Z)
  : option (res (t ProbeHashMap.slot)) :=
  match ks with
  | [] => Some (Ok m)
  | k :: ks' =>
      m1 ←! setitem int_hash fuel m k k;
      m2 ←! delitem int_hash fuel m1 k;
      churn fuel m2 ks'
  end.

(** The table after [churn] over the keys 0, ..., 10: every cell holds the
    sentinel [_AVAIL]. *)
Definition tombstones : t ProbeHashMap.slot :=
  mk (replicate 11 ProbeHashMap.Avail) 0 109345121 1 0.

(** [q.enqueue(1); q.enqueue(2)] on a new queue. *)
Definition queue_12 : LinkedQueue.t :=
  LinkedQueue.mk [LinkedQueue.mkNode 1 (Some 1%nat); LinkedQueue.mkNode 2 None]
    (Some 0%nat) (Some 1%nat) 2.

End Examples.

(** * Properties of the embedding *)

(** ** Python lists *)

Lemma list_get_lookup {A} (l : list A) (i : nat) (x : A) :
  l !! i = Some x → list_get l (Z.of_nat i) = Ok x.
Proof.
  intros H. unfold list_get.
  destruct (Z.ltb_spec (Z.of_nat i) 0) as [?|_]; [lia|].
  destruct (Z.ltb_spec (Z.of_nat i) 0) as [?|_]; [lia|].
  by rewrite Nat2Z.id, H.
Qed.

Lemma list_get_in_range {A} (l : list A) (i : Z) :
  0 ≤ i < Z.of_nat (length l) →
  ∃ x, l !! Z.to_nat i = Some x ∧ list_get l i = Ok x.
Proof.
  intros Hi.
  destruct (lookup_lt_is_Some_2 l (Z.to_nat i)) as [x Hx]; [lia|].
  exists x. split; [done|].
  rewrite <- (Z2Nat.id i) by lia. by apply list_get_lookup.
Qed.

Lemma list_get_lookup_Z {A} (l : list A) (i : Z) (x : A) :
  0 ≤ i → l !! Z.to_nat i = Some x → list_get l i = Ok x.
Proof.
  intros Hi Hx. rewrite <- (Z2Nat.id i) by lia. by apply list_get_lookup.
Qed.

Lemma list_get_Ok_inv {A} (l : list A) (i : Z) (x : A) :
  0 ≤ i → list_get l i = Ok x → l !! Z.to_nat i = Some x.
Proof.
  intros Hi. unfold list_get.
  destruct (Z.ltb_spec i 0) as [?|_]; [lia|].
  destruct (Z.ltb_spec i 0) as [?|_]; [lia|].
  destruct (l !! Z.to_nat i); [|done]. by intros [= ->].
Qed.

Lemma list_set_Ok {A} (l : list A) (i : Z) (x : A) :
  0 ≤ i < Z.of_nat (length l) →
  list_set l i x = Ok (<[Z.to_nat i := x]> l).
Proof.
  intros Hi. unfold list_set.
  destruct (Z.ltb_spec i 0) as [?|_]; [lia|].
  destruct (Z.ltb_spec i 0) as [?|_]; [lia|].
  destruct (Z.ltb_spec i (Z.of_nat (length l))); [done|lia].
Qed.

Lemma list_set_Ok_inv {A} (l l' : list A) (i : Z) (x : A) :
  0 ≤ i → list_set l i x = Ok l' →
  i < Z.of_nat (length l) ∧ l' = <[Z.to_nat i := x]> l.
Proof.
  intros Hi. unfold list_set.
  destruct (Z.ltb_spec i 0) as [?|_]; [lia|].
  destruct (Z.ltb_spec i 0) as [?|_]; [lia|].
  destruct (Z.ltb_spec i (Z.of_nat (length l))); [|done].
  by intros [= <-].
Qed.

(** ** SortedTableMap: the table stays sorted *)

Section sorted_table.
Import SortedTableMap.

(** The table is strictly ascending by key. *)
Definition keys_sorted (tbl : list Item) : Prop :=
  StronglySorted Z.lt (key <$> tbl).

(** [j] splits [tbl] at [k]: the keys before index [j] are below [k], the
    keys from [j] on are at least [k]. *)
Definition is_split (tbl : list Item) (k j : Z) : Prop :=
  0 ≤ j ≤ zlen tbl ∧
  ∀ (i : nat) (item : Item), tbl !! i = Some item →
    if Z.of_nat i <? j then key item < k else k ≤ key item.

Lemma keys_sorted_lookup tbl (i j : nat) a b :
  keys_sorted tbl → tbl !! i = Some a → tbl !! j = Some b →
  (i < j)%nat → key a < key b.
Proof.
  unfold keys_sorted. revert i j. induction tbl as [|x tbl IH]; intros i j Hs Ha Hb Hij.
  - by rewrite lookup_nil in Ha.
  - simpl in Hs. apply StronglySorted_inv in Hs as [Hs Hx].
    destruct j as [|j]; [lia|]. simpl in Hb.
    destruct i as [|i]; simpl in Ha.
    + inversion Ha; subst x. rewrite Forall_forall in Hx. apply Hx.
      apply list_elem_of_fmap. exists b. split; [done|].
      by eapply list_elem_of_lookup_2.
    + eapply IH; eauto. lia.
Qed.

Lemma keys_sorted_inj tbl (i j : nat) a b :
  keys_sorted tbl → tbl !! i = Some a → tbl !! j = Some b →
  key a = key b → i = j.
Proof.
  intros Hs Ha Hb Hk.
  destruct (lt_eq_lt_dec i j) as [[Hlt|Heq]|Hgt]; [|done|].
  - pose proof (keys_sorted_lookup _ _ _ _ _ Hs Ha Hb Hlt). lia.
  - pose proof (keys_sorted_lookup _ _ _ _ _ Hs Hb Ha Hgt). lia.
Qed.

Lemma find_index_go_spec n tbl k low high :
  keys_sorted tbl →
  0 ≤ low → high < zlen tbl → low ≤ high + 1 →
  high - low + 1 ≤ Z.of_nat n →
  (∀ (i : nat) item, tbl !! i = Some item → Z.of_nat i < low → key item < k) →
  (∀ (i : nat) item, tbl !! i = Some item → high < Z.of_nat i → k < key item) →
  ∃ j, find_index_go n tbl k low high = Ok j ∧ is_split tbl k j.
Proof.
  intros Hs. revert low high.
  induction n as [|n IH]; intros low high Hlow Hhigh Hle Hn Hbelow Habove.
  - assert (high + 1 = low) as <- by lia.
    exists (high + 1). simpl. destruct (Z.ltb_spec high (high + 1)); [|lia].
    split; [done|]. split; [unfold zlen in *; lia|].
    intros i item Hi. destruct (Z.ltb_spec (Z.of_nat i) (high + 1)).
    + eapply Hbelow; eauto.
    + assert (k < key item) by (eapply Habove; eauto; lia). lia.
  - simpl. destruct (Z.ltb_spec high low) as [Hhl|Hhl].
    + assert (high + 1 = low) as <- by lia.
      exists (high + 1). split; [done|]. split; [unfold zlen in *; lia|].
      intros i item Hi. destruct (Z.ltb_spec (Z.of_nat i) (high + 1)).
      * eapply Hbelow; eauto.
      * assert (k < key item) by (eapply Habove; eauto; lia). lia.
    + set (mid := (low + high) `div` 2).
      assert (low ≤ mid ≤ high) as Hmid.
      { unfold mid. split.
        - apply Z.div_le_lower_bound; lia.
        - apply Z.div_le_upper_bound; lia. }
      destruct (list_get_in_range tbl mid) as (item & Hitem & ->);
        [unfold zlen in *; lia|]. simpl.
      destruct (Z.eqb_spec k (key item)) as [Heq|Hne].
      * exists mid. split; [done|]. split; [unfold zlen in *; lia|].
        intros i it Hi. destruct (Z.ltb_spec (Z.of_nat i) mid).
        -- rewrite Heq. eapply (keys_sorted_lookup tbl i (Z.to_nat mid)); eauto. lia.
        -- destruct (decide (i = Z.to_nat mid)) as [->|Hneq].
           ++ rewrite Hitem in Hi. inversion Hi; subst. lia.
           ++ assert (key item < key it); [|lia].
              eapply (keys_sorted_lookup tbl (Z.to_nat mid) i); eauto. lia.
      * destruct (Z.ltb_spec k (key item)) as [Hlt|Hge].
        -- apply IH; try lia.
           ++ done.
           ++ intros i it Hi Hgt.
              destruct (decide (i = Z.to_nat mid)) as [->|Hneq].
              ** rewrite Hitem in Hi. by inversion Hi; subst.
              ** assert (key item < key it); [|lia].
                 eapply (keys_sorted_lookup tbl (Z.to_nat mid) i); eauto. lia.
        -- apply IH; try lia.
           ++ intros i it Hi Hgt.
              destruct (decide (i = Z.to_nat mid)) as [->|Hneq].
              ** rewrite Hitem in Hi. inversion Hi; subst. lia.
              ** assert (key it < key item); [|lia].
                 eapply (keys_sorted_lookup tbl i (Z.to_nat mid)); eauto. lia.
           ++ done.
Qed.

Lemma find_index_spec tbl k :
  keys_sorted tbl →
  ∃ j, find_index tbl k 0 (zlen tbl - 1) = Ok j ∧ is_split tbl k j.
Proof.
  intros Hs. unfold find_index.
  apply find_index_go_spec; try done; unfold zlen; try lia.
  intros i item Hi ?. apply lookup_lt_Some in Hi. lia.
Qed.

(** The bound on the number of calls never cuts the recursion short:
    [find_index] satisfies the recursive equation of [_find_index]. *)
Lemma find_index_go_fuel n m tbl k low high :
  high - low + 1 ≤ Z.of_nat n → high - low + 1 ≤ Z.of_nat m →
  find_index_go n tbl k low high = find_index_go m tbl k low high.
Proof.
  revert m low high. induction n as [|n IH]; intros m low high Hn Hm.
  - destruct m; simpl; destruct (Z.ltb_spec high low); try done; lia.
  - destruct m as [|m]; simpl; destruct (Z.ltb_spec high low); try done; try lia.
    set (mid := (low + high) `div` 2).
    assert (low ≤ mid ≤ high) as Hmid.
    { unfold mid. split.
      - apply Z.div_le_lower_bound; lia.
      - apply Z.div_le_upper_bound; lia. }
    destruct (list_get tbl mid) as [item|e]; simpl; [|done].
    destruct (k =? key item); [done|].
    destruct (k <? key item); apply IH; lia.
Qed.

Lemma find_index_eq tbl k low high :
  find_index tbl k low high =
  if high <? low then Ok (high + 1)
  else
    let mid := (low + high) `div` 2 in
    item ← list_get tbl mid;
    if k =? key item then Ok mid
    else if k <? key item then find_index tbl k low (mid - 1)
    else find_index tbl k (mid + 1) high.
Proof.
  unfold find_index.
  destruct (Z.ltb_spec high low) as [Hhl|Hhl].
  - destruct (Z.to_nat (high - low + 1)); simpl;
      by destruct (Z.ltb_spec high low); try lia.
  - destruct (Z.to_nat (high - low + 1)) as [|n] eqn:Hn; [lia|].
    simpl. destruct (Z.ltb_spec high low); [lia|].
    set (mid := (low + high) `div` 2).
    assert (low ≤ mid ≤ high) as Hmid.
    { unfold mid. split.
      - apply Z.div_le_lower_bound; lia.
      - apply Z.div_le_upper_bound; lia. }
    destruct (list_get tbl mid) as [item|e]; simpl; [|done].
    destruct (k =? key item); [done|].
    destruct (k <? key item); apply find_index_go_fuel; lia.
Qed.

(** A key stored at index [i] is where the split for that key falls. *)
Lemma is_split_at_key tbl k j (i : nat) item :
  keys_sorted tbl → is_split tbl k j →
  tbl !! i = Some item → key item = k → j = Z.of_nat i.
Proof.
  intros Hs [Hj Hsplit] Hi Hk.
  pose proof (Hsplit i item Hi) as Hi'.
  destruct (Z.ltb_spec (Z.of_nat i) j); [lia|].
  destruct (Z.eq_dec j (Z.of_nat i)); [done|].
  destruct (list_get_in_range tbl j) as (it & Hit & _).
  { apply lookup_lt_Some in Hi. unfold zlen in *. lia. }
  pose proof (Hsplit _ _ Hit) as Hj'.
  rewrite Z2Nat.id in Hj' by lia.
  destruct (Z.ltb_spec j j); [lia|].
  assert (key it < key item); [|lia].
  eapply (keys_sorted_lookup tbl (Z.to_nat j) i); eauto. lia.
Qed.

Lemma is_split_absent tbl k j item :
  is_split tbl k j → (∀ it, it ∈ tbl → key it ≠ k) →
  tbl !! Z.to_nat j = Some item → k < key item.
Proof.
  intros [Hj Hsplit] Habs Hit.
  pose proof (Hsplit _ _ Hit) as H. rewrite Z2Nat.id in H by lia.
  destruct (Z.ltb_spec j j); [lia|].
  assert (key item ≠ k) by (apply Habs; by eapply list_elem_of_lookup_2).
  lia.
Qed.

Lemma sorted_getitem_present tbl (i : nat) item :
  keys_sorted tbl → tbl !! i = Some item →
  getitem tbl (key item) = Ok (value item).
Proof.
  intros Hs Hi. unfold getitem.
  destruct (find_index_spec tbl (key item) Hs) as (j & -> & Hsplit). simpl.
  assert (j = Z.of_nat i) as -> by (eapply is_split_at_key; eauto).
  pose proof (lookup_lt_Some _ _ _ Hi).
  destruct (Z.eqb_spec (Z.of_nat i) (zlen tbl)); [unfold zlen in *; lia|].
  rewrite (list_get_lookup _ _ _ Hi). simpl.
  by rewrite Z.eqb_refl.
Qed.

Lemma sorted_getitem_absent tbl k :
  keys_sorted tbl → (∀ it, it ∈ tbl → key it ≠ k) →
  getitem tbl k = Raise KeyError.
Proof.
  intros Hs Habs. unfold getitem.
  destruct (find_index_spec tbl k Hs) as (j & -> & Hsplit). simpl.
  destruct (Z.eqb_spec j (zlen tbl)); [done|].
  destruct (list_get_in_range tbl j) as (it & Hit & ->).
  { destruct Hsplit as [? _]. unfold zlen in *. lia. }
  simpl. pose proof (is_split_absent _ _ _ _ Hsplit Habs Hit).
  destruct (Z.eqb_spec (key it) k); [lia|done].
Qed.

Lemma sorted_getitem_Ok tbl k v :
  keys_sorted tbl → (getitem tbl k = Ok v ↔ mkItem k v ∈ tbl).
Proof.
  intros Hs. split.
  - intros Hget.
    destruct (decide (Exists (λ it, key it = k) tbl)) as [Hex|Hno].
    + apply Exists_exists in Hex as (it & Hin & Hk).
      apply list_elem_of_lookup in Hin as [i Hi].
      pose proof (sorted_getitem_present _ _ _ Hs Hi) as H.
      rewrite Hk, Hget in H. inversion H; subst.
      destruct it; simpl. by eapply list_elem_of_lookup_2.
    + rewrite sorted_getitem_absent in Hget; [done|done|].
      intros it Hin Hk. apply Hno, Exists_exists. eauto.
  - intros Hin. apply list_elem_of_lookup in Hin as [i Hi].
    apply (sorted_getitem_present _ _ _ Hs Hi).
Qed.

Lemma keys_sorted_take_drop tbl (j : nat) k :
  is_split tbl k (Z.of_nat j) →
  Forall (λ it, key it < k) (take j tbl) ∧
  Forall (λ it, k ≤ key it) (drop j tbl).
Proof.
  intros [Hj Hsplit]. split; apply Forall_lookup; intros i it Hi.
  - rewrite lookup_take_Some in Hi. destruct Hi as [Hi Hlt].
    pose proof (Hsplit _ _ Hi) as H.
    destruct (Z.ltb_spec (Z.of_nat i) (Z.of_nat j)); [done|lia].
  - rewrite lookup_drop in Hi.
    pose proof (Hsplit _ _ Hi) as H.
    destruct (Z.ltb_spec (Z.of_nat (j + i)) (Z.of_nat j)); [lia|done].
Qed.

Lemma keys_sorted_insert tbl (j : nat) k v :
  keys_sorted tbl → is_split tbl k (Z.of_nat j) →
  (∀ it, tbl !! j = Some it → key it ≠ k) →
  keys_sorted (list_insert_at tbl j (mkItem k v)).
Proof.
  intros Hs Hsplit Hne.
  destruct (keys_sorted_take_drop _ _ _ Hsplit) as [Hlo Hhi].
  unfold keys_sorted, list_insert_at in *.
  rewrite <- (take_drop j tbl) in Hs.
  rewrite fmap_app in Hs. apply StronglySorted_app in Hs as (Hcross & H1 & H2).
  rewrite fmap_app. simpl. apply StronglySorted_app. split_and!; [|done|].
  - intros x1 x2 Hx1 Hx2.
    apply list_elem_of_fmap in Hx1 as (it1 & -> & Hit1).
    rewrite Forall_forall in Hlo.
    apply elem_of_cons in Hx2 as [->|Hx2]; [by apply Hlo|].
    apply list_elem_of_fmap in Hx2 as (it2 & -> & Hit2).
    rewrite Forall_forall in Hhi.
    specialize (Hlo _ Hit1). specialize (Hhi _ Hit2). lia.
  - apply SSorted_cons; [done|].
    apply Forall_forall. intros x Hx.
    apply list_elem_of_fmap in Hx as (it & -> & Hit).
    apply list_elem_of_lookup in Hit as [i Hi].
    rewrite Forall_lookup in Hhi. pose proof (Hhi _ _ Hi) as Hge.
    destruct i as [|i].
    + rewrite lookup_drop, Nat.add_0_r in Hi. specialize (Hne _ Hi). lia.
    + destruct (drop j tbl) as [|it0 rest] eqn:Hd; [done|].
      simpl in Hi, H2. apply StronglySorted_inv in H2 as [_ H2].
      rewrite Forall_forall in H2.
      assert (key it0 < key it).
      { apply H2. apply list_elem_of_fmap. exists it.
        split; [done|]. by eapply list_elem_of_lookup_2. }
      specialize (Hhi 0%nat it0 eq_refl). simpl in Hhi. lia.
Qed.

Lemma keys_sorted_pop tbl (j : nat) :
  keys_sorted tbl → keys_sorted (take j tbl ++ drop (S j) tbl).
Proof.
  unfold keys_sorted. intros Hs.
  rewrite <- (take_drop j tbl) in Hs.
  rewrite fmap_app in Hs. apply StronglySorted_app in Hs as (Hcross & H1 & H2).
  rewrite fmap_app. apply StronglySorted_app.
  destruct (drop j tbl) as [|x rest] eqn:Hd.
  - rewrite (drop_ge tbl (S j)).
    + split_and!; [|done|constructor]. intros ?? _ Hx. by apply elem_of_nil in Hx.
    + assert (length (drop j tbl) = 0%nat) as Hl by (by rewrite Hd).
      rewrite length_drop in Hl. lia.
  - assert (drop (S j) tbl = rest) as ->.
    { rewrite <- (Nat.add_1_l j), Nat.add_comm, <- drop_drop, Hd. done. }
    simpl in H2. apply StronglySorted_inv in H2 as [H2 _].
    split_and!; [|done|done].
    intros x1 x2 Hx1 Hx2. apply Hcross; [done|]. apply elem_of_cons. by right.
Qed.

Lemma sorted_setitem_spec tbl k v :
  keys_sorted tbl →
  ∃ tbl', setitem tbl k v = Ok tbl' ∧ keys_sorted tbl' ∧ mkItem k v ∈ tbl'.
Proof.
  intros Hs. unfold setitem.
  destruct (find_index_spec tbl k Hs) as (j & -> & Hsplit). simpl.
  pose proof Hsplit as [Hj Hsp].
  assert (is_split tbl k (Z.of_nat (Z.to_nat j))) as Hsplit'
    by (by rewrite Z2Nat.id by lia).
  assert (mkItem k v ∈ list_insert_at tbl (Z.to_nat j) (mkItem k v)) as Hin.
  { unfold list_insert_at. apply elem_of_app. right. apply elem_of_cons. by left. }
  destruct (Z.ltb_spec j (zlen tbl)) as [Hlt|Hge].
  - destruct (list_get_in_range tbl j) as (it & Hit & ->); [unfold zlen in *; lia|].
    simpl. destruct (Z.eqb_spec (key it) k) as [Heq|Hne].
    + eexists. split; [done|]. split.
      * unfold keys_sorted in *.
        rewrite list_fmap_insert. simpl. rewrite list_insert_id; [done|].
        by rewrite list_lookup_fmap, Hit.
      * rewrite Heq. eapply list_elem_of_lookup_2.
        apply list_lookup_insert_eq. by eapply lookup_lt_Some.
    + eexists. split; [done|]. split; [|done].
      apply keys_sorted_insert; try done.
      intros it' Hit'. rewrite Hit in Hit'. by inversion Hit'; subst.
  - eexists. split; [done|]. split; [|done].
    apply keys_sorted_insert; try done.
    intros it' Hit'. apply lookup_lt_Some in Hit'. unfold zlen in *. lia.
Qed.

Lemma sorted_delitem_spec tbl k tbl' :
  keys_sorted tbl → delitem tbl k = Ok tbl' → keys_sorted tbl'.
Proof.
  intros Hs. unfold delitem.
  destruct (find_index_spec tbl k Hs) as (j & -> & Hsplit). simpl.
  destruct (j =? zlen tbl); [done|].
  destruct (list_get tbl j) as [it|]; simpl; [|done].
  destruct (negb (key it =? k)); [done|].
  unfold list_pop. destruct (tbl !! Z.to_nat j); [|done].
  intros H. inversion H; subst. by apply keys_sorted_pop.
Qed.

Lemma sorted_reachable_inv tbl : reachable tbl → keys_sorted tbl.
Proof.
  induction 1 as [|tbl k v tbl' _ IH Hset|tbl k tbl' _ IH Hdel].
  - constructor.
  - destruct (sorted_setitem_spec tbl k v IH) as (tbl'' & Heq & Hs & _).
    rewrite Hset in Heq. by inversion Heq; subst.
  - by eapply sorted_delitem_spec.
Qed.

End sorted_table.

(** ** SortedTableMap: lookups, neighbours and ranges *)

Section sorted_queries.
Import SortedTableMap.

(** [start <= k < stop], a bound [None] being no bound. *)
Definition in_range (start stop : option Z) (k : Z) : Prop :=
  match start with None => True | Some s => s ≤ k end ∧
  match stop with None => True | Some s => k < s end.

Definition above (start : option Z) (k : Z) : Prop :=
  match start with None => True | Some s => s ≤ k end.

Definition below (stop : option Z) (k : Z) : Prop :=
  match stop with None => True | Some s => k < s end.

#[global] Instance above_dec start k : Decision (above start k).
Proof. destruct start; simpl; apply _. Defined.

#[global] Instance below_dec stop k : Decision (below stop k).
Proof. destruct stop; simpl; apply _. Defined.

#[global] Instance in_range_dec start stop k : Decision (in_range start stop k).
Proof. unfold in_range. destruct start, stop; apply _. Defined.

Lemma filter_all {A} (P : A → Prop) `{!∀ x, Decision (P x)} (l : list A) :
  Forall P l → filter P l = l.
Proof.
  induction 1 as [|x l Hx _ IH]; [done|].
  by rewrite filter_cons_True, IH.
Qed.

Lemma filter_none {A} (P : A → Prop) `{!∀ x, Decision (P x)} (l : list A) :
  Forall (λ x, ¬ P x) l → filter P l = [].
Proof.
  induction 1 as [|x l Hx _ IH]; [done|].
  by rewrite filter_cons_False.
Qed.

Lemma keys_sorted_filter (P : Item → Prop) `{!∀ x, Decision (P x)} tbl :
  keys_sorted tbl → keys_sorted (filter P tbl).
Proof.
  unfold keys_sorted. induction tbl as [|x tbl IH]; [done|].
  intros Hs. rewrite fmap_cons in Hs. apply StronglySorted_inv in Hs as [Hs Hx].
  rewrite filter_cons. case_decide; [|by apply IH].
  rewrite fmap_cons. apply SSorted_cons; [by apply IH|].
  rewrite Forall_forall in Hx. apply Forall_forall. intros y Hy.
  apply list_elem_of_fmap in Hy as (it & -> & Hit).
  apply list_elem_of_filter in Hit as [_ Hit].
  apply Hx, list_elem_of_fmap. eauto.
Qed.

Lemma keys_sorted_drop tbl (j : nat) :
  keys_sorted tbl → keys_sorted (drop j tbl).
Proof.
  unfold keys_sorted. intros Hs.
  rewrite <- (take_drop j tbl), fmap_app in Hs.
  by apply StronglySorted_app in Hs as (_ & _ & ?).
Qed.

Lemma find_range_from_spec n tbl (j : nat) stop :
  keys_sorted tbl → n = (length tbl - j)%nat →
  find_range_from n tbl j stop =
  pair_of <$> filter (λ it, below stop (key it)) (drop j tbl).
Proof.
  intros Hs. revert j. induction n as [|n IH]; intros j Hn.
  - simpl. rewrite drop_ge by lia. done.
  - simpl. destruct (lookup_lt_is_Some_2 tbl j) as [item Hitem]; [lia|].
    rewrite Hitem, (drop_S _ _ _ Hitem).
    assert (match stop with Some s => key item <? s | None => true end
            = bool_decide (below stop (key item))) as ->.
    { destruct stop as [s|]; simpl; [|done].
      destruct (Z.ltb_spec (key item) s).
      - by rewrite bool_decide_eq_true_2.
      - rewrite bool_decide_eq_false_2; [done|lia]. }
    case_bool_decide as Hb.
    + rewrite filter_cons_True by done. rewrite fmap_cons.
      f_equal. apply IH. lia.
    + rewrite filter_none; [done|].
      pose proof (keys_sorted_drop _ j Hs) as Hd.
      rewrite (drop_S _ _ _ Hitem) in Hd. unfold keys_sorted in Hd.
      rewrite fmap_cons in Hd. apply StronglySorted_inv in Hd as [_ Hd].
      constructor; [done|].
      rewrite Forall_forall in Hd. apply Forall_forall. intros it Hit Hbel.
      assert (key item < key it) by (apply Hd, list_elem_of_fmap; eauto).
      destruct stop as [s|]; simpl in *; [lia|done].
Qed.

Lemma find_range_filter tbl start stop :
  keys_sorted tbl →
  find_range tbl start stop =
  Ok (pair_of <$> filter (λ it, in_range start stop (key it)) tbl).
Proof.
  intros Hs. unfold find_range.
  assert (∃ j : nat,
    match start with
    | Some s => find_index tbl s 0 (zlen tbl - 1)
    | None => Ok 0
    end = Ok (Z.of_nat j) ∧
    drop j tbl = filter (λ it, above start (key it)) tbl) as (j & -> & Hj).
  { destruct start as [s|].
    - destruct (find_index_spec tbl s Hs) as (j & -> & Hsplit).
      exists (Z.to_nat j). pose proof Hsplit as [? _].
      rewrite Z2Nat.id by lia. split; [done|].
      rewrite <- (Z2Nat.id j) in Hsplit by lia.
      destruct (keys_sorted_take_drop _ _ _ Hsplit) as [Hlo Hhi].
      rewrite <- (take_drop (Z.to_nat j) tbl) at 2.
      rewrite filter_app, filter_none, filter_all; [done|done|].
      eapply Forall_impl; [exact Hlo|]. simpl. lia.
    - exists 0%nat. split; [done|]. rewrite drop_0, filter_all; [done|].
      by apply Forall_forall. }
  simpl. rewrite Nat2Z.id.
  rewrite (find_range_from_spec _ _ _ _ Hs eq_refl), Hj.
  rewrite list_filter_filter. do 2 f_equal.
  apply list_filter_iff. intros it. unfold in_range, above, below. tauto.
Qed.

(** [find_range] yields exactly the pairs of the map with a key in the
    range, by strictly ascending key. *)
Lemma sorted_find_range_spec tbl start stop :
  reachable tbl →
  ∃ l, find_range tbl start stop = Ok l ∧
       (∀ k v, (k, v) ∈ l ↔ getitem tbl k = Ok v ∧ in_range start stop k) ∧
       StronglySorted Z.lt (l.*1).
Proof.
  intros Hr. pose proof (sorted_reachable_inv _ Hr) as Hs.
  eexists. split; [by apply find_range_filter|]. split.
  - intros k v. rewrite (sorted_getitem_Ok _ _ _ Hs). rewrite list_elem_of_fmap. split.
    + intros (it & Heq & Hin). apply list_elem_of_filter in Hin as [Hrange Hin].
      destruct it as [k' v']. unfold pair_of in Heq. simpl in *.
      by inversion Heq; subst.
    + intros [Hin Hrange]. exists (mkItem k v). split; [done|].
      by apply list_elem_of_filter.
  - rewrite <- list_fmap_compose.
    by apply (keys_sorted_filter (λ it, in_range start stop (key it))).
Qed.


Lemma keys_sorted_NoDup tbl : keys_sorted tbl → NoDup (key <$> tbl).
Proof.
  unfold keys_sorted. induction (key <$> tbl) as [|x l IH]; [constructor|].
  intros Hs. apply StronglySorted_inv in Hs as [Hs Hx].
  constructor; [|by apply IH].
  intros Hin. rewrite Forall_forall in Hx. specialize (Hx _ Hin). lia.
Qed.

(** Iteration yields each key of the map once, and [len] counts them. *)
Lemma sorted_iter_spec tbl :
  reachable tbl →
  NoDup (iter tbl) ∧
  (∀ k, k ∈ iter tbl ↔ ∃ v, getitem tbl k = Ok v) ∧
  length (iter tbl) = len tbl.
Proof.
  intros Hr. pose proof (sorted_reachable_inv _ Hr) as Hs.
  split; [by apply keys_sorted_NoDup|]. split.
  - intros k. unfold iter. rewrite list_elem_of_fmap. split.
    + intros (it & -> & Hin). exists (value it). apply sorted_getitem_Ok; [done|].
      by destruct it.
    + intros [v Hv]. apply sorted_getitem_Ok in Hv; [|done]. by exists (mkItem k v).
  - unfold iter, len. by rewrite length_fmap.
Qed.

(** [find_gt] raises as soon as some key of the table is at least [k]:
    the comparison of an item with the bare key asks the key for its
    attribute [key]. *)
Lemma find_gt_raises tbl k item :
  reachable tbl → item ∈ tbl → k ≤ key item →
  find_gt tbl k = Raise AttributeError.
Proof.
  intros Hr Hin Hle. pose proof (sorted_reachable_inv _ Hr) as Hs.
  unfold find_gt.
  destruct (find_index_spec tbl k Hs) as (j & -> & [Hj Hsplit]). simpl.
  apply list_elem_of_lookup in Hin as [i Hi].
  pose proof (Hsplit _ _ Hi) as H. pose proof (lookup_lt_Some _ _ _ Hi).
  destruct (Z.ltb_spec (Z.of_nat i) j); [lia|].
  destruct (Z.ltb_spec j (zlen tbl)); [|unfold zlen in *; lia].
  destruct (list_get_in_range tbl j) as (it & _ & ->); [unfold zlen in *; lia|].
  done.
Qed.

(** [find_le] answers [None] for the smallest key of the table. *)
Lemma find_le_min_key tbl item rest :
  reachable tbl → tbl = item :: rest →
  find_le tbl (key item) = Ok None.
Proof.
  intros Hr ->. pose proof (sorted_reachable_inv _ Hr) as Hs.
  unfold find_le.
  destruct (find_index_spec _ (key item) Hs) as (j & -> & Hsplit). simpl.
  assert (j = Z.of_nat 0) as -> by (by eapply is_split_at_key).
  done.
Qed.

End sorted_queries.

(** ** UnsortedListMap *)

Section unsorted.
Import UnsortedListMap.

(** The items of [l] other than the one for key [k]. *)
Definition without (k : Z) (l : list Item) : list Item :=
  filter (λ it, key it ≠ k) l.

Lemma without_absent k l : k ∉ key <$> l → without k l = l.
Proof.
  intros Hk. apply filter_all, Forall_forall. intros it Hit Heq.
  apply Hk, list_elem_of_fmap. eauto.
Qed.

Lemma without_app k l1 l2 : without k (l1 ++ l2) = without k l1 ++ without k l2.
Proof. apply filter_app. Qed.

Lemma elem_of_without k l it : it ∈ without k l ↔ it ∈ l ∧ key it ≠ k.
Proof. unfold without. rewrite list_elem_of_filter. tauto. Qed.

Lemma without_keys k l : k ∉ key <$> without k l.
Proof.
  intros Hin. apply list_elem_of_fmap in Hin as (it & -> & Hit).
  apply elem_of_without in Hit as [_ Hne]. done.
Qed.

Lemma without_NoDup k l : NoDup (key <$> l) → NoDup (key <$> without k l).
Proof.
  induction l as [|it l IH]; [done|].
  rewrite fmap_cons, NoDup_cons. intros [Hit Hl].
  unfold without. rewrite filter_cons. case_decide; [|by apply IH].
  rewrite fmap_cons. apply NoDup_cons. split; [|by apply IH].
  intros Hin. apply Hit. apply list_elem_of_fmap in Hin as (it' & -> & Hit').
  apply list_elem_of_filter in Hit' as [_ Hit']. apply list_elem_of_fmap. eauto.
Qed.

Lemma without_length k l :
  NoDup (key <$> l) → k ∈ key <$> l →
  length l = S (length (without k l)).
Proof.
  induction l as [|it l IH]; intros Hnd Hin.
  - by apply elem_of_nil in Hin.
  - rewrite fmap_cons in Hnd, Hin. apply NoDup_cons in Hnd as [Hit Hl].
    unfold without. rewrite filter_cons. case_decide as Hk.
    + simpl. f_equal. apply IH; [done|].
      apply elem_of_cons in Hin as [Heq|Hin]; [congruence|done].
    + subst k.
      fold (without (key it) l). by rewrite without_absent.
Qed.

Lemma getitem_Ok_elem tbl k v : getitem tbl k = Ok v → mkItem k v ∈ tbl.
Proof.
  induction tbl as [|it tbl IH]; simpl; [done|].
  destruct (Z.eqb_spec k (key it)) as [->|Hne].
  - intros H. inversion H. destruct it. simpl. apply elem_of_cons. by left.
  - intros H. apply elem_of_cons. right. by apply IH.
Qed.

Lemma getitem_elem tbl k v :
  NoDup (key <$> tbl) → mkItem k v ∈ tbl → getitem tbl k = Ok v.
Proof.
  induction tbl as [|it tbl IH]; intros Hnd Hin.
  - by apply elem_of_nil in Hin.
  - rewrite fmap_cons in Hnd. apply NoDup_cons in Hnd as [Hit Hnd]. simpl.
    apply elem_of_cons in Hin as [<-|Hin]; simpl.
    + by rewrite Z.eqb_refl.
    + destruct (Z.eqb_spec k (key it)) as [->|Hne]; [|by apply IH].
      exfalso. apply Hit, list_elem_of_fmap. by exists (mkItem (key it) v).
Qed.

Lemma getitem_absent_keys tbl k :
  k ∉ key <$> tbl → getitem tbl k = Raise KeyError.
Proof.
  induction tbl as [|it tbl IH]; simpl; [done|].
  rewrite not_elem_of_cons. intros [Hne Hk].
  destruct (Z.eqb_spec k (key it)); [done|]. by apply IH.
Qed.

Lemma getitem_keys tbl k : k ∈ key <$> tbl ↔ ∃ v, getitem tbl k = Ok v.
Proof.
  split.
  - induction tbl as [|it tbl IH]; simpl; [by intros ?%elem_of_nil|].
    destruct (Z.eqb_spec k (key it)); [eauto|].
    rewrite elem_of_cons. intros [?|?]; [done|]. by apply IH.
  - intros [v Hv]. apply getitem_Ok_elem in Hv.
    apply list_elem_of_fmap. by exists (mkItem k v).
Qed.

Lemma setitem_keys tbl k v :
  key <$> setitem tbl k v =
  if decide (k ∈ key <$> tbl) then key <$> tbl else (key <$> tbl) ++ [k].
Proof.
  induction tbl as [|it tbl IH].
  - case_decide as H; [by apply elem_of_nil in H|done].
  - cbn [setitem]. rewrite (fmap_cons key it tbl).
    destruct (Z.eqb_spec k (key it)) as [->|Hne].
    + rewrite decide_True; [done|]. apply elem_of_cons. by left.
    + rewrite fmap_cons, IH. destruct (decide (k ∈ key <$> tbl)) as [Hin|Hin].
      * rewrite decide_True; [done|]. apply elem_of_cons. by right.
      * rewrite decide_False; [done|]. rewrite not_elem_of_cons. done.
Qed.

Lemma setitem_length tbl k v :
  length (setitem tbl k v) =
  if decide (k ∈ key <$> tbl) then length tbl else S (length tbl).
Proof.
  rewrite <- (length_fmap key), setitem_keys.
  case_decide; rewrite ?length_app, length_fmap; simpl; lia.
Qed.

Lemma setitem_NoDup tbl k v :
  NoDup (key <$> tbl) → NoDup (key <$> setitem tbl k v).
Proof.
  intros Hnd. rewrite setitem_keys. case_decide; [done|].
  apply NoDup_app. split_and!; [done| |apply NoDup_singleton].
  intros x Hx Hx'. apply list_elem_of_singleton in Hx'. by subst.
Qed.

Lemma setitem_perm tbl k v :
  NoDup (key <$> tbl) → setitem tbl k v ≡ₚ mkItem k v :: without k tbl.
Proof.
  induction tbl as [|it tbl IH]; [done|].
  rewrite fmap_cons, NoDup_cons. intros [Hit Hnd]. simpl.
  destruct (Z.eqb_spec k (key it)) as [->|Hne].
  - unfold without. rewrite filter_cons_False by (intros ?; done).
    fold (without (key it) tbl). by rewrite without_absent.
  - unfold without. rewrite filter_cons_True by done.
    fold (without k tbl). rewrite IH by done. apply Permutation_swap.
Qed.

Lemma delitem_Ok tbl k tbl' :
  NoDup (key <$> tbl) → delitem tbl k = Ok tbl' →
  tbl' = without k tbl ∧ k ∈ key <$> tbl.
Proof.
  revert tbl'. induction tbl as [|it tbl IH]; intros tbl'; [done|].
  rewrite fmap_cons, NoDup_cons. intros [Hit Hnd]. simpl.
  destruct (Z.eqb_spec k (key it)) as [->|Hne].
  - intros H. inversion H; subst. split; [|apply elem_of_cons; by left].
    unfold without. rewrite filter_cons_False by (intros ?; done).
    fold (without (key it) tbl'). by rewrite without_absent.
  - destruct (delitem tbl k) as [r|] eqn:Hdel; simpl; [|done].
    intros H. inversion H; subst.
    destruct (IH r Hnd eq_refl) as [-> Hin].
    split; [|apply elem_of_cons; by right].
    unfold without. by rewrite filter_cons_True by done.
Qed.

Lemma delitem_present tbl k :
  k ∈ key <$> tbl → ∃ tbl', delitem tbl k = Ok tbl'.
Proof.
  induction tbl as [|it tbl IH]; simpl; [by intros ?%elem_of_nil|].
  destruct (Z.eqb_spec k (key it)); [eauto|].
  rewrite elem_of_cons. intros [?|Hin]; [done|].
  destruct (IH Hin) as [r ->]. simpl. eauto.
Qed.

Lemma unsorted_reachable_NoDup tbl : reachable tbl → NoDup (key <$> tbl).
Proof.
  induction 1 as [|tbl k v _ IH|tbl k tbl' _ IH Hdel].
  - constructor.
  - by apply setitem_NoDup.
  - apply delitem_Ok in Hdel as [-> _]; [|done]. by apply without_NoDup.
Qed.


Lemma unsorted_iter_spec tbl :
  reachable tbl →
  NoDup (iter tbl) ∧
  (∀ k, k ∈ iter tbl ↔ ∃ v, getitem tbl k = Ok v) ∧
  length (iter tbl) = len tbl.
Proof.
  intros Hr. split; [by apply unsorted_reachable_NoDup|]. split.
  - intros k. apply getitem_keys.
  - unfold iter, len. by rewrite length_fmap.
Qed.

End unsorted.

(** ** HashMapBase: what holds for every bucket strategy *)

Lemma fbind_Ok {A C} (c : option (res A)) (f : A → option (res C)) r :
  fbind c f = Some (Ok r) → ∃ a, c = Some (Ok a) ∧ f a = Some (Ok r).
Proof. destruct c as [[a|e]|]; simpl; [eauto|done|done]. Qed.

Lemma NoDup_key_inj (l : list Item) a b :
  NoDup (key <$> l) → a ∈ l → b ∈ l → key a = key b → a = b.
Proof.
  induction l as [|x l IH]; [by intros _ ?%elem_of_nil|].
  rewrite fmap_cons, NoDup_cons, !elem_of_cons. intros [Hx Hnd] [->|Ha] [->|Hb] Hk.
  - done.
  - exfalso. apply Hx, list_elem_of_fmap. eauto.
  - exfalso. apply Hx, list_elem_of_fmap. eauto.
  - by apply IH.
Qed.

Lemma pair_of_eta it : mkItem (key it) (value it) = it.
Proof. by destruct it. Qed.

Section hash_generic.
Import HashMapBase.
Context (py_hash : Z → Z) {B : Type} `{!Bucket B}.

(** The items a cell holds, and the strategy's own invariant. *)
Context (cell_items : B → list Item) (W P : t B → Prop).

Definition all_items (m : t B) : list Item := table m ≫= cell_items.

(** A table of [cap] fresh cells, as [_resize] installs it. *)
Definition fresh (m : t B) (cap : Z) : t B :=
  set_n (set_table m (replicate (Z.to_nat cap) none)) 0.

Record inv (m : t B) : Prop := mk_inv {
  inv_wf : W m;
  inv_nodup : NoDup (key <$> all_items m);
  inv_n : n m = Z.of_nat (length (all_items m));
  inv_cap : 2 ≤ capacity m;
  inv_prime : 0 < prime m
}.

(** What the generic results ask of a bucket strategy. *)
Class BucketLaws : Prop := {
  cell_items_none : cell_items none = [];
  iter_items : ∀ m, iter m = key <$> all_items m;
  W_fresh : ∀ m cap, W (fresh m cap);
  W_set_n : ∀ m x, W m → W (set_n m x);
  P_fresh : ∀ m cap, P (fresh m cap);
  bucket_get_total : ∀ fuel m j k v,
    inv m → hash_function py_hash m k = Ok j →
    capacity m ≤ Z.of_nat fuel → mkItem k v ∈ all_items m →
    bucket_getitem fuel m j k = Some (Ok v);
  bucket_get_partial : ∀ fuel m j k v,
    inv m → hash_function py_hash m k = Ok j →
    bucket_getitem fuel m j k = Some (Ok v) → mkItem k v ∈ all_items m;
  bucket_set_partial : ∀ fuel m j k v m1,
    inv m → hash_function py_hash m k = Ok j →
    bucket_setitem fuel m j k v = Some (Ok m1) →
    W m1 ∧
    all_items m1 ≡ₚ mkItem k v :: without k (all_items m) ∧
    n m1 = n m + (if decide (k ∈ key <$> all_items m) then 0 else 1) ∧
    capacity m1 = capacity m ∧ prime m1 = prime m ∧ (P m → P m1);
  bucket_set_total : ∀ fuel m j k v,
    inv m → P m → n m < capacity m →
    hash_function py_hash m k = Ok j → capacity m ≤ Z.of_nat fuel →
    ∃ m1, bucket_setitem fuel m j k v = Some (Ok m1);
  bucket_del_partial : ∀ fuel m j k m1,
    inv m → hash_function py_hash m k = Ok j →
    bucket_delitem fuel m j k = Some (Ok m1) →
    W m1 ∧
    all_items m1 ≡ₚ without k (all_items m) ∧
    k ∈ key <$> all_items m ∧
    n m1 = n m ∧ capacity m1 = capacity m ∧ prime m1 = prime m;
  bucket_del_total : ∀ fuel m j k,
    inv m → hash_function py_hash m k = Ok j →
    capacity m ≤ Z.of_nat fuel → k ∈ key <$> all_items m →
    ∃ m1, bucket_delitem fuel m j k = Some (Ok m1)
}.

Lemma hash_range (m : t B) k j :
  hash_function py_hash m k = Ok j → 0 ≤ j < capacity m.
Proof.
  unfold hash_function. destruct (prime m =? 0); [done|].
  destruct (Z.eqb_spec (capacity m) 0); [done|]. intros [= <-].
  apply Z.mod_pos_bound. unfold capacity in *. lia.
Qed.

Lemma hash_function_set_table (m : t B) tbl k :
  length tbl = length (table m) →
  hash_function py_hash (set_table m tbl) k = hash_function py_hash m k.
Proof. intros Hlen. unfold hash_function, capacity. simpl. by rewrite Hlen. Qed.

Lemma all_items_lookup (m : t B) (i : nat) c :
  table m !! i = Some c →
  all_items m = (take i (table m) ≫= cell_items) ++ cell_items c ++
                (drop (S i) (table m) ≫= cell_items).
Proof.
  intros Hi. unfold all_items.
  rewrite <- (take_drop_middle _ _ _ Hi) at 1.
  by rewrite bind_app, bind_cons.
Qed.

Lemma all_items_insert (m : t B) (i : nat) c c' :
  table m !! i = Some c →
  all_items (set_table m (<[i := c']> (table m))) =
  (take i (table m) ≫= cell_items) ++ cell_items c' ++
  (drop (S i) (table m) ≫= cell_items).
Proof.
  intros Hi. unfold all_items. simpl.
  rewrite insert_take_drop by (by eapply lookup_lt_Some).
  by rewrite bind_app, bind_cons.
Qed.

Lemma elem_of_all_items (m : t B) it :
  it ∈ all_items m ↔ ∃ (i : nat) c, table m !! i = Some c ∧ it ∈ cell_items c.
Proof.
  unfold all_items. rewrite list_elem_of_bind. split.
  - intros (c & Hit & Hc). apply list_elem_of_lookup in Hc as [i Hi]. eauto.
  - intros (i & c & Hi & Hit). exists c. split; [done|].
    by eapply list_elem_of_lookup_2.
Qed.

Context `{!BucketLaws}.

Lemma all_items_fresh m cap : all_items (fresh m cap) = [].
Proof.
  unfold all_items. cbn [fresh set_n set_table table].
  induction (Z.to_nat cap) as [|c IH]; [done|].
  change (replicate (S c) none) with (none :: replicate c none).
  by rewrite bind_cons, cell_items_none, IH.
Qed.

Lemma capacity_fresh m cap : 0 ≤ cap → capacity (fresh m cap) = cap.
Proof. intros. unfold capacity, fresh. simpl. rewrite length_replicate. lia. Qed.

Lemma inv_fresh m cap : 2 ≤ cap → 0 < prime m → inv (fresh m cap).
Proof.
  intros Hcap Hp. split.
  - apply W_fresh.
  - rewrite all_items_fresh. constructor.
  - by rewrite all_items_fresh.
  - rewrite capacity_fresh; lia.
  - done.
Qed.

Lemma hash_ok m k :
  inv m → ∃ j, hash_function py_hash m k = Ok j ∧ 0 ≤ j < capacity m.
Proof.
  intros [_ _ _ Hcap Hp]. unfold hash_function.
  destruct (Z.eqb_spec (prime m) 0); [lia|].
  destruct (Z.eqb_spec (capacity m) 0); [lia|].
  eexists. split; [done|]. apply Z.mod_pos_bound. lia.
Qed.

Lemma getitem_total fuel m k v :
  inv m → capacity m ≤ Z.of_nat fuel → mkItem k v ∈ all_items m →
  getitem py_hash fuel m k = Some (Ok v).
Proof.
  intros Hinv Hf Hin. unfold getitem.
  destruct (hash_ok m k Hinv) as (j & Hj & _). rewrite Hj. simpl.
  by eapply bucket_get_total.
Qed.

Lemma getitem_partial fuel m k v :
  inv m → getitem py_hash fuel m k = Some (Ok v) → mkItem k v ∈ all_items m.
Proof.
  intros Hinv. unfold getitem.
  destruct (hash_ok m k Hinv) as (j & Hj & _). rewrite Hj. simpl.
  by eapply bucket_get_partial.
Qed.

Lemma getitem_present m k :
  inv m →
  k ∈ key <$> all_items m ↔ ∃ fuel v, getitem py_hash fuel m k = Some (Ok v).
Proof.
  intros Hinv. split.
  - intros (it & -> & Hit)%list_elem_of_fmap.
    exists (Z.to_nat (capacity m)), (value it).
    apply getitem_total; [done|lia|]. by rewrite pair_of_eta.
  - intros (fuel & v & Hget). apply getitem_partial in Hget; [|done].
    apply list_elem_of_fmap. by exists (mkItem k v).
Qed.

Lemma items_of_total fuel m l :
  inv m → capacity m ≤ Z.of_nat fuel → (∀ it, it ∈ l → it ∈ all_items m) →
  items_of (getitem py_hash fuel m) (key <$> l) = Some (Ok (pair_of <$> l)).
Proof.
  intros Hinv Hf. induction l as [|it l IH]; intros Hl; [done|].
  rewrite fmap_cons. simpl.
  rewrite (getitem_total fuel m (key it) (value it)); try done.
  - simpl. rewrite IH; [done|]. intros it' Hit'. apply Hl, elem_of_cons. by right.
  - rewrite pair_of_eta. apply Hl, elem_of_cons. by left.
Qed.

Lemma items_total fuel m :
  inv m → capacity m ≤ Z.of_nat fuel →
  items py_hash fuel m = Some (Ok (pair_of <$> all_items m)).
Proof.
  intros Hinv Hf. unfold items. rewrite iter_items. by apply items_of_total.
Qed.

Lemma items_of_partial fuel m l old :
  inv m → (∀ it, it ∈ l → it ∈ all_items m) →
  items_of (getitem py_hash fuel m) (key <$> l) = Some (Ok old) →
  old = pair_of <$> l.
Proof.
  intros Hinv. revert old. induction l as [|it l IH]; intros old Hl.
  - simpl. by intros [= <-].
  - rewrite fmap_cons. simpl.
    intros (v & Hv & (r & Hr & [= <-])%fbind_Ok)%fbind_Ok.
    apply getitem_partial in Hv; [|done].
    assert (mkItem (key it) v = it) as Heq.
    { eapply NoDup_key_inj; [apply (inv_nodup _ Hinv)|done| |done].
      apply Hl, elem_of_cons. by left. }
    change (pair_of <$> it :: l) with (pair_of it :: (pair_of <$> l)). f_equal.
    + rewrite <- Heq. done.
    + apply IH; [|done]. intros it' Hit'. apply Hl, elem_of_cons. by right.
Qed.

Lemma items_partial fuel m old :
  inv m → items py_hash fuel m = Some (Ok old) →
  old = pair_of <$> all_items m.
Proof.
  intros Hinv. unfold items. rewrite iter_items. by apply items_of_partial.
Qed.

(** *** The load factor after [__setitem__] *)

Lemma setitem_S fuel m k v :
  setitem py_hash (S fuel) m k v =
  (j ←! Some (hash_function py_hash m k);
   m1 ←! bucket_setitem (S fuel) m j k v;
   if capacity m1 `div` 2 <? n m1
   then resize_with py_hash (setitem py_hash fuel) fuel m1 (2 * capacity m1 - 1)
   else Some (Ok m1)).
Proof. done. Qed.

Lemma resize_with_fresh set fuel m cap :
  resize_with py_hash set fuel m cap =
  (old ←! items py_hash fuel m; reinsert set old (fresh m cap)).
Proof. done. Qed.

Lemma reinsert_ind (Q : t B → Prop) set old m m' :
  (∀ m k v m', set m k v = Some (Ok m') → Q m') →
  Q m → reinsert set old m = Some (Ok m') → Q m'.
Proof.
  intros Hset. revert m. induction old as [|[k v] old IH]; intros m Hm; simpl.
  - by intros [= <-].
  - intros (m1 & Hm1 & Hrest)%fbind_Ok. eapply IH; [|done]. by eapply Hset.
Qed.

Lemma setitem_load fuel m k v m' :
  setitem py_hash fuel m k v = Some (Ok m') → 2 * n m' ≤ capacity m'.
Proof.
  revert m k v m'. induction fuel as [|fuel IH]; intros m k v m'; [done|].
  rewrite setitem_S. intros (j & _ & (m1 & _ & Hrest)%fbind_Ok)%fbind_Ok.
  destruct (Z.ltb_spec (capacity m1 `div` 2) (n m1)) as [Hlt|Hge].
  - unfold resize_with in Hrest. apply fbind_Ok in Hrest as (old & _ & Hloop).
    eapply (reinsert_ind (λ m, 2 * n m ≤ capacity m)); [|..|exact Hloop].
    + intros ????. apply IH.
    + simpl. unfold capacity. lia.
  - inversion Hrest; subst.
    pose proof (Z.mul_div_le (capacity m') 2). lia.
Qed.

(** *** Partial correctness of [__setitem__] and [__delitem__] *)

Lemma bucket_set_inv fuel m j k v m1 :
  inv m → hash_function py_hash m k = Ok j →
  bucket_setitem fuel m j k v = Some (Ok m1) →
  inv m1 ∧ all_items m1 ≡ₚ mkItem k v :: without k (all_items m) ∧
  capacity m1 = capacity m ∧ n m ≤ n m1 ≤ n m + 1 ∧ (P m → P m1).
Proof.
  intros Hinv Hj Hset.
  destruct (bucket_set_partial _ _ _ _ _ _ Hinv Hj Hset)
    as (HW & Hperm & Hn & Hcap & Hp & HP).
  pose proof Hinv as [_ Hnd Hlen Hc Hpr].
  split_and!; try done.
  - split; try done.
    + rewrite Hperm, fmap_cons. apply NoDup_cons. split.
      * apply without_keys.
      * by apply without_NoDup.
    + rewrite Hn, Hperm, Hlen. simpl. case_decide as Hk.
      * rewrite (without_length k (all_items m)); [lia|done|done].
      * rewrite without_absent by done. lia.
    + by rewrite Hcap.
    + by rewrite Hp.
  - case_decide; lia.
  - case_decide; lia.
Qed.

Lemma reinsert_partial set l m0 m' :
  (∀ m k v m', inv m → set m k v = Some (Ok m') →
     inv m' ∧ all_items m' ≡ₚ mkItem k v :: without k (all_items m) ∧
     capacity m ≤ capacity m' ∧ (P m → P m')) →
  inv m0 → NoDup (key <$> l) →
  (∀ k, k ∈ key <$> l → k ∉ key <$> all_items m0) →
  reinsert set (pair_of <$> l) m0 = Some (Ok m') →
  inv m' ∧ all_items m' ≡ₚ l ++ all_items m0 ∧
  capacity m0 ≤ capacity m' ∧ (P m0 → P m').
Proof.
  intros Hset. revert m0. induction l as [|it l IH]; intros m0 Hinv Hnd Hdisj.
  - simpl. intros [= <-]. split_and!; done.
  - rewrite fmap_cons in Hnd. apply NoDup_cons in Hnd as [Hit Hnd].
    rewrite fmap_cons. simpl. intros (m1 & Hm1 & Hrest)%fbind_Ok.
    destruct (Hset _ _ _ _ Hinv Hm1) as (Hinv1 & Hperm1 & Hcap1 & HP1).
    rewrite pair_of_eta in Hperm1.
    rewrite without_absent in Hperm1
      by (apply Hdisj; rewrite fmap_cons; apply elem_of_cons; by left).
    destruct (IH m1 Hinv1 Hnd) as (Hinv' & Hperm' & Hcap' & HP'); [|done|].
    + intros k Hk. rewrite Hperm1, fmap_cons, not_elem_of_cons. split.
      * intros ->. done.
      * apply Hdisj. rewrite fmap_cons. apply elem_of_cons. by right.
    + split_and!; [done| |lia|tauto].
      rewrite Hperm', Hperm1. simpl. by rewrite Permutation_middle.
Qed.

Lemma setitem_partial fuel m k v m' :
  inv m → setitem py_hash fuel m k v = Some (Ok m') →
  inv m' ∧ all_items m' ≡ₚ mkItem k v :: without k (all_items m) ∧
  capacity m ≤ capacity m' ∧ (P m → P m').
Proof.
  revert m k v m'. induction fuel as [|fuel IH]; intros m k v m' Hinv; [done|].
  rewrite setitem_S. intros (j & Hj & (m1 & Hm1 & Hrest)%fbind_Ok)%fbind_Ok.
  injection Hj as Hj.
  destruct (bucket_set_inv _ _ _ _ _ _ Hinv Hj Hm1)
    as (Hinv1 & Hperm1 & Hcap1 & Hn1 & HP1).
  destruct (Z.ltb_spec (capacity m1 `div` 2) (n m1)) as [Hlt|Hge].
  - unfold resize_with in Hrest. apply fbind_Ok in Hrest as (old & Hold & Hloop).
    apply items_partial in Hold; [|done]. subst old.
    pose proof (inv_cap _ Hinv1) as Hc1.
    assert (inv (fresh m1 (2 * capacity m1 - 1))) as Hfresh.
    { apply inv_fresh; [lia|]. apply (inv_prime _ Hinv1). }
    destruct (reinsert_partial _ _ _ m' IH Hfresh (inv_nodup _ Hinv1))
      as (Hinv' & Hperm' & Hcap' & HP').
    + intros k' _. rewrite all_items_fresh. by intros ?%elem_of_nil.
    + exact Hloop.
    + rewrite all_items_fresh, app_nil_r in Hperm'.
      rewrite capacity_fresh in Hcap' by lia.
      split_and!; [done|by rewrite Hperm'|lia|].
      intros _. apply HP', P_fresh.
  - inversion Hrest; subst. split_and!; [done|done|lia|done].
Qed.

Lemma delitem_partial fuel m k m' :
  inv m → delitem py_hash fuel m k = Some (Ok m') →
  inv m' ∧ all_items m' ≡ₚ without k (all_items m) ∧
  k ∈ key <$> all_items m ∧ capacity m' = capacity m ∧ n m' = n m - 1.
Proof.
  intros Hinv. unfold delitem.
  intros (j & Hj & (m1 & Hm1 & [= <-])%fbind_Ok)%fbind_Ok.
  injection Hj as Hj.
  destruct (bucket_del_partial _ _ _ _ _ Hinv Hj Hm1)
    as (HW & Hperm & Hk & Hn & Hcap & Hp).
  pose proof Hinv as [_ Hnd Hlen Hc Hpr].
  assert (all_items (set_n m1 (n m1 - 1)) = all_items m1) as Hall by done.
  split_and!; try done.
  - split.
    + by apply W_set_n.
    + rewrite Hall, Hperm. by apply without_NoDup.
    + rewrite Hall. simpl. rewrite Hn, Hperm, Hlen.
      rewrite (without_length k (all_items m)); [lia|done|done].
    + change (capacity (set_n m1 (n m1 - 1))) with (capacity m1). by rewrite Hcap.
    + simpl. by rewrite Hp.
  - simpl. by rewrite Hn.
Qed.

Lemma delitem_total fuel m k :
  inv m → capacity m ≤ Z.of_nat fuel → k ∈ key <$> all_items m →
  ∃ m', delitem py_hash fuel m k = Some (Ok m').
Proof.
  intros Hinv Hf Hk. unfold delitem.
  destruct (hash_ok m k Hinv) as (j & Hj & _). rewrite Hj. simpl.
  destruct (bucket_del_total fuel m j k) as [m1 ->]; try done.
  simpl. eauto.
Qed.

(** *** Reachable states *)

Lemma reachable_inv m : reachable py_hash m → inv m ∧ 2 * n m ≤ capacity m.
Proof.
  induction 1 as [cap p a b Hcap Hp Ha Hb|fuel m k v m' _ [IH _] Hset
                 |fuel m k m' _ [IH Hn] Hdel].
  - change (init cap p a b) with (fresh (mk [] 0 p a b) cap). split.
    + apply inv_fresh; simpl; lia.
    + rewrite capacity_fresh by lia. simpl. lia.
  - split; [by eapply setitem_partial|by eapply setitem_load].
  - destruct (delitem_partial _ _ _ _ IH Hdel) as (Hinv' & _ & _ & Hcap & Hn').
    split; [done|lia].
Qed.

(** *** [__setitem__] returns *)

Lemma setitem_noresize fuel m k v :
  inv m → P m → 2 * (n m + 1) ≤ capacity m → capacity m ≤ Z.of_nat fuel →
  ∃ m', setitem py_hash fuel m k v = Some (Ok m') ∧ inv m' ∧ P m' ∧
        capacity m' = capacity m ∧ n m' ≤ n m + 1.
Proof.
  intros Hinv HP Hn Hf. pose proof (inv_cap _ Hinv) as Hcap.
  pose proof (inv_n _ Hinv) as Hlen.
  destruct fuel as [|fuel]; [lia|].
  destruct (hash_ok m k Hinv) as (j & Hj & _).
  destruct (bucket_set_total (S fuel) m j k v) as [m1 Hm1]; try done; [lia|].
  destruct (bucket_set_inv _ _ _ _ _ _ Hinv Hj Hm1)
    as (Hinv1 & _ & Hcap1 & Hn1 & HP1).
  exists m1. rewrite setitem_S, Hj. simpl. rewrite Hm1. simpl.
  destruct (Z.ltb_spec (capacity m1 `div` 2) (n m1)) as [Hlt|Hge].
  - exfalso. assert (n m + 1 ≤ capacity m1 `div` 2); [|lia].
    apply Z.div_le_lower_bound; lia.
  - split_and!; auto; lia.
Qed.

Lemma reinsert_noresize fuel old m :
  inv m → P m → 2 * (n m + Z.of_nat (length old)) ≤ capacity m →
  capacity m ≤ Z.of_nat fuel →
  ∃ m', reinsert (setitem py_hash fuel) old m = Some (Ok m').
Proof.
  revert m. induction old as [|[k v] old IH]; intros m Hinv HP Hn Hf.
  - simpl. eauto.
  - simpl in Hn. destruct (setitem_noresize fuel m k v)
      as (m1 & Hm1 & Hinv1 & HP1 & Hcap1 & Hn1); try done; [lia|].
    simpl. rewrite Hm1. simpl. apply IH; try done; lia.
Qed.

Lemma resize_total_3 f m1 :
  inv m1 → 3 ≤ capacity m1 → n m1 ≤ capacity m1 `div` 2 + 1 →
  2 * capacity m1 - 1 ≤ Z.of_nat f →
  ∃ m', resize_with py_hash (setitem py_hash f) f m1 (2 * capacity m1 - 1)
        = Some (Ok m').
Proof.
  intros Hinv Hcap Hn Hf. rewrite resize_with_fresh.
  rewrite items_total by (done || lia). simpl.
  apply reinsert_noresize.
  - apply inv_fresh; [lia|]. apply (inv_prime _ Hinv).
  - apply P_fresh.
  - rewrite capacity_fresh by lia. rewrite length_fmap, <- (inv_n _ Hinv). simpl.
    pose proof (Z.mul_div_le (capacity m1) 2). lia.
  - rewrite capacity_fresh by lia. done.
Qed.

Lemma setitem_total_3 fuel m k v :
  inv m → P m → 3 ≤ capacity m → 2 * n m ≤ capacity m →
  2 * capacity m ≤ Z.of_nat fuel →
  ∃ m', setitem py_hash fuel m k v = Some (Ok m').
Proof.
  intros Hinv HP Hcap Hn Hf. pose proof (inv_n _ Hinv) as Hlen.
  destruct fuel as [|fuel]; [lia|].
  destruct (hash_ok m k Hinv) as (j & Hj & _).
  destruct (bucket_set_total (S fuel) m j k v) as [m1 Hm1]; try done; try lia.
  destruct (bucket_set_inv _ _ _ _ _ _ Hinv Hj Hm1)
    as (Hinv1 & _ & Hcap1 & Hn1 & HP1).
  rewrite setitem_S, Hj. simpl. rewrite Hm1. simpl.
  destruct (Z.ltb_spec (capacity m1 `div` 2) (n m1)) as [Hlt|Hge]; [|eauto].
  apply resize_total_3; try done; try lia.
  assert (n m ≤ capacity m1 `div` 2); [|lia].
  apply Z.div_le_lower_bound; lia.
Qed.

(** Once the bucket-level insertion has returned, the rest of
    [__setitem__], a resize included, returns. *)
Lemma setitem_total_after fuel m j k v m1 :
  inv m → 2 * n m ≤ capacity m → 4 * capacity m ≤ Z.of_nat fuel →
  hash_function py_hash m k = Ok j →
  bucket_setitem fuel m j k v = Some (Ok m1) →
  ∃ m', setitem py_hash fuel m k v = Some (Ok m').
Proof.
  intros Hinv Hn Hf Hj Hm1. pose proof (inv_cap _ Hinv) as Hcap.
  destruct fuel as [|fuel]; [lia|].
  destruct (bucket_set_inv _ _ _ _ _ _ Hinv Hj Hm1)
    as (Hinv1 & _ & Hcap1 & Hn1 & HP1).
  rewrite setitem_S, Hj. simpl. rewrite Hm1. simpl.
  destruct (Z.ltb_spec (capacity m1 `div` 2) (n m1)) as [Hlt|Hge]; [|eauto].
  assert (n m ≤ capacity m1 `div` 2) as Hhalf
    by (apply Z.div_le_lower_bound; lia).
  destruct (Z.le_gt_cases 3 (capacity m)) as [H3|H2].
  - apply resize_total_3; try done; lia.
  - assert (capacity m1 = 2) as Hc2 by lia.
    rewrite resize_with_fresh, items_total by (done || lia). simpl.
    rewrite Hc2. change (2 * 2 - 1) with 3.
    assert (inv (fresh m1 3)) as Hfresh
      by (apply inv_fresh; [lia|apply (inv_prime _ Hinv1)]).
    assert (n m1 ≤ 2) as Hn2.
    { rewrite Hc2 in Hhalf. change (2 `div` 2) with 1 in Hhalf. lia. }
    rewrite (inv_n _ Hinv1) in Hn2.
    assert (capacity (fresh m1 3) = 3) as Hcf by (by rewrite capacity_fresh by lia).
    assert (n (fresh m1 3) = 0) as Hnf by done.
    pose proof (P_fresh m1 3) as HPf.
    destruct (all_items m1) as [|a [|b [|c l]]]; simpl in Hn2; [..|lia].
    + simpl. eauto.
    + destruct (setitem_noresize fuel (fresh m1 3) (key a) (value a) Hfresh HPf)
        as (ma & Hma & _); [rewrite Hcf, Hnf; lia|rewrite Hcf; lia|].
      simpl. rewrite Hma. simpl. eauto.
    + destruct (setitem_noresize fuel (fresh m1 3) (key a) (value a) Hfresh HPf)
        as (ma & Hma & Hinva & HPa & Hcapa & Hna);
        [rewrite Hcf, Hnf; lia|rewrite Hcf; lia|].
      rewrite Hcf in Hcapa. rewrite Hnf in Hna.
      destruct (setitem_total_3 fuel ma (key b) (value b) Hinva HPa) as [mb Hmb];
        [lia|lia|lia|].
      simpl. rewrite Hma. simpl.
      rewrite Hmb. simpl. eauto.
Qed.

Lemma setitem_total fuel m k v :
  inv m → P m → 2 * n m ≤ capacity m → 4 * capacity m ≤ Z.of_nat fuel →
  ∃ m', setitem py_hash fuel m k v = Some (Ok m').
Proof.
  intros Hinv HP Hn Hf. pose proof (inv_cap _ Hinv) as Hcap.
  pose proof (inv_n _ Hinv) as Hlen.
  destruct (hash_ok m k Hinv) as (j & Hj & _).
  destruct (bucket_set_total fuel m j k v) as [m1 Hm1]; try done; try lia.
  by eapply setitem_total_after.
Qed.

End hash_generic.

(** ** ChainHashMap *)

Section chain.
Import HashMapBase.
Context (py_hash : Z → Z).

Definition chain_items (c : option (list Item)) : list Item := default [] c.

(** Every item sits in the bucket its key hashes to. *)
Definition chain_wf (m : t (option (list Item))) : Prop :=
  ∀ (i : nat) b it, table m !! i = Some (Some b) → it ∈ b →
    hash_function py_hash m (key it) = Ok (Z.of_nat i).

Definition chain_any (m : t (option (list Item))) : Prop := True.

Definition chain_inv : t (option (list Item)) → Prop :=
  inv chain_items chain_wf.

Lemma chain_iter_items m :
  ChainHashMap.iter m = key <$> all_items chain_items m.
Proof.
  unfold ChainHashMap.iter, all_items.
  induction (table m) as [|c l IH]; [done|].
  rewrite !bind_cons, fmap_app, IH. by destruct c.
Qed.

(** The home bucket of a key holds every item of that key. *)
Lemma chain_home m j k it :
  chain_wf m → hash_function py_hash m k = Ok j →
  it ∈ all_items chain_items m → key it = k →
  ∃ b, table m !! Z.to_nat j = Some (Some b) ∧ it ∈ b.
Proof.
  intros HW Hj Hit Hk. apply elem_of_all_items in Hit as (i & c & Hi & Hit).
  destruct c as [b|]; [|by apply elem_of_nil in Hit]. simpl in Hit.
  pose proof (HW _ _ _ Hi Hit) as Hh. rewrite Hk, Hj in Hh.
  injection Hh as ->. rewrite Nat2Z.id. eauto.
Qed.

Lemma chain_bucket_NoDup m (i : nat) c :
  NoDup (key <$> all_items chain_items m) → table m !! i = Some c →
  NoDup (key <$> chain_items c).
Proof.
  intros Hnd Hi. rewrite (all_items_lookup _ _ _ _ Hi), !fmap_app in Hnd.
  apply NoDup_app in Hnd as (_ & _ & Hnd). by apply NoDup_app in Hnd as (? & _).
Qed.

(** The other buckets hold no item of a key whose home is [j]. *)
Lemma chain_others m (j : nat) k l :
  chain_wf m → hash_function py_hash m k = Ok (Z.of_nat j) →
  (∀ (i : nat) c, l !! i = Some c → ∃ i' : nat, i' ≠ j ∧ table m !! i' = Some c) →
  without k (l ≫= chain_items) = l ≫= chain_items.
Proof.
  intros HW Hj Hl. apply without_absent.
  intros (it & -> & Hit)%list_elem_of_fmap.
  apply list_elem_of_bind in Hit as (c & Hit & Hc).
  apply list_elem_of_lookup in Hc as [i Hi].
  destruct (Hl _ _ Hi) as (i' & Hne & Hi').
  destruct c as [b|]; [|by apply elem_of_nil in Hit]. simpl in Hit.
  pose proof (HW _ _ _ Hi' Hit) as Hh. rewrite Hj in Hh.
  injection Hh as Hh. lia.
Qed.

Lemma chain_without m (j : nat) c k :
  chain_wf m → hash_function py_hash m k = Ok (Z.of_nat j) →
  table m !! j = Some c →
  without k (all_items chain_items m) =
  (take j (table m) ≫= chain_items) ++ without k (chain_items c) ++
  (drop (S j) (table m) ≫= chain_items).
Proof.
  intros HW Hj Hc. rewrite (all_items_lookup _ _ _ _ Hc).
  rewrite !without_app.
  rewrite (chain_others m j k (take j (table m))); [|done|done|].
  - rewrite (chain_others m j k (drop (S j) (table m))); [done|done|done|].
    intros i c' Hi. rewrite lookup_drop in Hi. exists (S j + i)%nat.
    split; [lia|done].
  - intros i c' Hi. apply lookup_take_Some in Hi as [Hi Hlt].
    exists i. split; [lia|done].
Qed.

Lemma chain_keys_home m (j : nat) c k :
  chain_wf m → hash_function py_hash m k = Ok (Z.of_nat j) →
  table m !! j = Some c →
  k ∈ key <$> all_items chain_items m ↔ k ∈ key <$> chain_items c.
Proof.
  intros HW Hj Hc. split.
  - intros (it & -> & Hit)%list_elem_of_fmap.
    destruct (chain_home m _ _ it HW Hj Hit eq_refl) as (b & Hb & Hin).
    rewrite Nat2Z.id, Hc in Hb. injection Hb as ->.
    apply list_elem_of_fmap. eauto.
  - intros (it & -> & Hit)%list_elem_of_fmap.
    apply list_elem_of_fmap. exists it. split; [done|].
    apply elem_of_all_items. eauto.
Qed.

Lemma chain_wf_insert m (j : nat) c b' :
  chain_wf m → table m !! j = Some c →
  (∀ it, it ∈ b' → it ∈ chain_items c ∨
                   hash_function py_hash m (key it) = Ok (Z.of_nat j)) →
  chain_wf (set_table m (<[j := Some b']> (table m))).
Proof.
  intros HW Hc Hb' i b it Hi Hit.
  rewrite hash_function_set_table by apply length_insert. simpl in Hi.
  destruct (decide (i = j)) as [->|Hne].
  - rewrite list_lookup_insert_eq in Hi by (by eapply lookup_lt_Some).
    injection Hi as <-. destruct (Hb' _ Hit) as [Hin|Hh]; [|done].
    destruct c as [b0|]; [|by apply elem_of_nil in Hin]. by eapply HW.
  - rewrite list_lookup_insert_ne in Hi by done. by eapply HW.
Qed.

#[global] Instance chain_laws : BucketLaws py_hash chain_items chain_wf chain_any.
Proof.
  split.
  - done.
  - apply chain_iter_items.
  - intros m cap i b it Hi. simpl in Hi.
    apply lookup_replicate in Hi as [? _]. done.
  - intros m x HW. exact HW.
  - done.
  - (* bucket_get_total *)
    intros fuel m j k v Hinv Hj _ Hin. simpl. f_equal.
    unfold ChainHashMap.bucket_getitem.
    destruct (chain_home m j k _ (inv_wf _ _ _ Hinv) Hj Hin eq_refl) as (b & Hb & Hinb).
    pose proof (hash_range _ _ _ _ Hj) as Hr.
    rewrite <- (Z2Nat.id j) at 1 by lia.
    rewrite (list_get_lookup _ _ _ Hb). simpl.
    apply getitem_elem; [|done].
    apply (chain_bucket_NoDup m _ (Some b) (inv_nodup _ _ _ Hinv) Hb).
  - (* bucket_get_partial *)
    intros fuel m j k v Hinv Hj. simpl. intros [= Hget].
    unfold ChainHashMap.bucket_getitem in Hget.
    pose proof (hash_range _ _ _ _ Hj) as Hr.
    destruct (list_get (table m) j) as [c|] eqn:Hc; simpl in Hget; [|done].
    apply list_get_Ok_inv in Hc; [|lia].
    destruct c as [b|]; [|done]. apply getitem_Ok_elem in Hget.
    apply elem_of_all_items. eauto.
  - (* bucket_set_partial *)
    intros fuel m j k v m1 Hinv Hj. simpl. intros [= Hset].
    unfold ChainHashMap.bucket_setitem in Hset.
    pose proof (hash_range _ _ _ _ Hj) as Hr.
    destruct (list_get (table m) j) as [c|] eqn:Hc; simpl in Hset; [|done].
    apply list_get_Ok_inv in Hc; [|lia].
    rewrite list_set_Ok in Hset by (unfold capacity in Hr; lia). simpl in Hset.
    set (b := match c with Some b => b | None => UnsortedListMap.init end) in *.
    assert (chain_items c = b) as Hb by (by destruct c).
    set (b' := UnsortedListMap.setitem b k v) in *.
    set (m' := set_table m (<[Z.to_nat j:=Some b']> (table m))) in *.
    pose proof (inv_wf _ _ _ Hinv) as HW.
    pose proof (inv_nodup _ _ _ Hinv) as Hnd.
    pose proof (chain_bucket_NoDup m _ c Hnd Hc) as Hndb. rewrite Hb in Hndb.
    rewrite <- (Z2Nat.id j) in Hj by lia.
    assert (chain_wf m') as HW'.
    { apply (chain_wf_insert m _ c b' HW Hc). intros it Hit.
      unfold b' in Hit. rewrite (setitem_perm _ _ _ Hndb) in Hit.
      apply elem_of_cons in Hit as [->|Hit]; [by right|].
      left. rewrite Hb. by apply elem_of_without in Hit as [? _]. }
    assert (all_items chain_items m' ≡ₚ
            mkItem k v :: without k (all_items chain_items m)) as Hperm.
    { unfold m'. rewrite (all_items_insert _ _ _ c (Some b') Hc).
      rewrite (chain_without m _ c k HW Hj Hc), Hb. simpl.
      unfold b'. rewrite (setitem_perm _ _ _ Hndb).
      rewrite <- app_comm_cons. symmetry. apply Permutation_middle. }
    assert (capacity m' = capacity m) as Hcap.
    { unfold capacity, m'. simpl. by rewrite length_insert. }
    assert ((UnsortedListMap.len b <? UnsortedListMap.len b')%nat =
            bool_decide (k ∉ key <$> all_items chain_items m)) as Hlen.
    { unfold UnsortedListMap.len, b'. rewrite setitem_length.
      pose proof (chain_keys_home m _ c k HW Hj Hc) as Hiff. rewrite Hb in Hiff.
      case_decide as Hk.
      - rewrite bool_decide_eq_false_2 by tauto. apply Nat.ltb_irrefl.
      - rewrite bool_decide_eq_true_2 by tauto. apply Nat.ltb_lt. lia. }
    rewrite Hlen in Hset. case_bool_decide as Hk; injection Hset as <-.
    + rewrite decide_False by done. split_and!; done.
    + rewrite decide_True by done.
      split_and!; try done. simpl. lia.
  - (* bucket_set_total *)
    intros fuel m j k v Hinv _ _ Hj _. simpl.
    unfold ChainHashMap.bucket_setitem.
    pose proof (hash_range _ _ _ _ Hj) as Hr.
    destruct (list_get_in_range (table m) j) as (c & _ & ->);
      [unfold capacity in Hr; lia|]. simpl.
    rewrite list_set_Ok by (unfold capacity in Hr; lia). simpl.
    destruct (_ <? _)%nat; eauto.
  - (* bucket_del_partial *)
    intros fuel m j k m1 Hinv Hj. simpl. intros [= Hdel].
    unfold ChainHashMap.bucket_delitem in Hdel.
    pose proof (hash_range _ _ _ _ Hj) as Hr.
    destruct (list_get (table m) j) as [c|] eqn:Hc; simpl in Hdel; [|done].
    apply list_get_Ok_inv in Hc; [|lia].
    destruct c as [b|]; [|done].
    destruct (UnsortedListMap.delitem b k) as [b'|] eqn:Hb'; simpl in Hdel; [|done].
    rewrite list_set_Ok in Hdel by (unfold capacity in Hr; lia). simpl in Hdel.
    injection Hdel as <-.
    pose proof (inv_wf _ _ _ Hinv) as HW.
    pose proof (inv_nodup _ _ _ Hinv) as Hnd.
    pose proof (chain_bucket_NoDup m _ _ Hnd Hc) as Hndb. simpl in Hndb.
    apply delitem_Ok in Hb' as [-> Hk]; [|done].
    rewrite <- (Z2Nat.id j) in Hj by lia.
    split_and!; try done.
    + apply (chain_wf_insert m _ (Some b) _ HW Hc). intros it Hit.
      left. simpl. by apply elem_of_without in Hit as [? _].
    + rewrite (all_items_insert _ _ _ _ _ Hc).
      by rewrite (chain_without m _ _ k HW Hj Hc).
    + by apply (chain_keys_home m _ _ k HW Hj Hc).
    + unfold capacity. simpl. by rewrite length_insert.
  - (* bucket_del_total *)
    intros fuel m j k Hinv Hj _ Hk. simpl.
    unfold ChainHashMap.bucket_delitem.
    pose proof (hash_range _ _ _ _ Hj) as Hr.
    pose proof (inv_wf _ _ _ Hinv) as HW.
    destruct (list_get_in_range (table m) j) as (c & Hc & ->);
      [unfold capacity in Hr; lia|]. simpl.
    rewrite <- (Z2Nat.id j) in Hj by lia.
    apply (chain_keys_home m _ _ k HW Hj Hc) in Hk.
    destruct c as [b|]; [|by apply elem_of_nil in Hk]. simpl in Hk.
    destruct (delitem_present _ _ Hk) as [b' ->]. simpl.
    rewrite list_set_Ok by (unfold capacity in Hr; lia). simpl. eauto.
Qed.

End chain.

(** ** ProbeHashMap *)

Section probe.
Import HashMapBase ProbeHashMap.
Context (py_hash : Z → Z).

Definition probe_items (c : slot) : list Item :=
  match c with Full it => [it] | _ => [] end.

(** The cell that the probe sequence visits at position [j], modulo the
    capacity. *)
Definition cell_at (m : t slot) (j : Z) : option slot :=
  table m !! Z.to_nat (j `mod` capacity m).

(** Every item is reached from the home cell of its key before any empty
    cell. *)
Definition probe_wf (m : t slot) : Prop :=
  ∀ (i : nat) it, table m !! i = Some (Full it) →
    ∃ h, hash_function py_hash m (key it) = Ok h ∧
         ∀ d, 0 ≤ d < (Z.of_nat i - h) `mod` capacity m →
              cell_at m (h + d) ≠ Some Empty.

(** No cell holds the sentinel: nothing was deleted since the table was
    allocated. *)
Definition probe_clean (m : t slot) : Prop := Avail ∉ table m.

(** The first [D] probes from [h] met neither an empty cell nor [k]. *)
Definition path_ok (m : t slot) (h k D : Z) : Prop :=
  ∀ d, 0 ≤ d < D →
    ∃ c, cell_at m (h + d) = Some c ∧ c ≠ Empty ∧
         ∀ it, c = Full it → key it ≠ k.

Lemma cell_at_get m j :
  0 < capacity m →
  ∃ c, cell_at m j = Some c ∧ list_get (table m) (j `mod` capacity m) = Ok c.
Proof.
  intros Hcap. pose proof (Z.mod_pos_bound j (capacity m) Hcap) as Hr.
  destruct (list_get_in_range (table m) (j `mod` capacity m)) as (c & Hc & Hget).
  { unfold capacity in *. lia. }
  exists c. split; [exact Hc|exact Hget].
Qed.

Lemma cell_at_index m (i : nat) h :
  (i < length (table m))%nat →
  cell_at m (h + (Z.of_nat i - h) `mod` capacity m) = table m !! i.
Proof.
  intros Hi. unfold cell_at.
  rewrite Z.add_mod_idemp_r by (unfold capacity; lia).
  replace (h + (Z.of_nat i - h)) with (Z.of_nat i) by lia.
  rewrite Z.mod_small by (unfold capacity; lia). by rewrite Nat2Z.id.
Qed.

Lemma find_slot_loop_S fuel m j k fa c :
  list_get (table m) j = Ok c →
  find_slot_loop (S fuel) m j k fa =
  match c with
  | Empty => Some (Ok (false, default j fa))
  | Avail => find_slot_loop fuel m ((j + 1) `mod` capacity m) k
               (Some (default j fa))
  | Full it =>
      if k =? key it then Some (Ok (true, j))
      else find_slot_loop fuel m ((j + 1) `mod` capacity m) k fa
  end.
Proof.
  intros Hc. simpl. unfold is_available. rewrite Hc. simpl.
  destruct c, fa; done.
Qed.

Lemma next_position (m : t slot) h d :
  0 < capacity m →
  ((h + d) `mod` capacity m + 1) `mod` capacity m = (h + (d + 1)) `mod` capacity m.
Proof.
  intros Hcap. rewrite Z.add_mod_idemp_l by lia. f_equal. lia.
Qed.

Lemma path_ok_S m h k D c :
  0 ≤ D → path_ok m h k D → cell_at m (h + D) = Some c → c ≠ Empty →
  (∀ it, c = Full it → key it ≠ k) → path_ok m h k (D + 1).
Proof.
  intros HD Hpath Hc Hne Hk d Hd.
  destruct (decide (d = D)) as [->|Hneq]; [eauto|]. apply Hpath. lia.
Qed.

(** What [_find_slot] has established when it returns. *)
Lemma find_slot_loop_partial m h k fuel :
  0 < capacity m →
  ∀ d fa found s, 0 ≤ d → path_ok m h k d →
    (∀ a, fa = Some a →
       ∃ da, 0 ≤ da < d ∧ a = (h + da) `mod` capacity m ∧
             cell_at m (h + da) = Some Avail) →
    find_slot_loop fuel m ((h + d) `mod` capacity m) k fa = Some (Ok (found, s)) →
    0 ≤ s < capacity m ∧
    if found then ∃ it, table m !! Z.to_nat s = Some (Full it) ∧ key it = k
    else ∃ D ds, 0 ≤ D ∧ path_ok m h k D ∧ cell_at m (h + D) = Some Empty ∧
                 0 ≤ ds ≤ D ∧ s = (h + ds) `mod` capacity m ∧
                 (cell_at m (h + ds) = Some Avail ∨ ds = D).
Proof.
  intros Hcap. induction fuel as [|fuel IH]; intros d fa found s Hd Hpath Hfa; [done|].
  destruct (cell_at_get m (h + d) Hcap) as (c & Hc & Hget).
  pose proof (Z.mod_pos_bound (h + d) (capacity m) Hcap) as Hr.
  rewrite (find_slot_loop_S _ _ _ _ _ _ Hget).
  destruct c as [| |it].
  - intros [= <- <-]. destruct fa as [a|]; simpl.
    + destruct (Hfa a eq_refl) as (da & Hda & -> & Hav).
      split; [apply Z.mod_pos_bound; lia|].
      exists d, da. split_and!; try done; try lia; by left.
    + split; [done|]. exists d, d. split_and!; try done; try lia; by right.
  - rewrite next_position by done. intros Hloop.
    apply IH in Hloop; [done|lia| |].
    + by apply (path_ok_S m h k d Avail).
    + intros a [= <-]. destruct fa as [a|]; simpl.
      * destruct (Hfa a eq_refl) as (da & Hda & -> & Hav).
        exists da. split_and!; try done; lia.
      * exists d. split_and!; try done; lia.
  - destruct (Z.eqb_spec k (key it)) as [->|Hne].
    + intros [= <- <-]. split; [done|]. by exists it.
    + rewrite next_position by done. intros Hloop.
      apply IH in Hloop; [done|lia| |].
      * apply (path_ok_S m h k d (Full it)); try done.
        intros it' [= <-]. done.
      * intros a Ha. destruct (Hfa a Ha) as (da & Hda & -> & Hav).
        exists da. split_and!; try done; lia.
Qed.

(** [_find_slot] returns when the probe sequence meets an empty cell or
    the key. *)
Lemma find_slot_loop_total m h k D :
  0 < capacity m → 0 ≤ D →
  (cell_at m (h + D) = Some Empty ∨
   ∃ it, cell_at m (h + D) = Some (Full it) ∧ key it = k) →
  ∀ fuel d fa, 0 ≤ d ≤ D → D - d < Z.of_nat fuel →
    ∃ r, find_slot_loop fuel m ((h + d) `mod` capacity m) k fa = Some (Ok r).
Proof.
  intros Hcap HD Hstop. induction fuel as [|fuel IH]; intros d fa Hd Hf; [lia|].
  destruct (cell_at_get m (h + d) Hcap) as (c & Hc & Hget).
  rewrite (find_slot_loop_S _ _ _ _ _ _ Hget).
  assert (d = D ∨ d < D) as [->|Hlt] by lia.
  - destruct Hstop as [He|(it & Hit & Hk)].
    + rewrite He in Hc. injection Hc as <-. eauto.
    + rewrite Hit in Hc. injection Hc as <-. rewrite Hk, Z.eqb_refl. eauto.
  - destruct c as [| |it]; [eauto| |].
    + rewrite next_position by done. apply IH; lia.
    + destruct (k =? key it); [eauto|].
      rewrite next_position by done. apply IH; lia.
Qed.

(** A table without an empty cell and without the key: the loop never
    returns. *)
Lemma find_slot_loop_diverges m k :
  Forall (λ c, c ≠ Empty ∧ ∀ it, c = Full it → key it ≠ k) (table m) →
  ∀ fuel j fa, 0 ≤ j < capacity m → find_slot_loop fuel m j k fa = None.
Proof.
  intros Hall. induction fuel as [|fuel IH]; intros j fa Hj; [done|].
  destruct (list_get_in_range (table m) j) as (c & Hc & Hget);
    [unfold capacity in Hj; lia|].
  rewrite (find_slot_loop_S _ _ _ _ _ _ Hget).
  rewrite Forall_lookup in Hall. destruct (Hall _ _ Hc) as [Hne Hk].
  assert (0 ≤ (j + 1) `mod` capacity m < capacity m)
    by (apply Z.mod_pos_bound; lia).
  destruct c as [| |it]; [done|by apply IH|].
  destruct (Z.eqb_spec k (key it)) as [->|_]; [|by apply IH].
  by destruct (Hk it eq_refl).
Qed.

Lemma probe_iter_items m :
  ProbeHashMap.iter m = key <$> all_items probe_items m.
Proof.
  unfold ProbeHashMap.iter, all_items.
  induction (table m) as [|c l IH]; [done|].
  rewrite bind_cons, fmap_app, <- IH. by destruct c.
Qed.

Lemma find_slot_home fuel (m : t slot) h k :
  0 ≤ h < capacity m →
  find_slot fuel m h k = find_slot_loop fuel m ((h + 0) `mod` capacity m) k None.
Proof.
  intros Hh. unfold find_slot. by rewrite Z.add_0_r, Z.mod_small.
Qed.

Lemma probe_absent m h k D :
  probe_wf m → hash_function py_hash m k = Ok h → 0 ≤ D →
  path_ok m h k D → cell_at m (h + D) = Some Empty →
  k ∉ key <$> all_items probe_items m.
Proof.
  intros HW Hh HD Hpath HE (it & -> & Hit)%list_elem_of_fmap.
  apply elem_of_all_items in Hit as (i & c & Hi & Hit).
  destruct c as [| |it']; simpl in Hit; try by apply elem_of_nil in Hit.
  apply list_elem_of_singleton in Hit as <-.
  destruct (HW _ _ Hi) as (h' & Hh' & Hpath'). rewrite Hh in Hh'.
  injection Hh' as <-.
  pose proof (lookup_lt_Some _ _ _ Hi) as Hlt.
  pose proof (cell_at_index m i h Hlt) as Hcell. rewrite Hi in Hcell.
  set (Di := (Z.of_nat i - h) `mod` capacity m) in *.
  assert (0 ≤ Di) by (apply Z.mod_pos_bound; unfold capacity; lia).
  destruct (Z.lt_trichotomy Di D) as [Hlt'|[Heq|Hgt]].
  - destruct (Hpath Di) as (c & Hc & _ & Hk); [lia|].
    rewrite Hcell in Hc. injection Hc as <-. by apply (Hk it).
  - rewrite Heq in Hcell. rewrite Hcell in HE. done.
  - apply (Hpath' D); [lia|done].
Qed.

(** [_find_slot] as the bucket methods use it. *)
Lemma find_slot_result fuel m h k found s :
  probe_wf m → hash_function py_hash m k = Ok h →
  find_slot fuel m h k = Some (Ok (found, s)) →
  0 ≤ s < capacity m ∧
  if found then ∃ it, table m !! Z.to_nat s = Some (Full it) ∧ key it = k
  else (k ∉ key <$> all_items probe_items m) ∧
       (table m !! Z.to_nat s = Some Avail ∨ table m !! Z.to_nat s = Some Empty) ∧
       ∀ d, 0 ≤ d < (s - h) `mod` capacity m → cell_at m (h + d) ≠ Some Empty.
Proof.
  intros HW Hh Hfind. pose proof (hash_range _ _ _ _ Hh) as Hr.
  assert (0 < capacity m) as Hcap by lia.
  rewrite find_slot_home in Hfind by done.
  apply find_slot_loop_partial in Hfind as [Hs Hres]; try done.
  - split; [done|]. destruct found; [done|].
    destruct Hres as (D & ds & HD & Hpath & HE & Hds & -> & Hav).
    split_and!.
    + by eapply probe_absent.
    + destruct Hav as [Hav| ->]; [by left|by right].
    + intros d Hd. rewrite Zminus_mod_idemp_l in Hd.
      replace (h + ds - h) with ds in Hd by lia.
      pose proof (Z.mod_le ds (capacity m)).
      destruct (Hpath d) as (c & -> & Hne & _); [lia|]. by intros [= ->].
  - intros d Hd. lia.
Qed.

Lemma find_slot_present fuel m h k it :
  inv probe_items probe_wf m → hash_function py_hash m k = Ok h →
  it ∈ all_items probe_items m → key it = k →
  capacity m ≤ Z.of_nat fuel →
  ∃ s, find_slot fuel m h k = Some (Ok (true, s)) ∧ 0 ≤ s < capacity m ∧
       table m !! Z.to_nat s = Some (Full it).
Proof.
  intros Hinv Hh Hit Hk Hf. pose proof (hash_range _ _ _ _ Hh) as Hr.
  assert (0 < capacity m) as Hcap by lia.
  pose proof (inv_wf _ _ _ Hinv) as HW.
  pose proof Hit as Hit'.
  apply elem_of_all_items in Hit' as (i & c & Hi & Hin).
  destruct c as [| |it']; simpl in Hin; try by apply elem_of_nil in Hin.
  apply list_elem_of_singleton in Hin as <-.
  pose proof (lookup_lt_Some _ _ _ Hi) as Hlt.
  pose proof (cell_at_index m i h Hlt) as Hcell. rewrite Hi in Hcell.
  pose proof (Z.mod_pos_bound (Z.of_nat i - h) (capacity m) Hcap) as HD.
  destruct (find_slot_loop_total m h k _ Hcap (proj1 HD)
              (or_intror (ex_intro _ it (conj Hcell Hk))) fuel 0 None)
    as [[found s] Hfind]; [lia|lia|].
  rewrite <- find_slot_home in Hfind by done.
  destruct (find_slot_result _ _ _ _ _ _ HW Hh Hfind) as [Hs Hres].
  destruct found.
  - exists s. split_and!; try done; try lia.
    destruct Hres as (it0 & Hit0 & Hk0). rewrite Hit0. do 2 f_equal.
    eapply NoDup_key_inj; [apply (inv_nodup _ _ _ Hinv)| |done|congruence].
    apply elem_of_all_items. exists (Z.to_nat s), (Full it0).
    split; [done|]. by apply list_elem_of_singleton.
  - destruct Hres as [Habs _]. exfalso. apply Habs.
    apply list_elem_of_fmap. eauto.
Qed.

Lemma find_slot_empty fuel m h k :
  0 ≤ h < capacity m → Empty ∈ table m → capacity m ≤ Z.of_nat fuel →
  ∃ r, find_slot fuel m h k = Some (Ok r).
Proof.
  intros Hr [e He]%list_elem_of_lookup Hf.
  assert (0 < capacity m) as Hcap by lia.
  pose proof (lookup_lt_Some _ _ _ He) as Hlt.
  pose proof (cell_at_index m e h Hlt) as Hcell. rewrite He in Hcell.
  pose proof (Z.mod_pos_bound (Z.of_nat e - h) (capacity m) Hcap) as HD.
  rewrite find_slot_home by done.
  apply (find_slot_loop_total m h k _ Hcap (proj1 HD) (or_introl Hcell)); lia.
Qed.

Lemma probe_not_full (l : list slot) :
  (length (l ≫= probe_items) < length l)%nat →
  ∃ c, c ∈ l ∧ ∀ it, c ≠ Full it.
Proof.
  induction l as [|c l IH]; [simpl; lia|].
  rewrite bind_cons, length_app. intros Hlen.
  destruct c as [| |it].
  - exists Empty. split; [apply elem_of_cons; by left|done].
  - exists Avail. split; [apply elem_of_cons; by left|done].
  - simpl in Hlen. destruct IH as (c & Hc & Hne); [lia|].
    exists c. split; [apply elem_of_cons; by right|done].
Qed.

Lemma probe_has_empty m :
  inv probe_items probe_wf m → probe_clean m → n m < capacity m →
  Empty ∈ table m.
Proof.
  intros Hinv Hclean Hn. rewrite (inv_n _ _ _ Hinv) in Hn.
  destruct (probe_not_full (table m)) as (c & Hc & Hne).
  { unfold all_items, capacity in Hn. lia. }
  destruct c as [| |it]; [done|done|by destruct (Hne it)].
Qed.

Lemma probe_wf_update m s c :
  probe_wf m → 0 ≤ s < capacity m → c ≠ Empty →
  (∀ it, c = Full it →
     (∃ it0, table m !! Z.to_nat s = Some (Full it0) ∧ key it0 = key it) ∨
     (∃ h, hash_function py_hash m (key it) = Ok h ∧
           ∀ d, 0 ≤ d < (s - h) `mod` capacity m →
                cell_at m (h + d) ≠ Some Empty)) →
  probe_wf (set_table m (<[Z.to_nat s := c]> (table m))).
Proof.
  intros HW Hs Hne Hc i it Hi. simpl in Hi.
  rewrite hash_function_set_table by apply length_insert.
  set (m' := set_table m (<[Z.to_nat s := c]> (table m))).
  assert (capacity m' = capacity m) as Hcap
    by (unfold capacity; simpl; by rewrite length_insert).
  assert (∀ x, cell_at m x ≠ Some Empty → cell_at m' x ≠ Some Empty) as Hcell.
  { intros x Hx. unfold cell_at in *. rewrite Hcap. simpl.
    destruct (decide (Z.to_nat (x `mod` capacity m) = Z.to_nat s)) as [->|Hneq].
    - rewrite list_lookup_insert_eq by (unfold capacity in Hs; lia).
      by intros [= ->].
    - by rewrite list_lookup_insert_ne. }
  rewrite Hcap.
  destruct (decide (i = Z.to_nat s)) as [->|Hneq].
  - rewrite list_lookup_insert_eq in Hi by (unfold capacity in Hs; lia).
    injection Hi as ->. rewrite Z2Nat.id by lia.
    destruct (Hc it eq_refl) as [(it0 & Hit0 & Hk)|(h & Hh & Hpath)].
    + destruct (HW _ _ Hit0) as (h & Hh & Hpath). rewrite Hk in Hh.
      rewrite Z2Nat.id in Hpath by lia.
      exists h. split; [done|]. intros d Hd. by apply Hcell, Hpath.
    + exists h. split; [done|]. intros d Hd. by apply Hcell, Hpath.
  - rewrite list_lookup_insert_ne in Hi by done.
    destruct (HW _ _ Hi) as (h & Hh & Hpath).
    exists h. split; [done|]. intros d Hd. by apply Hcell, Hpath.
Qed.

Lemma probe_without_at m (s : nat) it :
  NoDup (key <$> all_items probe_items m) → table m !! s = Some (Full it) →
  without (key it) (all_items probe_items m) =
  (take s (table m) ≫= probe_items) ++ (drop (S s) (table m) ≫= probe_items).
Proof.
  intros Hnd Hs. rewrite (all_items_lookup _ _ _ _ Hs) in Hnd |- *.
  simpl in Hnd |- *. rewrite !fmap_app, fmap_cons in Hnd.
  apply NoDup_app in Hnd as (_ & Hdisj & Hnd).
  apply NoDup_cons in Hnd as [Hnotin _].
  rewrite !without_app.
  rewrite (without_absent _ (take s (table m) ≫= probe_items)).
  - f_equal. unfold without. rewrite filter_cons_False by (intros ?; done).
    by apply without_absent.
  - intros Hin. apply (Hdisj _ Hin). apply elem_of_cons. by left.
Qed.

Lemma probe_clean_insert m s it :
  probe_clean m → probe_clean (set_table m (<[s := Full it]> (table m))).
Proof.
  unfold probe_clean. simpl. intros Hclean Hin.
  apply list_elem_of_lookup in Hin as [i Hi].
  destruct (decide (i = s)) as [->|Hne].
  - pose proof (lookup_lt_Some _ _ _ Hi) as Hlt. rewrite length_insert in Hlt.
    by rewrite list_lookup_insert_eq in Hi.
  - rewrite list_lookup_insert_ne in Hi by done.
    apply Hclean. by eapply list_elem_of_lookup_2.
Qed.

Lemma probe_wf_set_n m x : probe_wf m → probe_wf (set_n m x).
Proof. intros HW. exact HW. Qed.

Lemma probe_items_set_n (m : t slot) x :
  all_items probe_items (set_n m x) = all_items probe_items m.
Proof. done. Qed.

Lemma probe_elem_of_full m (s : nat) it :
  table m !! s = Some (Full it) → it ∈ all_items probe_items m.
Proof.
  intros Hs. apply elem_of_all_items. exists s, (Full it).
  split; [done|]. by apply list_elem_of_singleton.
Qed.

(** The bucket-level insertion returns when the key is present or some
    cell is empty. *)
Lemma probe_bucket_set_returns fuel m j k v :
  inv probe_items probe_wf m → hash_function py_hash m k = Ok j →
  capacity m ≤ Z.of_nat fuel →
  Empty ∈ table m ∨ k ∈ key <$> all_items probe_items m →
  ∃ m1, ProbeHashMap.bucket_setitem fuel m j k v = Some (Ok m1).
Proof.
  intros Hinv Hj Hf Hroom. pose proof (hash_range _ _ _ _ Hj) as Hr.
  pose proof (inv_wf _ _ _ Hinv) as HW.
  assert (∃ found s, find_slot fuel m j k = Some (Ok (found, s)))
    as (found & s & Hfind).
  { destruct Hroom as [He|(it & -> & Hit)%list_elem_of_fmap].
    - destruct (find_slot_empty fuel m j k Hr He Hf) as [[found s] Hfind]. eauto.
    - destruct (find_slot_present fuel m j _ it Hinv Hj Hit eq_refl Hf)
        as (s & Hfind & _). eauto. }
  destruct (find_slot_result _ _ _ _ _ _ HW Hj Hfind) as [Hs Hres].
  unfold ProbeHashMap.bucket_setitem. rewrite Hfind. simpl.
  destruct found; simpl.
  - destruct Hres as (it & Hit & Hk).
    rewrite (list_get_lookup_Z _ _ _ (proj1 Hs) Hit).
    simpl. rewrite list_set_Ok by (unfold capacity in Hs; lia). simpl. eauto.
  - rewrite list_set_Ok by (unfold capacity in Hs; lia). simpl. eauto.
Qed.

#[global] Instance probe_laws :
  BucketLaws py_hash probe_items probe_wf probe_clean.
Proof.
  split.
  - done.
  - apply probe_iter_items.
  - intros m cap i it Hi. simpl in Hi.
    apply lookup_replicate in Hi as [? _]. done.
  - apply probe_wf_set_n.
  - intros m cap Hin. simpl in Hin. apply elem_of_replicate in Hin as [? _]. done.
  - (* bucket_get_total *)
    intros fuel m j k v Hinv Hj Hf Hin. simpl.
    unfold ProbeHashMap.bucket_getitem.
    destruct (find_slot_present fuel m j k _ Hinv Hj Hin eq_refl Hf)
      as (s & -> & Hs & Hcell).
    simpl. by rewrite (list_get_lookup_Z _ _ _ (proj1 Hs) Hcell).
  - (* bucket_get_partial *)
    intros fuel m j k v Hinv Hj. simpl. unfold ProbeHashMap.bucket_getitem.
    intros ([found s] & Hfind & Hrest)%fbind_Ok.
    destruct (find_slot_result _ _ _ _ _ _ (inv_wf _ _ _ Hinv) Hj Hfind)
      as [Hs Hres].
    destruct found; simpl in Hrest; [|done].
    destruct Hres as (it & Hit & Hk).
    rewrite (list_get_lookup_Z _ _ _ (proj1 Hs) Hit) in Hrest. simpl in Hrest.
    injection Hrest as <-. rewrite <- Hk, pair_of_eta.
    by eapply probe_elem_of_full.
  - (* bucket_set_partial *)
    intros fuel m j k v m1 Hinv Hj. simpl. unfold ProbeHashMap.bucket_setitem.
    intros ([found s] & Hfind & Hrest)%fbind_Ok.
    pose proof (inv_wf _ _ _ Hinv) as HW.
    pose proof (inv_nodup _ _ _ Hinv) as Hnd.
    destruct (find_slot_result _ _ _ _ _ _ HW Hj Hfind) as [Hs Hres].
    destruct found; simpl in Hrest.
    + destruct Hres as (it & Hit & Hk).
      rewrite (list_get_lookup_Z _ _ _ (proj1 Hs) Hit) in Hrest. simpl in Hrest.
      rewrite list_set_Ok in Hrest by (unfold capacity in Hs; lia).
      simpl in Hrest. injection Hrest as <-. subst k.
      split_and!.
      * apply probe_wf_update; try done. intros it' [= <-]. left. by exists it.
      * rewrite (all_items_insert _ _ _ _ _ Hit), (probe_without_at m _ it Hnd Hit).
        simpl. symmetry. apply Permutation_middle.
      * rewrite decide_True; [simpl; lia|].
        apply list_elem_of_fmap. exists it. split; [done|].
        by eapply probe_elem_of_full.
      * unfold capacity. simpl. by rewrite length_insert.
      * done.
      * intros Hclean. by apply probe_clean_insert.
    + destruct Hres as (Habs & Hav & Hpath).
      rewrite list_set_Ok in Hrest by (unfold capacity in Hs; lia).
      simpl in Hrest. injection Hrest as <-.
      split_and!.
      * apply probe_wf_set_n, probe_wf_update; try done.
        intros it' [= <-]. right. by exists j.
      * rewrite probe_items_set_n, without_absent by done.
        destruct Hav as [Hc|Hc]; rewrite (all_items_insert _ _ _ _ _ Hc);
          rewrite (all_items_lookup _ _ _ _ Hc); simpl;
          symmetry; apply Permutation_middle.
      * rewrite decide_False by done. done.
      * unfold capacity. simpl. by rewrite length_insert.
      * done.
      * intros Hclean. by apply (probe_clean_insert m).
  - (* bucket_set_total *)
    intros fuel m j k v Hinv Hclean Hn Hj Hf. simpl.
    apply probe_bucket_set_returns; try done.
    left. by apply probe_has_empty.
  - (* bucket_del_partial *)
    intros fuel m j k m1 Hinv Hj. simpl. unfold ProbeHashMap.bucket_delitem.
    intros ([found s] & Hfind & Hrest)%fbind_Ok.
    pose proof (inv_wf _ _ _ Hinv) as HW.
    pose proof (inv_nodup _ _ _ Hinv) as Hnd.
    destruct (find_slot_result _ _ _ _ _ _ HW Hj Hfind) as [Hs Hres].
    destruct found; simpl in Hrest; [|done].
    destruct Hres as (it & Hit & Hk).
    rewrite list_set_Ok in Hrest by (unfold capacity in Hs; lia).
    simpl in Hrest. injection Hrest as <-. subst k.
    split_and!.
    + apply probe_wf_update; try done.
    + by rewrite (all_items_insert _ _ _ _ _ Hit), (probe_without_at m _ it Hnd Hit).
    + apply list_elem_of_fmap. exists it. split; [done|].
      by eapply probe_elem_of_full.
    + done.
    + unfold capacity. simpl. by rewrite length_insert.
    + done.
  - (* bucket_del_total *)
    intros fuel m j k Hinv Hj Hf (it & -> & Hit)%list_elem_of_fmap. simpl.
    unfold ProbeHashMap.bucket_delitem.
    destruct (find_slot_present fuel m j _ it Hinv Hj Hit eq_refl Hf)
      as (s & -> & Hs & _).
    simpl. rewrite list_set_Ok by (unfold capacity in Hs; lia). simpl. eauto.
Qed.

End probe.

(** ** TreeMap *)

Section tree_map.
Import LinkedBinaryTree TreeMap.

(** The items of a tree, left subtree first. *)
Fixpoint inorder (t : tree) : list Item :=
  match t with
  | Leaf => []
  | Node l e r => inorder l ++ e :: inorder r
  end.

(** The binary-search-tree property: at every node, the keys of the left
    subtree are smaller and the keys of the right subtree larger. *)
Fixpoint bst (t : tree) : Prop :=
  match t with
  | Leaf => True
  | Node l e r =>
      bst l ∧ bst r ∧
      Forall (λ x, key x < key e) (inorder l) ∧
      Forall (λ x, key e < key x) (inorder r)
  end.

(** Insertion and lookup by recursion on the tree, to compare with. *)
Fixpoint bst_insert (t : tree) (k v : Z) : tree :=
  match t with
  | Leaf => Node Leaf (mkItem k v) Leaf
  | Node l e r =>
      if k =? key e then Node l (mkItem (key e) v) r
      else if k <? key e then Node (bst_insert l k v) e r
      else Node l e (bst_insert r k v)
  end.

Fixpoint bst_lookup (t : tree) (k : Z) : res Z :=
  match t with
  | Leaf => Raise KeyError
  | Node l e r =>
      if k =? key e then Ok (value e)
      else if k <? key e then bst_lookup l k
      else bst_lookup r k
  end.

Definition child (d : dir) (l r : tree) : tree :=
  match d with L => l | R => r end.

Definition with_child (d : dir) (l : tree) (e : Item) (r c : tree) : tree :=
  match d with L => Node c e r | R => Node l e c end.

Lemma len_inorder t : len t = length (inorder t).
Proof.
  induction t as [|l IHl e r IHr]; simpl; [done|].
  rewrite length_app. simpl. lia.
Qed.

Lemma is_empty_Node l e r : is_empty (Node l e r) = false.
Proof. unfold is_empty. simpl. apply Nat.eqb_neq. lia. Qed.

Lemma bst_keys_sorted t : bst t → keys_sorted (inorder t).
Proof.
  unfold keys_sorted. induction t as [|l IHl e r IHr]; simpl; [constructor|].
  intros (Hl & Hr & Hlt & Hgt).
  rewrite fmap_app, fmap_cons. apply StronglySorted_app. split_and!.
  - intros x1 x2 (a & -> & Ha)%list_elem_of_fmap Hx2.
    rewrite Forall_forall in Hlt, Hgt. specialize (Hlt _ Ha).
    apply elem_of_cons in Hx2 as [->|(b & -> & Hb)%list_elem_of_fmap]; [done|].
    specialize (Hgt _ Hb). lia.
  - by apply IHl.
  - apply SSorted_cons; [by apply IHr|].
    apply Forall_fmap. eapply Forall_impl; [exact Hgt|]. done.
Qed.

(** *** Positions inside a subtree *)

Lemma subtree_search_in_prefix t p k :
  subtree_search_in t p k = p ++ subtree_search_in t [] k.
Proof.
  revert p. induction t as [|l IHl e r IHr]; intros p; simpl.
  - by rewrite app_nil_r.
  - destruct (k =? key e); [by rewrite app_nil_r|].
    destruct (k <? key e).
    + destruct l; [by rewrite app_nil_r|].
      rewrite (IHl (p ++ [L])), (IHl [L]). by rewrite <- app_assoc.
    + destruct r; [by rewrite app_nil_r|].
      rewrite (IHr (p ++ [R])), (IHr [R]). by rewrite <- app_assoc.
Qed.

Lemma subtree_first_in_prefix t p :
  subtree_first_in t p = p ++ subtree_first_in t [].
Proof.
  revert p. induction t as [|l IHl e r IHr]; intros p; simpl.
  - by rewrite app_nil_r.
  - destruct l; [by rewrite app_nil_r|].
    rewrite (IHl (p ++ [L])), (IHl [L]). by rewrite <- app_assoc.
Qed.

Lemma subtree_last_in_prefix t p :
  subtree_last_in t p = p ++ subtree_last_in t [].
Proof.
  revert p. induction t as [|l IHl e r IHr]; intros p; simpl.
  - by rewrite app_nil_r.
  - destruct r; [by rewrite app_nil_r|].
    rewrite (IHr (p ++ [R])), (IHr [R]). by rewrite <- app_assoc.
Qed.

Lemma subtree_app t p q : subtree t (p ++ q) = subtree (subtree t p) q.
Proof.
  revert t. induction p as [|d p IH]; intros t; [done|].
  destruct t; simpl; [by destruct q|apply IH].
Qed.

(** The path operations inside a child are those of the child. *)
Lemma element_cons l e r d p :
  element (Node l e r) (d :: p) = element (child d l r) p.
Proof. done. Qed.

Lemma pos2node_cons l e r d p :
  pos2node (Node l e r) (d :: p) = pos2node (child d l r) p.
Proof. done. Qed.

Lemma left_cons l e r d p :
  left (Node l e r) (d :: p) = (d ::.) <$> left (child d l r) p.
Proof. unfold left. simpl. by destruct (subtree _ _). Qed.

Lemma right_cons l e r d p :
  right (Node l e r) (d :: p) = (d ::.) <$> right (child d l r) p.
Proof. unfold right. simpl. by destruct (subtree _ _). Qed.

Lemma replace_cons l e r d p x :
  replace (Node l e r) (d :: p) x =
  c ← replace (child d l r) p x; Ok (with_child d l e r c).
Proof. unfold replace. simpl. destruct (subtree _ _); by destruct d. Qed.

Lemma add_left_cons l e r d p x :
  add_left (Node l e r) (d :: p) x =
  c ← add_left (child d l r) p x; Ok (with_child d l e r c).
Proof.
  unfold add_left. simpl.
  destruct (subtree _ _) as [|[] ? ?]; by destruct d.
Qed.

Lemma add_right_cons l e r d p x :
  add_right (Node l e r) (d :: p) x =
  c ← add_right (child d l r) p x; Ok (with_child d l e r c).
Proof.
  unfold add_right. simpl.
  destruct (subtree _ _) as [|? ? []]; by destruct d.
Qed.

Lemma tree_delete_cons l e r d p :
  LinkedBinaryTree.delete (Node l e r) (d :: p) =
  c ← LinkedBinaryTree.delete (child d l r) p; Ok (with_child d l e r c).
Proof.
  unfold LinkedBinaryTree.delete. simpl.
  destruct (subtree _ _) as [|[] ? []]; by destruct d.
Qed.

(** *** [__setitem__] and [__getitem__] *)

Definition setitem_at (t : tree) (p : position) (k v : Z) : res tree :=
  e ← element t p;
  if key e =? k then replace t p (mkItem (key e) v)
  else if key e <? k then add_right t p (mkItem k v)
  else add_left t p (mkItem k v).

Definition getitem_at (t : tree) (p : position) (k : Z) : res Z :=
  e ← element t p;
  if negb (k =? key e) then Raise KeyError else Ok (value e).

Lemma setitem_at_cons l e r d p k v :
  setitem_at (Node l e r) (d :: p) k v =
  c ← setitem_at (child d l r) p k v; Ok (with_child d l e r c).
Proof.
  unfold setitem_at. rewrite element_cons.
  destruct (element (child d l r) p) as [x|]; simpl; [|done].
  rewrite replace_cons, add_right_cons, add_left_cons.
  destruct (key x =? k); [done|]. by destruct (key x <? k).
Qed.

Lemma tree_case_node {A} (t : tree) (a b : A) :
  t ≠ Leaf → match t with Leaf => a | Node _ _ _ => b end = b.
Proof. by destruct t. Qed.

Lemma tree_leaf_or_node (t : tree) : t = Leaf ∨ t ≠ Leaf.
Proof. destruct t; [by left|by right]. Qed.

Lemma setitem_at_search t k v :
  t ≠ Leaf → setitem_at t (subtree_search_in t [] k) k v = Ok (bst_insert t k v).
Proof.
  induction t as [|l IHl e r IHr]; intros Hne; [done|]. simpl.
  destruct (Z.eqb_spec k (key e)) as [->|Hk].
  - unfold setitem_at. simpl. by rewrite Z.eqb_refl.
  - destruct (Z.ltb_spec k (key e)) as [Hlt|Hge].
    + destruct (tree_leaf_or_node l) as [->|Hl].
      * unfold setitem_at. simpl.
        destruct (Z.eqb_spec (key e) k); [lia|].
        destruct (Z.ltb_spec (key e) k); [lia|]. done.
      * rewrite tree_case_node by done.
        rewrite subtree_search_in_prefix. simpl app.
        rewrite setitem_at_cons. simpl child. by rewrite IHl.
    + destruct (tree_leaf_or_node r) as [->|Hr].
      * unfold setitem_at. simpl.
        destruct (Z.eqb_spec (key e) k); [lia|].
        destruct (Z.ltb_spec (key e) k); [|lia]. done.
      * rewrite tree_case_node by done.
        rewrite subtree_search_in_prefix. simpl app.
        rewrite setitem_at_cons. simpl child. by rewrite IHr.
Qed.

Lemma setitem_insert t k v : setitem t k v = Ok (bst_insert t k v).
Proof.
  destruct t as [|l e r]; [done|].
  unfold setitem. rewrite is_empty_Node. cbn [root].
  apply (setitem_at_search (Node l e r)). done.
Qed.

Lemma getitem_at_search t k :
  t ≠ Leaf → getitem_at t (subtree_search_in t [] k) k = bst_lookup t k.
Proof.
  induction t as [|l IHl e r IHr]; intros Hne; [done|]. simpl.
  destruct (Z.eqb_spec k (key e)) as [->|Hk].
  - unfold getitem_at. simpl. by rewrite Z.eqb_refl.
  - destruct (Z.ltb_spec k (key e)) as [Hlt|Hge].
    + destruct (tree_leaf_or_node l) as [->|Hl].
      * unfold getitem_at. simpl. by destruct (Z.eqb_spec k (key e)).
      * rewrite tree_case_node by done.
        rewrite subtree_search_in_prefix. simpl app.
        unfold getitem_at in *. rewrite element_cons. simpl child. by apply IHl.
    + destruct (tree_leaf_or_node r) as [->|Hr].
      * unfold getitem_at. simpl. by destruct (Z.eqb_spec k (key e)).
      * rewrite tree_case_node by done.
        rewrite subtree_search_in_prefix. simpl app.
        unfold getitem_at in *. rewrite element_cons. simpl child. by apply IHr.
Qed.

Lemma getitem_lookup t k : getitem t k = bst_lookup t k.
Proof.
  destruct t as [|l e r]; [done|].
  unfold getitem. rewrite is_empty_Node. cbn [root].
  apply (getitem_at_search (Node l e r)). done.
Qed.


Lemma elem_of_bst_insert t k v x :
  x ∈ inorder (bst_insert t k v) → x ∈ inorder t ∨ key x = k.
Proof.
  induction t as [|l IHl e r IHr]; simpl.
  - intros ->%list_elem_of_singleton. by right.
  - destruct (Z.eqb_spec k (key e)) as [Heq|Hne]; simpl.
    + rewrite !elem_of_app, !elem_of_cons. intros [?|[->|?]]; auto.
    + destruct (k <? key e); simpl; rewrite !elem_of_app, !elem_of_cons;
        intros [?|[->|?]]; auto.
      * destruct IHl; auto.
      * destruct IHr; auto.
Qed.

Lemma bst_insert_bst t k v : bst t → bst (bst_insert t k v).
Proof.
  induction t as [|l IHl e r IHr]; simpl.
  - intros _. split_and!; done.
  - intros (Hl & Hr & Hlt & Hgt).
    destruct (Z.eqb_spec k (key e)) as [Heq|Hne]; simpl; [done|].
    destruct (Z.ltb_spec k (key e)) as [Hk|Hk]; simpl.
    + split_and!; auto. apply Forall_forall. intros x Hx.
      apply elem_of_bst_insert in Hx as [Hx| ->]; [|done].
      rewrite Forall_forall in Hlt. by apply Hlt.
    + split_and!; auto. apply Forall_forall. intros x Hx.
      apply elem_of_bst_insert in Hx as [Hx| ->]; [|lia].
      rewrite Forall_forall in Hgt. by apply Hgt.
Qed.

Lemma bst_lookup_elem t k v :
  bst t → (bst_lookup t k = Ok v ↔ mkItem k v ∈ inorder t).
Proof.
  induction t as [|l IHl e r IHr]; simpl.
  - intros _. split; [done|]. by intros ?%elem_of_nil.
  - intros (Hl & Hr & Hlt & Hgt).
    rewrite Forall_forall in Hlt, Hgt.
    rewrite elem_of_app, elem_of_cons, <- (IHl Hl), <- (IHr Hr).
    destruct (Z.eqb_spec k (key e)) as [Heq|Hne].
    + split.
      * intros [= <-]. right. left. rewrite Heq. by destruct e.
      * intros [Hin|[Hin|Hin]].
        -- apply (IHl Hl) in Hin. specialize (Hlt _ Hin). simpl in Hlt. lia.
        -- by rewrite <- Hin.
        -- apply (IHr Hr) in Hin. specialize (Hgt _ Hin). simpl in Hgt. lia.
    + destruct (Z.ltb_spec k (key e)) as [Hk|Hk].
      * split; [by left|]. intros [Hin|[Hin|Hin]]; [done|..].
        -- rewrite <- Hin in Hne. done.
        -- apply (IHr Hr) in Hin. specialize (Hgt _ Hin). simpl in Hgt. lia.
      * split; [by (right; right)|]. intros [Hin|[Hin|Hin]]; [..|done].
        -- apply (IHl Hl) in Hin. specialize (Hlt _ Hin). simpl in Hlt. lia.
        -- rewrite <- Hin in Hne. done.
Qed.

(** *** [delete] *)

(** The tree without its last item, and that item. *)
Fixpoint remove_max (t : tree) : tree :=
  match t with
  | Leaf => Leaf
  | Node l e r =>
      match r with
      | Leaf => l
      | Node _ _ _ => Node l e (remove_max r)
      end
  end.

Fixpoint max_item (t : tree) (d : Item) : Item :=
  match t with
  | Leaf => d
  | Node _ e r => max_item r e
  end.

(** What [delete] makes of the subtree rooted at the deleted position. *)
Definition delete_root (t : tree) : tree :=
  match t with
  | Leaf => Leaf
  | Node l e r =>
      match l, r with
      | Leaf, _ => r
      | _, Leaf => l
      | _, _ => Node (remove_max l) (max_item l e) r
      end
  end.

Lemma subtree_last_in_Node l e r :
  subtree_last_in (Node l e r) [] =
  match r with Leaf => [] | Node _ _ _ => R :: subtree_last_in r [] end.
Proof.
  simpl. destruct r; [done|]. by rewrite subtree_last_in_prefix.
Qed.

Lemma element_last t d :
  t ≠ Leaf → element t (subtree_last_in t []) = Ok (max_item t d).
Proof.
  revert d. induction t as [|l IHl e r IHr]; intros d Hne; [done|].
  rewrite subtree_last_in_Node. simpl max_item.
  destruct (tree_leaf_or_node r) as [->|Hr]; [done|].
  rewrite tree_case_node by done. rewrite element_cons. by apply IHr.
Qed.

Lemma tree_delete_last t :
  t ≠ Leaf → LinkedBinaryTree.delete t (subtree_last_in t []) = Ok (remove_max t).
Proof.
  induction t as [|l IHl e r IHr]; intros Hne; [done|].
  rewrite subtree_last_in_Node. simpl remove_max.
  destruct (tree_leaf_or_node r) as [->|Hr].
  - unfold LinkedBinaryTree.delete. simpl. by destruct l.
  - rewrite !tree_case_node by done. rewrite tree_delete_cons. simpl child.
    by rewrite IHr.
Qed.

Lemma inorder_remove_max t d :
  t ≠ Leaf → inorder t = inorder (remove_max t) ++ [max_item t d].
Proof.
  revert d. induction t as [|l IHl e r IHr]; intros d Hne; [done|].
  simpl. destruct (tree_leaf_or_node r) as [->|Hr]; [done|].
  rewrite tree_case_node by done. simpl.
  rewrite (IHr e Hr) at 1. by rewrite <- app_assoc.
Qed.

Lemma bst_remove_max t : bst t → bst (remove_max t).
Proof.
  induction t as [|l IHl e r IHr]; [done|]. simpl.
  intros (Hl & Hr & Hlt & Hgt).
  destruct (tree_leaf_or_node r) as [->|Hne]; [done|].
  rewrite tree_case_node by done. simpl. split_and!; auto.
  rewrite (inorder_remove_max r e Hne) in Hgt.
  by apply Forall_app in Hgt as [? _].
Qed.

Lemma max_item_elem t d : t ≠ Leaf → max_item t d ∈ inorder t.
Proof.
  intros Hne. rewrite (inorder_remove_max t d Hne).
  apply elem_of_app. right. by apply list_elem_of_singleton.
Qed.

Lemma left_root l e r :
  left (Node l e r) [] = match l with Leaf => None | Node _ _ _ => Some [L] end.
Proof. unfold left. simpl. by destruct l. Qed.

Lemma right_root l e r :
  right (Node l e r) [] = match r with Leaf => None | Node _ _ _ => Some [R] end.
Proof. unfold right. simpl. by destruct r. Qed.

Lemma tree_delete_with_child d l e r c q :
  LinkedBinaryTree.delete (with_child d l e r c) (d :: q) =
  c' ← LinkedBinaryTree.delete c q; Ok (with_child d l e r c').
Proof. destruct d; apply tree_delete_cons. Qed.

Lemma subtree_last_position_cons l e r d p :
  subtree_last_position (Node l e r) (d :: p) =
  d :: subtree_last_position (child d l r) p.
Proof.
  unfold subtree_last_position. simpl subtree.
  rewrite subtree_last_in_prefix, (subtree_last_in_prefix _ p). done.
Qed.

Lemma delete_cons l e r d p :
  delete (Node l e r) (d :: p) =
  c ← delete (child d l r) p; Ok (with_child d l e r c).
Proof.
  unfold delete. rewrite pos2node_cons, left_cons, right_cons.
  destruct (pos2node (child d l r) p) as [n|]; simpl; [|done].
  destruct (left (child d l r) p) as [lp|]; simpl;
    [|by rewrite tree_delete_cons].
  destruct (right (child d l r) p) as [rp|]; simpl;
    [|by rewrite tree_delete_cons].
  rewrite subtree_last_position_cons, element_cons.
  destruct (element _ _) as [x|]; simpl; [|done].
  rewrite replace_cons. destruct (replace _ _ _) as [c1|]; simpl; [|done].
  apply tree_delete_with_child.
Qed.

Lemma delete_root_spec t : t ≠ Leaf → delete t [] = Ok (delete_root t).
Proof.
  destruct t as [|l e r]; [done|]. intros _.
  unfold delete. rewrite left_root, right_root. simpl pos2node. cbn [mbind res_bind].
  destruct (tree_leaf_or_node l) as [->|Hl].
  { unfold LinkedBinaryTree.delete. simpl. done. }
  destruct (tree_leaf_or_node r) as [->|Hr].
  { rewrite tree_case_node by done. unfold LinkedBinaryTree.delete. simpl.
    by destruct l. }
  rewrite !tree_case_node by done.
  unfold subtree_last_position. simpl subtree.
  rewrite subtree_last_in_prefix. simpl app. rewrite element_cons. simpl child.
  rewrite (element_last l e Hl). cbn [mbind res_bind].
  unfold replace. simpl subtree. simpl update. cbn [mbind res_bind].
  rewrite tree_delete_cons. simpl child. rewrite (tree_delete_last l Hl).
  simpl. by destruct l, r.
Qed.

Lemma update_cons l e r d p f :
  update (Node l e r) (d :: p) f = with_child d l e r (update (child d l r) p f).
Proof. by destruct d. Qed.

Lemma delete_spec t p :
  subtree t p ≠ Leaf → delete t p = Ok (update t p delete_root).
Proof.
  revert t. induction p as [|d p IH]; intros t Hp.
  - by apply delete_root_spec.
  - destruct t as [|l e r]; [done|].
    rewrite delete_cons, update_cons, IH; done.
Qed.

Lemma delete_Ok_valid t p t' : delete t p = Ok t' → subtree t p ≠ Leaf.
Proof.
  unfold delete, pos2node. intros H Hleaf. by rewrite Hleaf in H.
Qed.

Lemma without_middle (A C : list Item) x :
  NoDup (key <$> A ++ x :: C) → without (key x) (A ++ x :: C) = A ++ C.
Proof.
  rewrite fmap_app, fmap_cons. intros Hnd.
  apply NoDup_app in Hnd as (_ & Hdisj & Hnd).
  apply NoDup_cons in Hnd as [Hnotin _].
  rewrite without_app. rewrite (without_absent _ A).
  - f_equal. unfold without. rewrite filter_cons_False by (intros ?; done).
    by apply without_absent.
  - intros Hin. apply (Hdisj _ Hin). apply elem_of_cons. by left.
Qed.

Lemma delete_root_inorder t :
  bst t → t ≠ Leaf →
  ∃ A x C, inorder t = A ++ x :: C ∧ element t [] = Ok x ∧
           inorder (delete_root t) = A ++ C ∧ bst (delete_root t).
Proof.
  destruct t as [|l e r]; [done|]. intros (Hl & Hr & Hlt & Hgt) _.
  simpl delete_root.
  destruct (tree_leaf_or_node l) as [->|Hnl].
  { exists [], e, (inorder r). by split_and!. }
  destruct (tree_leaf_or_node r) as [->|Hnr].
  { exists (inorder l), e, []. rewrite app_nil_r.
    split_and!; try done; by destruct l. }
  exists (inorder l), e, (inorder r).
  assert (delete_root (Node l e r) = Node (remove_max l) (max_item l e) r) as Hdr
    by (by destruct l, r).
  simpl delete_root in Hdr. rewrite Hdr. split_and!; try done.
  - simpl. rewrite (inorder_remove_max l e Hnl) at 1. by rewrite <- app_assoc.
  - simpl. pose proof (max_item_elem l e Hnl) as Hm.
    rewrite Forall_forall in Hlt. pose proof (Hlt _ Hm) as Hme.
    split_and!; [by apply bst_remove_max|done| |].
    + pose proof (bst_keys_sorted l Hl) as Hs. unfold keys_sorted in Hs.
      rewrite (inorder_remove_max l e Hnl), fmap_app in Hs.
      apply StronglySorted_app in Hs as (Hcross & _ & _).
      apply Forall_forall. intros x Hx. apply Hcross.
      * apply list_elem_of_fmap. eauto.
      * simpl. apply elem_of_cons. by left.
    + eapply Forall_impl; [exact Hgt|]. simpl. intros x Hx. lia.
Qed.

Lemma update_delete_root t p :
  bst t → subtree t p ≠ Leaf →
  ∃ A x C, inorder t = A ++ x :: C ∧ element t p = Ok x ∧
           inorder (update t p delete_root) = A ++ C ∧
           bst (update t p delete_root).
Proof.
  revert t. induction p as [|d p IH]; intros t Hbst Hp.
  - by apply delete_root_inorder.
  - destruct t as [|l e r]; [done|]. destruct Hbst as (Hl & Hr & Hlt & Hgt).
    rewrite update_cons, element_cons. destruct d; simpl child in *.
    + destruct (IH l Hl Hp) as (A & x & C & Hin & Hel & Hin' & Hb').
      exists A, x, (C ++ e :: inorder r). simpl. rewrite Hin, Hin'.
      rewrite <- !app_assoc. split_and!; try done.
      rewrite Hin in Hlt. apply Forall_app in Hlt as [HA HC].
      apply Forall_cons in HC as [_ HC]. by apply Forall_app.
    + destruct (IH r Hr Hp) as (A & x & C & Hin & Hel & Hin' & Hb').
      exists (inorder l ++ e :: A), x, C. simpl. rewrite Hin, Hin'.
      rewrite <- !app_assoc. split_and!; try done.
      rewrite Hin in Hgt. apply Forall_app in Hgt as [HA HC].
      apply Forall_cons in HC as [_ HC]. by apply Forall_app.
Qed.

(** [delete(p)] keeps the search-tree property and removes exactly the
    item at [p]. *)
Lemma delete_bst t p :
  bst t → subtree t p ≠ Leaf →
  ∃ t' x, delete t p = Ok t' ∧ element t p = Ok x ∧ bst t' ∧
          inorder t' = without (key x) (inorder t).
Proof.
  intros Hbst Hp.
  destruct (update_delete_root t p Hbst Hp) as (A & x & C & Hin & Hel & Hin' & Hb').
  exists (update t p delete_root), x. split_and!; try done.
  - by apply delete_spec.
  - rewrite Hin', Hin. symmetry. apply without_middle.
    rewrite <- Hin. apply keys_sorted_NoDup. by apply bst_keys_sorted.
Qed.

Lemma delitem_bst t k t' : bst t → delitem t k = Ok t' → bst t'.
Proof.
  intros Hbst. unfold delitem.
  destruct t as [|l e r]; [done|]. rewrite is_empty_Node. cbn [negb root].
  destruct (element _ _) as [x|] eqn:Hx; simpl; [|done].
  destruct (k =? key x); [|done]. intros Hdel.
  pose proof (delete_Ok_valid _ _ _ Hdel) as Hp.
  destruct (delete_bst _ _ Hbst Hp) as (t'' & y & Hdel' & _ & Hb & _).
  rewrite Hdel in Hdel'. by injection Hdel' as <-.
Qed.

Lemma tree_reachable_bst t : reachable t → bst t.
Proof.
  induction 1 as [|t k v t' _ IH Hset|t k t' _ IH Hdel|t p t' _ IH Hdel].
  - done.
  - rewrite setitem_insert in Hset. injection Hset as <-.
    by apply bst_insert_bst.
  - by eapply delitem_bst.
  - pose proof (delete_Ok_valid _ _ _ Hdel) as Hp.
    destruct (delete_bst _ _ IH Hp) as (t'' & y & Hdel' & _ & Hb & _).
    rewrite Hdel in Hdel'. by injection Hdel' as <-.
Qed.

(** *** Positions in order: [first] and [after] *)

Definition pre (d : dir) (x : list dir * Item) : list dir * Item :=
  (d :: x.1, x.2).

(** The positions of a tree with their items, left subtree first. *)
Fixpoint entries (t : tree) : list (list dir * Item) :=
  match t with
  | Leaf => []
  | Node l e r => (pre L <$> entries l) ++ ([], e) :: (pre R <$> entries r)
  end.

Lemma entries_inorder t : (entries t).*2 = inorder t.
Proof.
  induction t as [|l IHl e r IHr]; [done|]. simpl.
  rewrite fmap_app, fmap_cons, <- !list_fmap_compose. simpl.
  by rewrite <- IHl, <- IHr.
Qed.

Lemma length_entries t : length (entries t) = len t.
Proof. by rewrite len_inorder, <- entries_inorder, length_fmap. Qed.

Lemma subtree_first_in_Node l e r :
  subtree_first_in (Node l e r) [] =
  match l with Leaf => [] | Node _ _ _ => L :: subtree_first_in l [] end.
Proof.
  simpl. destruct l; [done|]. by rewrite subtree_first_in_prefix.
Qed.

Lemma entries_head t :
  t ≠ Leaf → ∃ it, entries t !! 0%nat = Some (subtree_first_in t [], it).
Proof.
  induction t as [|l IHl e r IHr]; intros Hne; [done|].
  rewrite subtree_first_in_Node. simpl entries.
  destruct (tree_leaf_or_node l) as [->|Hl]; [by exists e|].
  rewrite tree_case_node by done. destruct (IHl Hl) as [it Hit].
  exists it. rewrite lookup_app_l.
  - by rewrite list_lookup_fmap, Hit.
  - rewrite length_fmap. by eapply lookup_lt_Some.
Qed.

Lemma first_entries t : first t = fst <$> entries t !! 0%nat.
Proof.
  destruct t as [|l e r]; [done|].
  unfold first. replace (0 <? len (Node l e r))%nat with true.
  - destruct (entries_head (Node l e r)) as [it ->]; done.
  - symmetry. apply Nat.ltb_lt. simpl. lia.
Qed.

Lemma subtree_first_position_cons l e r d p :
  subtree_first_position (Node l e r) (d :: p) =
  d :: subtree_first_position (child d l r) p.
Proof.
  unfold subtree_first_position. simpl subtree.
  rewrite subtree_first_in_prefix, (subtree_first_in_prefix _ p). done.
Qed.

Lemma after_walk_single l e r d :
  after_walk (Node l e r) [d] =
  match d, r with
  | R, Node _ _ _ => None
  | _, _ => Some []
  end.
Proof.
  simpl. rewrite right_root. by destruct d, r.
Qed.

Lemma after_walk_cons t x rw :
  after_walk t (x :: rw) =
  if decide (Some (rev (x :: rw)) = right t (rev rw)) then after_walk t rw
  else Some (rev rw).
Proof. done. Qed.

Lemma after_walk_snoc l e r d rw :
  after_walk (Node l e r) (rw ++ [d]) =
  match after_walk (child d l r) rw with
  | Some q => Some (d :: q)
  | None => after_walk (Node l e r) [d]
  end.
Proof.
  induction rw as [|x rw IH]; [done|].
  change ((x :: rw) ++ [d]) with (x :: (rw ++ [d])).
  rewrite (after_walk_cons _ x (rw ++ [d])), (after_walk_cons _ x rw), IH.
  replace (rev (x :: (rw ++ [d]))) with (d :: rev (x :: rw))
    by (simpl; by rewrite rev_unit).
  rewrite rev_unit, right_cons.
  destruct (decide (Some (rev (x :: rw)) = right (child d l r) (rev rw)))
    as [Heq|Hne].
  - rewrite decide_True; [done|]. by rewrite <- Heq.
  - rewrite decide_False; [done|]. intros Heq. apply Hne.
    destruct (right (child d l r) (rev rw)); simpl in Heq |- *; [|done].
    by injection Heq as ->.
Qed.

Lemma after_root l e r :
  after (Node l e r) [] =
  Ok (match r with Leaf => None | Node _ _ _ => Some (R :: subtree_first_in r []) end).
Proof.
  unfold after. simpl pos2node. cbn [mbind res_bind]. rewrite right_root.
  destruct r as [|rl re rr]; [done|].
  unfold subtree_first_position. simpl subtree.
  by rewrite subtree_first_in_prefix.
Qed.

Lemma after_cons l e r d p :
  subtree (child d l r) p ≠ Leaf →
  after (Node l e r) (d :: p) =
  o ← after (child d l r) p;
  Ok (match o, d with
      | Some q, _ => Some (d :: q)
      | None, L => Some []
      | None, R => None
      end).
Proof.
  intros Hp. unfold after. rewrite pos2node_cons, right_cons.
  unfold pos2node. destruct (subtree (child d l r) p) eqn:Hs; [done|].
  cbn [mbind res_bind].
  destruct (right (child d l r) p) as [rp|]; simpl.
  - by rewrite subtree_first_position_cons.
  - rewrite after_walk_snoc. destruct (after_walk _ _); [done|].
    rewrite after_walk_single. destruct d; [done|].
    simpl child in Hs. destruct r; [by destruct p|done].
Qed.

Lemma entries_valid t i q it :
  entries t !! i = Some (q, it) → subtree t q ≠ Leaf ∧ element t q = Ok it.
Proof.
  revert i q it. induction t as [|l IHl e r IHr]; intros i q it; [done|].
  simpl entries. intros Hi.
  apply lookup_app_Some in Hi as [Hi|[Hlen Hi]].
  - apply list_lookup_fmap_Some in Hi as ([q' it'] & [= -> ->] & Hi).
    rewrite element_cons. simpl. by eapply IHl.
  - destruct (i - length (pre L <$> entries l))%nat as [|j] eqn:Hj; simpl in Hi.
    + by injection Hi as <- <-.
    + apply list_lookup_fmap_Some in Hi as ([q' it'] & [= -> ->] & Hi).
      rewrite element_cons. simpl. by eapply IHr.
Qed.

Lemma after_entries t i q it :
  entries t !! i = Some (q, it) →
  after t q = Ok (fst <$> entries t !! S i).
Proof.
  revert i q it. induction t as [|l IHl e r IHr]; intros i q it; [done|].
  simpl entries. intros Hi.
  apply lookup_app_Some in Hi as [Hi|[Hlen Hi]].
  - apply list_lookup_fmap_Some in Hi as ([q' it'] & [= -> ->] & Hi).
    simpl. rewrite after_cons by (by eapply entries_valid).
    simpl child. rewrite (IHl _ _ _ Hi). cbn [mbind res_bind]. f_equal.
    pose proof (lookup_lt_Some _ _ _ Hi) as Hlt.
    destruct (entries l !! S i) as [[q2 it2]|] eqn:Hn; simpl.
    + rewrite lookup_app_l by (rewrite length_fmap; by eapply lookup_lt_Some).
      by rewrite list_lookup_fmap, Hn.
    + apply lookup_ge_None in Hn.
      rewrite lookup_app_r by (rewrite length_fmap; lia).
      rewrite length_fmap. by replace (S i - length (entries l))%nat with 0%nat by lia.
  - rewrite length_fmap in Hlen, Hi.
    destruct (i - length (entries l))%nat as [|j] eqn:Hj; simpl in Hi.
    + injection Hi as <- <-. rewrite after_root. f_equal.
      rewrite lookup_app_r by (rewrite length_fmap; lia). rewrite length_fmap.
      replace (S i - length (entries l))%nat with 1%nat by lia. simpl.
      destruct (tree_leaf_or_node r) as [->|Hr]; [done|].
      rewrite tree_case_node by done.
      destruct (entries_head r Hr) as [it' Hit'].
      by rewrite list_lookup_fmap, Hit'.
    + apply list_lookup_fmap_Some in Hi as ([q' it'] & [= -> ->] & Hi).
      simpl. rewrite after_cons by (by eapply entries_valid).
      simpl child. rewrite (IHr _ _ _ Hi). cbn [mbind res_bind]. f_equal.
      rewrite lookup_app_r by (rewrite length_fmap; lia). rewrite length_fmap.
      replace (S i - length (entries l))%nat with (S (S j)) by lia. simpl.
      rewrite list_lookup_fmap. by destruct (entries r !! S j) as [[??]|].
Qed.

(** *** [__iter__] and [find_range] *)

(** The items of [l] up to the first one whose key is not below [stop]. *)
Fixpoint take_below (stop : option Z) (l : list Item) : list Item :=
  match l with
  | [] => []
  | it :: rest =>
      if decide (below stop (key it)) then it :: take_below stop rest else []
  end.

Lemma take_below_sorted stop l :
  keys_sorted l → take_below stop l = filter (λ it, below stop (key it)) l.
Proof.
  unfold keys_sorted. induction l as [|it l IH]; [done|].
  rewrite fmap_cons. intros [Hs Hit]%StronglySorted_inv. simpl.
  case_decide as Hb.
  - rewrite filter_cons_True by done. by rewrite IH.
  - rewrite filter_none; [done|]. constructor; [done|].
    rewrite Forall_fmap in Hit. eapply Forall_impl; [exact Hit|].
    simpl. intros x Hx Hbx. apply Hb.
    destruct stop as [s|]; simpl in *; [lia|done].
Qed.

Lemma take_below_None l : take_below None l = l.
Proof. induction l as [|it l IH]; [done|]. simpl. by rewrite IH. Qed.

Lemma below_test stop k :
  match stop with None => true | Some s => k <? s end =
  bool_decide (below stop k).
Proof.
  destruct stop as [s|]; simpl; [|done].
  destruct (Z.ltb_spec k s).
  - by rewrite bool_decide_eq_true_2.
  - rewrite bool_decide_eq_false_2; [done|lia].
Qed.

Lemma range_from_entries t stop fuel i :
  (length (entries t) - i ≤ fuel)%nat →
  range_from fuel t (fst <$> entries t !! i) stop =
  Some (Ok (pair_of <$> take_below stop ((drop i (entries t)).*2))).
Proof.
  revert i. induction fuel as [|fuel IH]; intros i Hf.
  - rewrite lookup_ge_None_2 by lia. rewrite drop_ge by lia. done.
  - destruct (entries t !! i) as [[q it]|] eqn:Hi.
    + rewrite (drop_S _ _ _ Hi). simpl.
      destruct (entries_valid _ _ _ _ Hi) as [_ ->]. simpl.
      rewrite below_test. rewrite (after_entries _ _ _ _ Hi). simpl.
      rewrite IH by lia. simpl.
      case_bool_decide as Hb.
      * by rewrite decide_True.
      * by rewrite decide_False.
    + apply lookup_ge_None in Hi. rewrite drop_ge by lia. done.
Qed.

Lemma drop_entries t i : (drop i (entries t)).*2 = drop i (inorder t).
Proof. by rewrite fmap_drop, entries_inorder. Qed.

Lemma tree_iter_inorder t : iter t = Some (Ok (key <$> inorder t)).
Proof.
  unfold iter. rewrite first_entries.
  rewrite range_from_entries by (rewrite length_entries; lia).
  rewrite drop_0, entries_inorder, take_below_None. simpl.
  by rewrite <- list_fmap_compose.
Qed.

(** Where a search for [k] ends: the items before that position are
    below [k], the items after it are above [k]. *)
Lemma search_split t k :
  bst t → t ≠ Leaf →
  ∃ A it C, inorder t = A ++ it :: C ∧
    entries t !! length A = Some (subtree_search_in t [] k, it) ∧
    Forall (λ x, key x < k) A ∧ Forall (λ x, k < key x) C.
Proof.
  induction t as [|l IHl e r IHr]; intros Hbst Hne; [done|].
  destruct Hbst as (Hl & Hr & Hlt & Hgt).
  assert (length (pre L <$> entries l) = length (inorder l)) as Hlen
    by (by rewrite length_fmap, length_entries, len_inorder).
  simpl subtree_search_in. simpl inorder. simpl entries.
  destruct (Z.eqb_spec k (key e)) as [->|Hk].
  { exists (inorder l), e, (inorder r). split_and!; try done.
    rewrite lookup_app_r by lia. by rewrite Hlen, Nat.sub_diag. }
  destruct (Z.ltb_spec k (key e)) as [Hlt'|Hge].
  - destruct (tree_leaf_or_node l) as [->|Hnl].
    { exists [], e, (inorder r). split_and!; try done.
      eapply Forall_impl; [exact Hgt|]. simpl. intros; lia. }
    rewrite tree_case_node by done.
    destruct (IHl Hl Hnl) as (A & it & C & Hin & Hent & HA & HC).
    exists A, it, (C ++ e :: inorder r). split_and!; try done.
    + rewrite Hin. by rewrite <- app_assoc.
    + pose proof (lookup_lt_Some _ _ _ Hent) as HltA.
      rewrite lookup_app_l by (by rewrite length_fmap).
      rewrite list_lookup_fmap, Hent. simpl. unfold pre. simpl.
      by rewrite (subtree_search_in_prefix l [L]).
    + apply Forall_app. split; [done|]. constructor; [done|].
      eapply Forall_impl; [exact Hgt|]. simpl. intros; lia.
  - destruct (tree_leaf_or_node r) as [->|Hnr].
    { exists (inorder l), e, []. split_and!; try done.
      - rewrite lookup_app_r by lia. by rewrite Hlen, Nat.sub_diag.
      - eapply Forall_impl; [exact Hlt|]. simpl. intros; lia. }
    rewrite tree_case_node by done.
    destruct (IHr Hr Hnr) as (A & it & C & Hin & Hent & HA & HC).
    exists (inorder l ++ e :: A), it, C. split_and!; try done.
    + rewrite Hin. by rewrite <- app_assoc.
    + rewrite lookup_app_r by (rewrite length_app; lia).
      rewrite Hlen, length_app. simpl.
      replace (length (inorder l) + S (length A) - length (inorder l))%nat
        with (S (length A)) by lia.
      simpl. rewrite list_lookup_fmap, Hent. simpl. unfold pre. simpl.
      by rewrite (subtree_search_in_prefix r [R]).
    + apply Forall_app. split.
      * eapply Forall_impl; [exact Hlt|]. simpl. intros; lia.
      * constructor; [lia|done].
Qed.

Lemma filter_iff_Forall {A} (P Q : A → Prop)
  `{!∀ x, Decision (P x), !∀ x, Decision (Q x)} (l : list A) :
  Forall (λ x, P x ↔ Q x) l → filter P l = filter Q l.
Proof.
  induction 1 as [|x l Hx _ IH]; [done|].
  rewrite !filter_cons, IH. destruct (decide (P x)), (decide (Q x)); tauto.
Qed.

Lemma filter_in_range_split s stop (A C : list Item) :
  Forall (λ x, key x < s) A → Forall (λ x, s ≤ key x) C →
  filter (λ it, in_range (Some s) stop (key it)) (A ++ C) =
  filter (λ it, below stop (key it)) C.
Proof.
  intros HA HC. rewrite filter_app, filter_none.
  - simpl. apply filter_iff_Forall. eapply Forall_impl; [exact HC|].
    simpl. intros x Hx. unfold in_range, below. tauto.
  - eapply Forall_impl; [exact HA|]. simpl. intros x Hx [Hs _]. lia.
Qed.

Lemma is_empty_nonleaf t : t ≠ Leaf → is_empty t = false.
Proof. destruct t; [done|]. intros _. apply is_empty_Node. Qed.

Lemma root_nonleaf t : t ≠ Leaf → root t = Some [].
Proof. by destruct t. Qed.

Lemma tree_find_range_filter t start stop :
  bst t →
  find_range t start stop =
  Some (Ok (pair_of <$> filter (λ it, in_range start stop (key it)) (inorder t))).
Proof.
  intros Hbst. destruct (tree_leaf_or_node t) as [->|Hne]; [done|].
  pose proof (bst_keys_sorted t Hbst) as Hsorted.
  unfold find_range. rewrite is_empty_nonleaf by done. cbn [negb].
  destruct start as [s|].
  - unfold find_position. rewrite is_empty_nonleaf, root_nonleaf by done.
    cbn [fmap option_fmap option_map].
    replace (subtree_search t [] s) with (subtree_search_in t [] s) by done.
    destruct (search_split t s Hbst Hne) as (A & it & C & Hin & Hent & HA & HC).
    destruct (entries_valid _ _ _ _ Hent) as [_ Hel].
    rewrite Hel. cbn [fbind].
    rewrite Hin in Hsorted. unfold keys_sorted in Hsorted.
    rewrite fmap_app in Hsorted.
    apply StronglySorted_app in Hsorted as (_ & _ & HsC).
    destruct (Z.ltb_spec (key it) s) as [Hlt|Hge].
    + rewrite (after_entries _ _ _ _ Hent). cbn [fbind].
      rewrite range_from_entries by (rewrite length_entries; lia).
      rewrite drop_entries, Hin.
      rewrite (cons_middle it A C), app_assoc.
      replace (S (length A)) with (length (A ++ [it]))
        by (rewrite length_app; simpl; lia).
      rewrite drop_app_length.
      rewrite filter_in_range_split.
      * rewrite take_below_sorted; [done|].
        rewrite fmap_cons in HsC. by apply StronglySorted_inv in HsC as [? _].
      * apply Forall_app. split; [done|]. by constructor.
      * eapply Forall_impl; [exact HC|]. simpl. intros; lia.
    + change (Some (subtree_search_in t [] s))
        with (fst <$> Some (subtree_search_in t [] s, it)).
      rewrite <- Hent. cbn [fbind].
      rewrite range_from_entries by (rewrite length_entries; lia).
      rewrite drop_entries, Hin, drop_app_length.
      rewrite filter_in_range_split.
      * by rewrite take_below_sorted.
      * done.
      * constructor; [lia|]. eapply Forall_impl; [exact HC|]. simpl. intros; lia.
  - cbn [fbind]. rewrite first_entries.
    rewrite range_from_entries by (rewrite length_entries; lia).
    rewrite drop_0, entries_inorder, take_below_sorted by done.
    do 3 f_equal. apply list_filter_iff. intros x. unfold in_range, below. tauto.
Qed.

(** [find_ge] raises on a non-empty map whose keys are all below [k]. *)
Lemma find_ge_above_all t k :
  bst t → t ≠ Leaf → Forall (λ x, key x < k) (inorder t) →
  find_ge t k = Raise AttributeError.
Proof.
  intros Hbst Hne Hall.
  unfold find_ge, find_position. rewrite is_empty_nonleaf, root_nonleaf by done.
  cbn [fmap option_fmap option_map].
  replace (subtree_search t [] k) with (subtree_search_in t [] k) by done.
  destruct (search_split t k Hbst Hne) as (A & it & C & Hin & Hent & HA & HC).
  destruct (entries_valid _ _ _ _ Hent) as [_ Hel].
  rewrite Hel. cbn [mbind res_bind].
  rewrite Hin in Hall. apply Forall_app in Hall as [_ Hall].
  apply Forall_cons in Hall as [Hit HallC].
  destruct C as [|c C].
  - destruct (Z.ltb_spec (key it) k); [|lia].
    rewrite (after_entries _ _ _ _ Hent). cbn [mbind res_bind].
    rewrite lookup_ge_None_2; [done|].
    rewrite <- (length_fmap snd), entries_inorder, Hin, length_app. simpl. lia.
  - apply Forall_cons in HallC as [Hc _]. apply Forall_cons in HC as [Hc' _]. lia.
Qed.

End tree_map.

(** ** TreeMap: the operations on reachable trees *)

Section tree_summary.
Import LinkedBinaryTree TreeMap.


Lemma tree_find_range_spec t start stop :
  reachable t →
  ∃ l, find_range t start stop = Some (Ok l) ∧
       (∀ k v, (k, v) ∈ l ↔ getitem t k = Ok v ∧ in_range start stop k) ∧
       StronglySorted Z.lt (l.*1).
Proof.
  intros Hr. pose proof (tree_reachable_bst _ Hr) as Hb.
  eexists. split; [by apply tree_find_range_filter|]. split.
  - intros k v. rewrite getitem_lookup, (bst_lookup_elem _ _ _ Hb).
    rewrite list_elem_of_fmap. split.
    + intros (it & Heq & Hin). apply list_elem_of_filter in Hin as [Hrange Hin].
      destruct it as [k' v']. unfold pair_of in Heq. simpl in *.
      by inversion Heq; subst.
    + intros [Hin Hrange]. exists (mkItem k v). split; [done|].
      by apply list_elem_of_filter.
  - rewrite <- list_fmap_compose.
    apply (keys_sorted_filter (λ it, in_range start stop (key it))).
    by apply bst_keys_sorted.
Qed.

Lemma tree_iter_spec t :
  reachable t →
  ∃ ks, iter t = Some (Ok ks) ∧ NoDup ks ∧
        (∀ k, k ∈ ks ↔ ∃ v, getitem t k = Ok v) ∧
        length ks = len t.
Proof.
  intros Hr. pose proof (tree_reachable_bst _ Hr) as Hb.
  exists (key <$> inorder t). split; [apply tree_iter_inorder|].
  split; [by apply keys_sorted_NoDup, bst_keys_sorted|]. split.
  - intros k. rewrite list_elem_of_fmap. split.
    + intros (it & -> & Hin). exists (value it).
      rewrite getitem_lookup. apply bst_lookup_elem; [done|]. by destruct it.
    + intros [v Hv]. rewrite getitem_lookup in Hv.
      apply bst_lookup_elem in Hv; [|done]. by exists (mkItem k v).
  - by rewrite length_fmap, len_inorder.
Qed.

Lemma tree_find_ge_raises t k :
  reachable t → t ≠ Leaf → Forall (λ x, key x < k) (inorder t) →
  find_ge t k = Raise AttributeError.
Proof. intros Hr. apply find_ge_above_all. by apply tree_reachable_bst. Qed.

(** *** [delete] at a node with two children *)

Lemma inorder_update t p f :
  subtree t p ≠ Leaf →
  ∃ A C, inorder t = A ++ inorder (subtree t p) ++ C ∧
         inorder (update t p f) = A ++ inorder (f (subtree t p)) ++ C.
Proof.
  revert t. induction p as [|d p IH]; intros t Hp.
  - exists [], []. simpl. by rewrite !app_nil_r.
  - destruct t as [|l e r]; [done|]. destruct d; simpl in Hp |- *.
    + destruct (IH l Hp) as (A & C & H1 & H2). exists A, (C ++ e :: inorder r).
      rewrite H1 at 1. rewrite H2. by rewrite <- !app_assoc.
    + destruct (IH r Hp) as (A & C & H1 & H2). exists (inorder l ++ e :: A), C.
      rewrite H1 at 1. rewrite H2. by rewrite <- !app_assoc.
Qed.

Lemma subtree_update t p f :
  subtree t p ≠ Leaf → subtree (update t p f) p = f (subtree t p).
Proof.
  revert t. induction p as [|d p IH]; intros t Hp; [done|].
  destruct t as [|l e r]; [done|]. destruct d; simpl in Hp |- *; by apply IH.
Qed.

Lemma left_Some t p lp :
  left t p = Some lp →
  lp = p ++ [L] ∧ ∃ l e r, subtree t p = Node l e r ∧ l ≠ Leaf.
Proof.
  unfold left. rewrite subtree_app.
  destruct (subtree t p) as [|l e r]; [done|]. simpl.
  destruct l as [|ll le lr]; [done|]. intros [= <-]. split; [done|].
  by exists (Node ll le lr), e, r.
Qed.

Lemma right_Some t p rp :
  right t p = Some rp →
  rp = p ++ [R] ∧ ∃ l e r, subtree t p = Node l e r ∧ r ≠ Leaf.
Proof.
  unfold right. rewrite subtree_app.
  destruct (subtree t p) as [|l e r]; [done|]. simpl.
  destruct r as [|rl re rr]; [done|]. intros [= <-]. split; [done|].
  by exists l, e, (Node rl re rr).
Qed.

Lemma element_app t p q : element t (p ++ q) = element (subtree t p) q.
Proof. unfold element. by rewrite subtree_app. Qed.

Lemma delete_two_children t p lp rp :
  bst t → left t p = Some lp → right t p = Some rp →
  ∃ x e t1 t' A C,
    element t p = Ok x ∧
    element t (subtree_last_position t lp) = Ok e ∧
    replace t p e = Ok t1 ∧
    LinkedBinaryTree.delete t1 (subtree_last_position t lp) = Ok t' ∧
    delete t p = Ok t' ∧
    element t' p = Ok e ∧
    inorder t = A ++ e :: x :: C ∧
    inorder t' = A ++ e :: C ∧
    bst t' ∧
    key <$> inorder t' = filter (λ k', k' ≠ key x) (key <$> inorder t).
Proof.
  intros Hbst Hl Hr.
  pose proof Hl as Hl'. pose proof Hr as Hr'.
  apply left_Some in Hl' as (-> & l & x & r & Hsub & Hlne).
  apply right_Some in Hr' as (-> & l' & x' & r' & Hsub' & Hrne).
  rewrite Hsub in Hsub'. injection Hsub' as <- <- <-.
  assert (subtree t p ≠ Leaf) as Hp by (by rewrite Hsub).
  destruct (delete_bst t p Hbst Hp) as (t' & x0 & Hdel & Hel & Hb' & Hin').
  assert (x0 = x) as ->.
  { unfold element in Hel. rewrite Hsub in Hel. by injection Hel. }
  pose proof Hdel as Hdel'. rewrite delete_spec in Hdel' by done.
  injection Hdel' as Ht'.
  assert (delete_root (Node l x r) = Node (remove_max l) (max_item l x) r) as Hroot.
  { simpl. by destruct l, r. }
  assert (element t (subtree_last_position t (p ++ [L])) = Ok (max_item l x)) as He.
  { unfold subtree_last_position. rewrite subtree_last_in_prefix, element_app.
    rewrite subtree_app, Hsub. simpl subtree. by apply element_last. }
  pose proof Hdel as Hdel2. unfold delete in Hdel2.
  unfold pos2node in Hdel2. rewrite Hsub, Hl, Hr, He in Hdel2.
  cbn [mbind res_bind] in Hdel2.
  destruct (replace t p (max_item l x)) as [t1|] eqn:Hrep; [|done].
  cbn [mbind res_bind] in Hdel2.
  destruct (inorder_update t p delete_root Hp) as (A & C & HA & HA').
  rewrite Hsub in HA, HA'. rewrite Hroot in HA'. rewrite Ht' in HA'.
  simpl in HA, HA'. rewrite (inorder_remove_max l x Hlne) in HA.
  exists x, (max_item l x), t1, t', (A ++ inorder (remove_max l)), (inorder r ++ C).
  split_and!; try done.
  - unfold element. rewrite <- Ht', subtree_update, Hsub, Hroot; done.
  - rewrite HA. by rewrite <- !app_assoc.
  - rewrite HA'. by rewrite <- !app_assoc.
  - rewrite Hin'. unfold without. clear.
    induction (inorder t) as [|it l IH]; [done|].
    rewrite fmap_cons, !filter_cons. simpl.
    destruct (decide (key it ≠ key x)); [|done]. by rewrite fmap_cons, IH.
Qed.

End tree_summary.

(** ** The hash maps on reachable states *)

Section hash_summary.
Import HashMapBase.
Context (py_hash : Z → Z) {B : Type} `{!Bucket B}.
Context (cell_items : B → list Item) (W P : t B → Prop).
Context `{!BucketLaws py_hash cell_items W P}.


Lemma hash_delete_keeps fuel (m : t B) k k2 v2 :
  reachable py_hash m → k ∈ iter m → k ≠ k2 → capacity m ≤ Z.of_nat fuel →
  getitem py_hash fuel m k2 = Some (Ok v2) →
  ∃ m', delitem py_hash fuel m k = Some (Ok m') ∧
        getitem py_hash fuel m' k2 = Some (Ok v2).
Proof.
  intros Hr Hk Hne Hf Hget.
  destruct (reachable_inv py_hash cell_items W P m Hr) as [Hinv _].
  rewrite (iter_items py_hash cell_items W P) in Hk.
  destruct (delitem_total py_hash cell_items W P fuel m k Hinv Hf Hk) as [m' Hdel].
  exists m'. split; [done|].
  destruct (delitem_partial py_hash cell_items W P _ _ _ _ Hinv Hdel)
    as (Hinv' & Hperm & _ & Hcap & _).
  apply (getitem_total py_hash cell_items W P); [done|lia|]. rewrite Hperm.
  apply elem_of_without. split; [|done].
  by apply (getitem_partial py_hash cell_items W P fuel).
Qed.

Lemma hash_iter_spec (m : t B) :
  reachable py_hash m →
  NoDup (iter m) ∧
  (∀ k, k ∈ iter m ↔ ∃ fuel v, getitem py_hash fuel m k = Some (Ok v)) ∧
  Z.of_nat (length (iter m)) = len m ∧
  n m = Z.of_nat (length (all_items cell_items m)).
Proof.
  intros Hr.
  destruct (reachable_inv py_hash cell_items W P m Hr) as [Hinv _].
  rewrite (iter_items py_hash cell_items W P).
  split; [by destruct Hinv|]. split; [|split].
  - intros k. by eapply getitem_present.
  - unfold len. rewrite length_fmap. by destruct Hinv.
  - by destruct Hinv.
Qed.

Lemma hash_setitem_after fuel (m : t B) j k v m1 :
  reachable py_hash m → 4 * capacity m ≤ Z.of_nat fuel →
  hash_function py_hash m k = Ok j →
  bucket_setitem fuel m j k v = Some (Ok m1) →
  ∃ m', setitem py_hash fuel m k v = Some (Ok m').
Proof.
  intros Hr Hf Hh Hb.
  destruct (reachable_inv py_hash cell_items W P m Hr) as [Hinv Hload].
  by eapply setitem_total_after.
Qed.


End hash_summary.

Section chain_summary.
Import HashMapBase.
Context (py_hash : Z → Z).

Lemma chain_setitem_total fuel (m : t ChainHashMap.cell) k v :
  reachable py_hash m → 4 * capacity m ≤ Z.of_nat fuel →
  ∃ m', setitem py_hash fuel m k v = Some (Ok m').
Proof.
  intros Hr Hf.
  destruct (reachable_inv py_hash (chain_items) (chain_wf py_hash) chain_any m Hr)
    as [Hinv Hload].
  by eapply (setitem_total py_hash chain_items (chain_wf py_hash) chain_any).
Qed.

End chain_summary.

Section probe_summary.
Import HashMapBase ProbeHashMap.
Context (py_hash : Z → Z).

Lemma probe_setitem_total fuel (m : t slot) k v :
  reachable py_hash m → Empty ∈ table m ∨ k ∈ ProbeHashMap.iter m →
  4 * capacity m ≤ Z.of_nat fuel →
  ∃ m', setitem py_hash fuel m k v = Some (Ok m').
Proof.
  intros Hr Hroom Hf.
  destruct (reachable_inv py_hash probe_items (probe_wf py_hash) probe_clean m Hr)
    as [Hinv Hload].
  destruct (hash_ok py_hash _ _ m k Hinv)
    as (j & Hj & _).
  rewrite probe_iter_items in Hroom.
  assert (capacity m ≤ Z.of_nat fuel) as Hf'.
  { destruct Hinv. lia. }
  destruct (probe_bucket_set_returns py_hash fuel m j k v Hinv Hj Hf' Hroom)
    as [m1 Hm1].
  by eapply (hash_setitem_after py_hash probe_items (probe_wf py_hash) probe_clean).
Qed.

(** Without an empty cell, the search for an absent key goes round the
    table for ever. *)
Lemma probe_find_slot_diverges fuel (m : t slot) j k :
  reachable py_hash m → Empty ∉ table m → k ∉ ProbeHashMap.iter m →
  hash_function py_hash m k = Ok j → find_slot fuel m j k = None.
Proof.
  intros Hr Hempty Hk Hj.
  apply find_slot_loop_diverges; [|by eapply hash_range].
  apply Forall_forall. intros c Hc. split; [by intros ->|].
  intros it -> Heq. apply Hk. rewrite probe_iter_items.
  apply list_elem_of_fmap. exists it. split; [done|].
  apply list_elem_of_lookup in Hc as [i Hi]. by eapply probe_elem_of_full.
Qed.

Lemma probe_operations_diverge fuel (m : t slot) k :
  reachable py_hash m → Empty ∉ table m → k ∉ ProbeHashMap.iter m →
  getitem py_hash fuel m k = None ∧
  (∀ v, setitem py_hash fuel m k v = None) ∧
  delitem py_hash fuel m k = None.
Proof.
  intros Hr Hempty Hk.
  destruct (reachable_inv py_hash probe_items (probe_wf py_hash) probe_clean m Hr)
    as [Hinv _].
  destruct (hash_ok py_hash _ _ m k Hinv) as (j & Hj & _).
  assert (∀ f, find_slot f m j k = None) as Hnone.
  { intros f. by apply probe_find_slot_diverges. }
  split_and!.
  - unfold getitem. rewrite Hj. cbn [fbind].
    change (ProbeHashMap.bucket_getitem fuel m j k = None).
    unfold ProbeHashMap.bucket_getitem. by rewrite Hnone.
  - intros v. destruct fuel as [|fuel]; [done|].
    rewrite setitem_S, Hj. cbn [fbind].
    change (HashMapBase.bucket_setitem (S fuel) m j k v)
      with (ProbeHashMap.bucket_setitem (S fuel) m j k v).
    unfold ProbeHashMap.bucket_setitem. by rewrite Hnone.
  - unfold delitem. rewrite Hj. cbn [fbind].
    change (HashMapBase.bucket_delitem fuel m j k)
      with (ProbeHashMap.bucket_delitem fuel m j k).
    unfold ProbeHashMap.bucket_delitem. by rewrite Hnone.
Qed.

End probe_summary.

(** ** The concrete maps are reachable *)

Section examples.
Import Examples.

Lemma unsorted_12_reachable : UnsortedListMap.reachable unsorted_12.
Proof. repeat constructor. Qed.

Lemma sorted_135_reachable : SortedTableMap.reachable sorted_135.
Proof.
  apply (SortedTableMap.reach_set [mkItem 1 10; mkItem 3 30] 5 50); [|done].
  apply (SortedTableMap.reach_set [mkItem 1 10] 3 30); [|done].
  apply (SortedTableMap.reach_set [] 1 10); [|done].
  apply SortedTableMap.reach_init.
Qed.

Lemma tree_1_reachable : TreeMap.reachable tree_1.
Proof.
  apply (TreeMap.reach_set LinkedBinaryTree.Leaf 1 10); [|done].
  apply TreeMap.reach_init.
Qed.

Lemma tree_315_reachable : TreeMap.reachable tree_315.
Proof.
  apply (TreeMap.reach_set
           (LinkedBinaryTree.Node (LinkedBinaryTree.Node LinkedBinaryTree.Leaf
              (mkItem 1 10) LinkedBinaryTree.Leaf) (mkItem 3 30)
              LinkedBinaryTree.Leaf) 5 50); [|done].
  apply (TreeMap.reach_set
           (LinkedBinaryTree.Node LinkedBinaryTree.Leaf (mkItem 3 30)
              LinkedBinaryTree.Leaf) 1 10); [|done].
  apply (TreeMap.reach_set LinkedBinaryTree.Leaf 3 30); [|done].
  apply TreeMap.reach_init.
Qed.

Lemma empty_chain_reachable : HashMapBase.reachable int_hash empty_chain.
Proof. apply HashMapBase.reach_init; lia. Qed.

Lemma empty_probe_reachable : HashMapBase.reachable int_hash empty_probe.
Proof. apply HashMapBase.reach_init; lia. Qed.

Lemma probe_pair_reachable : HashMapBase.reachable int_hash probe_pair.
Proof.
  apply (HashMapBase.reach_set int_hash 44
           (HashMapBase.mk (ProbeHashMap.Full (mkItem 0 5)
              :: replicate 10 ProbeHashMap.Empty) 1 109345121 1 0) 11 7);
    [|by vm_compute].
  apply (HashMapBase.reach_set int_hash 44 empty_probe 0 5); [|by vm_compute].
  apply empty_probe_reachable.
Qed.

Lemma churn_reachable fuel ks m m' :
  HashMapBase.reachable int_hash m → churn fuel m ks = Some (Ok m') →
  HashMapBase.reachable int_hash m'.
Proof.
  revert m. induction ks as [|k ks IH]; intros m Hr; simpl.
  - by intros [= <-].
  - intros H. apply fbind_Ok in H as (m1 & Hset & H).
    apply fbind_Ok in H as (m2 & Hdel & H).
    apply (IH m2); [|done].
    eapply HashMapBase.reach_del; [|done]. by eapply HashMapBase.reach_set.
Qed.

Lemma tombstones_reachable : HashMapBase.reachable int_hash tombstones.
Proof.
  apply (churn_reachable 44 (seqZ 0 11) empty_probe);
    [apply empty_probe_reachable|by vm_compute].
Qed.

End examples.

(** * Main results *)

Section claims.
Import HashMapBase.



(** C2: in every reachable state of SortedTableMap and of TreeMap,
    [find_range(start, stop)] returns, and yields exactly the pairs
    [(k, m[k])] with [start <= k < stop], in strictly increasing order of
    the keys; a bound that is [None] does not constrain. *)
Theorem C2_find_range :
  (∀ tbl start stop, SortedTableMap.reachable tbl →
     ∃ l, SortedTableMap.find_range tbl start stop = Ok l ∧
          (∀ k v, (k, v) ∈ l ↔
                  SortedTableMap.getitem tbl k = Ok v ∧ in_range start stop k) ∧
          StronglySorted Z.lt (l.*1)) ∧
  (∀ t start stop, TreeMap.reachable t →
     ∃ l, TreeMap.find_range t start stop = Some (Ok l) ∧
          (∀ k v, (k, v) ∈ l ↔
                  TreeMap.getitem t k = Ok v ∧ in_range start stop k) ∧
          StronglySorted Z.lt (l.*1)).
Proof.
  split.
  - intros tbl start stop. apply sorted_find_range_spec.
  - intros t start stop. apply tree_find_range_spec.
Qed.

Lemma C2_find_range_witness :
  (∃ l, SortedTableMap.find_range Examples.sorted_135 (Some 2) (Some 5) = Ok l ∧
        (∀ k v, (k, v) ∈ l ↔
                SortedTableMap.getitem Examples.sorted_135 k = Ok v ∧
                in_range (Some 2) (Some 5) k) ∧
        StronglySorted Z.lt (l.*1)) ∧
  (∃ l, TreeMap.find_range Examples.tree_315 None (Some 5) = Some (Ok l) ∧
        (∀ k v, (k, v) ∈ l ↔
                TreeMap.getitem Examples.tree_315 k = Ok v ∧
                in_range None (Some 5) k) ∧
        StronglySorted Z.lt (l.*1)).
Proof.
  destruct C2_find_range as [Hs Ht]. split.
  - apply Hs, sorted_135_reachable.
  - apply Ht, tree_315_reachable.
Defined.

(** C3: [delete(p)] at a node with two children, in a tree with the
    search-tree property.  The item [e] of the last position of the left
    subtree of [p], which is the item just before that of [p] in key
    order, is copied into [p], and the node it came from is removed by the
    tree's own [_delete]; the result is again a search tree, with one node
    less, and iterating it gives the former keys, in increasing order,
    without the key that was at [p]. *)
Theorem C3_delete_two_children t p lp rp :
  bst t → LinkedBinaryTree.left t p = Some lp →
  LinkedBinaryTree.right t p = Some rp →
  ∃ x e t1 t' ks,
    LinkedBinaryTree.element t p = Ok x ∧
    LinkedBinaryTree.element t (TreeMap.subtree_last_position t lp) = Ok e ∧
    LinkedBinaryTree.replace t p e = Ok t1 ∧
    LinkedBinaryTree.delete t1 (TreeMap.subtree_last_position t lp) = Ok t' ∧
    TreeMap.delete t p = Ok t' ∧
    LinkedBinaryTree.element t' p = Ok e ∧
    LinkedBinaryTree.len t = S (LinkedBinaryTree.len t') ∧
    (∃ A C, inorder t = A ++ e :: x :: C ∧ inorder t' = A ++ e :: C) ∧
    bst t' ∧
    TreeMap.iter t = Some (Ok ks) ∧
    TreeMap.iter t' = Some (Ok (filter (λ k', k' ≠ key x) ks)) ∧
    StronglySorted Z.lt (filter (λ k', k' ≠ key x) ks).
Proof.
  intros Hbst Hl Hr.
  destruct (delete_two_children t p lp rp Hbst Hl Hr)
    as (x & e & t1 & t' & A & C & Hx & He & Hrep & Hdel1 & Hdel & He' &
        Hin & Hin' & Hb' & Hkeys).
  exists x, e, t1, t', (key <$> inorder t). split_and!; try done.
  - rewrite !len_inorder, Hin, Hin', !length_app. simpl. lia.
  - by exists A, C.
  - apply tree_iter_inorder.
  - rewrite <- Hkeys. apply tree_iter_inorder.
  - rewrite <- Hkeys. by apply bst_keys_sorted.
Qed.

Lemma C3_delete_two_children_witness :
  ∃ x e t1 t' ks,
    LinkedBinaryTree.element Examples.tree_315 [] = Ok x ∧
    LinkedBinaryTree.element Examples.tree_315
      (TreeMap.subtree_last_position Examples.tree_315 [LinkedBinaryTree.L])
      = Ok e ∧
    LinkedBinaryTree.replace Examples.tree_315 [] e = Ok t1 ∧
    LinkedBinaryTree.delete t1
      (TreeMap.subtree_last_position Examples.tree_315 [LinkedBinaryTree.L])
      = Ok t' ∧
    TreeMap.delete Examples.tree_315 [] = Ok t' ∧
    LinkedBinaryTree.element t' [] = Ok e ∧
    LinkedBinaryTree.len Examples.tree_315 = S (LinkedBinaryTree.len t') ∧
    (∃ A C, inorder Examples.tree_315 = A ++ e :: x :: C ∧
            inorder t' = A ++ e :: C) ∧
    bst t' ∧
    TreeMap.iter Examples.tree_315 = Some (Ok ks) ∧
    TreeMap.iter t' = Some (Ok (filter (λ k', k' ≠ key x) ks)) ∧
    StronglySorted Z.lt (filter (λ k', k' ≠ key x) ks).
Proof.
  apply (C3_delete_two_children Examples.tree_315 []
           [LinkedBinaryTree.L] [LinkedBinaryTree.R]).
  - apply tree_reachable_bst, tree_315_reachable.
  - reflexivity.
  - reflexivity.
Defined.

(** C4: a reachable state of ProbeHashMap on which no operation returns.
    After [m[k] = k; del m[k]] for [k = 0, ..., 10] on a fresh map of
    capacity 11 every cell holds [_AVAIL] and [n] is 0, so no resize was
    ever due; [_find_slot] then finds neither a key nor an empty cell, and
    [m[k]], [m[k] = v] and [del m[k]] run out of any amount of fuel, for
    every key. *)
Theorem C4_probe_tombstones_diverge :
  reachable int_hash Examples.tombstones ∧
  Examples.churn 44 Examples.empty_probe (seqZ 0 11)
    = Some (Ok Examples.tombstones) ∧
  ∀ fuel k v,
    getitem int_hash fuel Examples.tombstones k = None ∧
    setitem int_hash fuel Examples.tombstones k v = None ∧
    delitem int_hash fuel Examples.tombstones k = None.
Proof.
  split; [apply tombstones_reachable|]. split; [by vm_compute|].
  intros fuel k v.
  destruct (probe_operations_diverge int_hash fuel Examples.tombstones k)
    as (Hget & Hset & Hdel).
  - apply tombstones_reachable.
  - intros Hin. unfold Examples.tombstones in Hin. cbn [table] in Hin.
    apply elem_of_replicate in Hin as [Hin _]. done.
  - simpl. apply not_elem_of_nil.
  - done.
Qed.

(** C5: tombstone integrity.  In a reachable state of ProbeHashMap that
    holds the key [k] and gives [v2] for another key [k2], [del m[k]]
    returns and [m[k2]] is [v2] afterwards, wherever the cell left by [k]
    lies. *)
Theorem C5_tombstone_integrity (py_hash : Z → Z) fuel
  (m : t ProbeHashMap.slot) k k2 v2 :
  reachable py_hash m → k ∈ ProbeHashMap.iter m → k ≠ k2 →
  capacity m ≤ Z.of_nat fuel →
  getitem py_hash fuel m k2 = Some (Ok v2) →
  ∃ m', delitem py_hash fuel m k = Some (Ok m') ∧
        getitem py_hash fuel m' k2 = Some (Ok v2).
Proof.
  intros Hr Hk Hne Hf Hget.
  by apply (hash_delete_keeps py_hash probe_items (probe_wf py_hash)
              probe_clean fuel m k k2 v2).
Qed.

Lemma C5_tombstone_integrity_witness :
  ∃ m', delitem int_hash 11 Examples.probe_pair 0 = Some (Ok m') ∧
        getitem int_hash 11 m' 11 = Some (Ok 7).
Proof.
  apply (C5_tombstone_integrity int_hash 11 Examples.probe_pair 0 11 7).
  - apply probe_pair_reachable.
  - apply (list_elem_of_lookup_2 _ 0%nat). reflexivity.
  - lia.
  - by vm_compute.
  - by vm_compute.
Defined.

(** C6: [find_gt(k)] of SortedTableMap raises [AttributeError] in every
    reachable state that holds a key [k' >= k]: the index found is inside
    the table, and the item there is compared with the bare key [k], whose
    attribute [key] is missing.  So it does not return the least key
    greater than [k]. *)
Theorem C6_find_gt_raises tbl k k' v' :
  SortedTableMap.reachable tbl → SortedTableMap.getitem tbl k' = Ok v' →
  k ≤ k' →
  SortedTableMap.find_gt tbl k = Raise AttributeError.
Proof.
  intros Hr Hget Hle. apply (find_gt_raises tbl k (mkItem k' v')); [done| |done].
  apply sorted_getitem_Ok; [by apply sorted_reachable_inv|done].
Qed.

Lemma C6_find_gt_raises_witness :
  SortedTableMap.find_gt Examples.sorted_135 2 = Raise AttributeError.
Proof.
  apply (C6_find_gt_raises Examples.sorted_135 2 3 30).
  - apply sorted_135_reachable.
  - reflexivity.
  - lia.
Defined.

(** C7: [find_ge(k)] of TreeMap raises [AttributeError] in every reachable
    state that is not empty and whose keys are all less than [k]: [after]
    gives [None], and the last line calls [p.key()] on it whatever the
    conditional expression says. *)
Theorem C7_find_ge_raises t k ks :
  TreeMap.reachable t → LinkedBinaryTree.is_empty t = false →
  TreeMap.iter t = Some (Ok ks) → Forall (λ k', k' < k) ks →
  TreeMap.find_ge t k = Raise AttributeError.
Proof.
  intros Hr Hne Hiter Hall. apply tree_find_ge_raises; [done|by destruct t|].
  rewrite tree_iter_inorder in Hiter. injection Hiter as <-.
  by apply Forall_fmap in Hall.
Qed.

Lemma C7_find_ge_raises_witness :
  TreeMap.find_ge Examples.tree_1 2 = Raise AttributeError.
Proof.
  apply (C7_find_ge_raises Examples.tree_1 2 [1]).
  - apply tree_1_reachable.
  - reflexivity.
  - reflexivity.
  - repeat constructor.
Defined.

(** C8: [find_le(k)] of SortedTableMap returns [None] when [k] is the
    least key of a reachable state, although [m[k]] is there: the index
    found is 0 and the guard is [j > 0]. *)
Theorem C8_find_le_min_key tbl k v :
  SortedTableMap.reachable tbl →
  SortedTableMap.find_min tbl = Ok (Some (k, v)) →
  SortedTableMap.getitem tbl k = Ok v ∧
  SortedTableMap.find_le tbl k = Ok None.
Proof.
  intros Hr Hmin. destruct tbl as [|item rest]; [done|].
  assert (item = mkItem k v) as ->.
  { unfold SortedTableMap.find_min in Hmin.
    destruct (list_get_in_range (item :: rest) 0) as (x & Hx & Hget).
    { simpl. lia. }
    rewrite Hget in Hmin. injection Hx as <-.
    destruct (0 <? _); [|done]. destruct item. by injection Hmin as -> ->. }
  split.
  - apply sorted_getitem_Ok; [by apply sorted_reachable_inv|]. by left.
  - by apply (find_le_min_key _ (mkItem k v) rest).
Qed.

Lemma C8_find_le_min_key_witness :
  SortedTableMap.getitem Examples.sorted_135 1 = Ok 10 ∧
  SortedTableMap.find_le Examples.sorted_135 1 = Ok None.
Proof.
  apply (C8_find_le_min_key Examples.sorted_135 1 10).
  - apply sorted_135_reachable.
  - reflexivity.
Defined.



(** C10: iteration.  In every reachable state of each of the five maps the
    iteration yields no key twice, yields [k] exactly when [m[k]] returns
    a value, and yields as many keys as [len(m)] says; for the two hash
    maps the counter [n] is the number of items held in the table. *)
Theorem C10_iteration (py_hash : Z → Z) :
  (∀ tbl, UnsortedListMap.reachable tbl →
     NoDup (UnsortedListMap.iter tbl) ∧
     (∀ k, k ∈ UnsortedListMap.iter tbl ↔
           ∃ v, UnsortedListMap.getitem tbl k = Ok v) ∧
     length (UnsortedListMap.iter tbl) = UnsortedListMap.len tbl) ∧
  (∀ m : t ChainHashMap.cell, reachable py_hash m →
     NoDup (ChainHashMap.iter m) ∧
     (∀ k, k ∈ ChainHashMap.iter m ↔
           ∃ fuel v, getitem py_hash fuel m k = Some (Ok v)) ∧
     Z.of_nat (length (ChainHashMap.iter m)) = len m ∧
     n m = Z.of_nat (length (all_items chain_items m))) ∧
  (∀ m : t ProbeHashMap.slot, reachable py_hash m →
     NoDup (ProbeHashMap.iter m) ∧
     (∀ k, k ∈ ProbeHashMap.iter m ↔
           ∃ fuel v, getitem py_hash fuel m k = Some (Ok v)) ∧
     Z.of_nat (length (ProbeHashMap.iter m)) = len m ∧
     n m = Z.of_nat (length (all_items probe_items m))) ∧
  (∀ tbl, SortedTableMap.reachable tbl →
     NoDup (SortedTableMap.iter tbl) ∧
     (∀ k, k ∈ SortedTableMap.iter tbl ↔
           ∃ v, SortedTableMap.getitem tbl k = Ok v) ∧
     length (SortedTableMap.iter tbl) = SortedTableMap.len tbl) ∧
  (∀ t, TreeMap.reachable t →
     ∃ ks, TreeMap.iter t = Some (Ok ks) ∧ NoDup ks ∧
           (∀ k, k ∈ ks ↔ ∃ v, TreeMap.getitem t k = Ok v) ∧
           length ks = LinkedBinaryTree.len t).
Proof.
  split_and!.
  - apply unsorted_iter_spec.
  - intros m Hr.
    exact (hash_iter_spec py_hash chain_items (chain_wf py_hash) chain_any
             m Hr).
  - intros m Hr.
    exact (hash_iter_spec py_hash probe_items (probe_wf py_hash) probe_clean
             m Hr).
  - apply sorted_iter_spec.
  - apply tree_iter_spec.
Qed.

Lemma C10_iteration_witness :
  length (UnsortedListMap.iter Examples.unsorted_12)
    = UnsortedListMap.len Examples.unsorted_12 ∧
  Z.of_nat (length (ChainHashMap.iter Examples.empty_chain))
    = len Examples.empty_chain ∧
  n Examples.probe_pair
    = Z.of_nat (length (all_items probe_items Examples.probe_pair)) ∧
  NoDup (SortedTableMap.iter Examples.sorted_135) ∧
  (∃ ks, TreeMap.iter Examples.tree_315 = Some (Ok ks) ∧ NoDup ks ∧
         (∀ k, k ∈ ks ↔ ∃ v, TreeMap.getitem Examples.tree_315 k = Ok v) ∧
         length ks = LinkedBinaryTree.len Examples.tree_315).
Proof.
  destruct (C10_iteration int_hash) as (Hu & Hc & Hp & Hs & Ht).
  split_and!.
  - apply Hu, unsorted_12_reachable.
  - apply Hc, empty_chain_reachable.
  - apply Hp, probe_pair_reachable.
  - apply Hs, sorted_135_reachable.
  - apply Ht, tree_315_reachable.
Defined.

End claims.

(** * Further properties of the maps *)

(** ** UnsortedListMap: other keys, missing keys *)

Section unsorted_more.
Import UnsortedListMap.

Lemma keys_without k (l : list Item) :
  key <$> without k l = filter (λ k', k' ≠ k) (key <$> l).
Proof.
  unfold without. induction l as [|it l IH]; [done|].
  rewrite fmap_cons, !filter_cons. simpl.
  destruct (decide (key it ≠ k)); [|done]. by rewrite fmap_cons, IH.
Qed.

Lemma unsorted_setitem_other tbl k v k' :
  k' ≠ k → getitem (setitem tbl k v) k' = getitem tbl k'.
Proof.
  intros Hne. induction tbl as [|it tbl IH]; simpl.
  - by destruct (Z.eqb_spec k' k).
  - destruct (Z.eqb_spec k (key it)) as [->|Hk]; simpl.
    + by destruct (Z.eqb_spec k' (key it)).
    + by rewrite IH.
Qed.

Lemma unsorted_without_other tbl k k' :
  k' ≠ k → getitem (without k tbl) k' = getitem tbl k'.
Proof.
  intros Hne. unfold without. induction tbl as [|it tbl IH]; [done|].
  rewrite filter_cons. simpl. case_decide as Hk; simpl.
  - by rewrite IH.
  - subst k. destruct (Z.eqb_spec k' (key it)); [done|]. apply IH.
Qed.

Lemma unsorted_delitem_absent tbl k :
  k ∉ key <$> tbl → delitem tbl k = Raise KeyError.
Proof.
  induction tbl as [|it tbl IH]; simpl; [done|].
  rewrite not_elem_of_cons. intros [Hne Hk].
  destruct (Z.eqb_spec k (key it)); [done|]. by rewrite IH.
Qed.

(** X1: [m[k] = v] on an UnsortedListMap leaves the value of every other
    key as it was; a key that is new is yielded last by the iteration, a
    key that was there keeps its place, and [len] grows by one exactly for
    a new key. *)
Theorem X1_unsorted_setitem_frame tbl k v :
  (∀ k', k' ≠ k → getitem (setitem tbl k v) k' = getitem tbl k') ∧
  iter (setitem tbl k v)
    = (if decide (k ∈ iter tbl) then iter tbl else iter tbl ++ [k]) ∧
  len (setitem tbl k v)
    = (if decide (k ∈ iter tbl) then len tbl else S (len tbl)).
Proof.
  split_and!.
  - intros k'. apply unsorted_setitem_other.
  - apply setitem_keys.
  - apply setitem_length.
Qed.

(** X2: [del m[k]] and [m[k]] on a reachable UnsortedListMap.  For a key
    that is not in the map both raise [KeyError].  For a key of the map,
    [del m[k]] returns; afterwards [m[k]] raises [KeyError], every other
    key has the value it had, the iteration is the former one without [k],
    and [len] is one less. *)
Theorem X2_unsorted_delitem tbl k :
  reachable tbl →
  (k ∉ iter tbl →
     getitem tbl k = Raise KeyError ∧ delitem tbl k = Raise KeyError) ∧
  (k ∈ iter tbl →
     ∃ tbl', delitem tbl k = Ok tbl' ∧
             getitem tbl' k = Raise KeyError ∧
             (∀ k', k' ≠ k → getitem tbl' k' = getitem tbl k') ∧
             iter tbl' = filter (λ k', k' ≠ k) (iter tbl) ∧
             S (len tbl') = len tbl).
Proof.
  intros Hr. pose proof (unsorted_reachable_NoDup _ Hr) as Hnd. split.
  - intros Hk. split; [by apply getitem_absent_keys|].
    by apply unsorted_delitem_absent.
  - intros Hk. destruct (delitem_present tbl k Hk) as [tbl' Hdel].
    destruct (delitem_Ok _ _ _ Hnd Hdel) as [-> _].
    exists (without k tbl). split_and!; [done| | | |].
    + apply getitem_absent_keys, without_keys.
    + intros k'. apply unsorted_without_other.
    + apply keys_without.
    + unfold len. symmetry. by apply without_length.
Qed.

Lemma X2_unsorted_delitem_witness :
  ∃ tbl', delitem Examples.unsorted_12 1 = Ok tbl' ∧
          getitem tbl' 1 = Raise KeyError ∧
          (∀ k', k' ≠ 1 → getitem tbl' k' = getitem Examples.unsorted_12 k') ∧
          iter tbl' = filter (λ k', k' ≠ 1) (iter Examples.unsorted_12) ∧
          S (len tbl') = len Examples.unsorted_12.
Proof.
  destruct (X2_unsorted_delitem Examples.unsorted_12 1) as [_ H].
  - apply unsorted_12_reachable.
  - apply H. apply (list_elem_of_lookup_2 _ 0%nat). reflexivity.
Defined.

End unsorted_more.

(** ** Least and greatest keys *)

(** [r] is the pair of the least key with [P] among [keys], read through
    [get]; it is [None] when no key has [P]. *)
Definition least_with (P : Z → Prop) (get : Z → res Z) (keys : list Z)
  (r : option (Z * Z)) : Prop :=
  match r with
  | None => ∀ k', k' ∈ keys → ¬ P k'
  | Some (k, v) => get k = Ok v ∧ P k ∧ ∀ k', k' ∈ keys → P k' → k ≤ k'
  end.

Definition greatest_with (P : Z → Prop) (get : Z → res Z) (keys : list Z)
  (r : option (Z * Z)) : Prop :=
  match r with
  | None => ∀ k', k' ∈ keys → ¬ P k'
  | Some (k, v) => get k = Ok v ∧ P k ∧ ∀ k', k' ∈ keys → P k' → k' ≤ k
  end.

(** The same for a list of items. *)
Definition least_item (P : Z → Prop) (l : list Item) (r : option Item) : Prop :=
  match r with
  | None => ∀ it, it ∈ l → ¬ P (key it)
  | Some x => x ∈ l ∧ P (key x) ∧ ∀ it, it ∈ l → P (key it) → key x ≤ key it
  end.

Definition greatest_item (P : Z → Prop) (l : list Item) (r : option Item)
  : Prop :=
  match r with
  | None => ∀ it, it ∈ l → ¬ P (key it)
  | Some x => x ∈ l ∧ P (key x) ∧ ∀ it, it ∈ l → P (key it) → key it ≤ key x
  end.

Section sorted_items.
Import SortedTableMap.

Lemma keys_sorted_le tbl (i j : nat) a b :
  keys_sorted tbl → tbl !! i = Some a → tbl !! j = Some b →
  (i ≤ j)%nat → key a ≤ key b.
Proof.
  intros Hs Ha Hb Hij. destruct (decide (i = j)) as [->|Hne].
  - rewrite Ha in Hb. injection Hb as <-. lia.
  - assert (key a < key b); [|lia].
    eapply (keys_sorted_lookup tbl i j); eauto. lia.
Qed.

Lemma split_least_ge tbl k j :
  keys_sorted tbl → is_split tbl k j →
  least_item (λ k', k ≤ k') tbl (tbl !! Z.to_nat j).
Proof.
  intros Hs [Hj Hsp]. destruct (tbl !! Z.to_nat j) as [x|] eqn:Hx; simpl.
  - split_and!.
    + by eapply list_elem_of_lookup_2.
    + pose proof (Hsp _ _ Hx) as H. rewrite Z2Nat.id in H by lia.
      by destruct (Z.ltb_spec j j); [lia|].
    + intros it Hit Hle. apply list_elem_of_lookup in Hit as [i Hi].
      pose proof (Hsp _ _ Hi) as H.
      destruct (Z.ltb_spec (Z.of_nat i) j); [lia|].
      eapply (keys_sorted_le tbl (Z.to_nat j) i); eauto. lia.
  - intros it Hit Hle. apply list_elem_of_lookup in Hit as [i Hi].
    pose proof (Hsp _ _ Hi) as H. apply lookup_ge_None in Hx.
    apply lookup_lt_Some in Hi.
    destruct (Z.ltb_spec (Z.of_nat i) j); lia.
Qed.

Lemma split_greatest_lt tbl k j :
  keys_sorted tbl → is_split tbl k j →
  greatest_item (λ k', k' < k) tbl
    (if 0 <? j then tbl !! Z.to_nat (j - 1) else None).
Proof.
  intros Hs [Hj Hsp]. destruct (Z.ltb_spec 0 j) as [Hpos|Hzero].
  - destruct (lookup_lt_is_Some_2 tbl (Z.to_nat (j - 1))) as [x Hx].
    { unfold zlen in Hj. lia. }
    rewrite Hx. simpl. split_and!.
    + by eapply list_elem_of_lookup_2.
    + pose proof (Hsp _ _ Hx) as H. rewrite Z2Nat.id in H by lia.
      by destruct (Z.ltb_spec (j - 1) j); [|lia].
    + intros it Hit Hlt. apply list_elem_of_lookup in Hit as [i Hi].
      pose proof (Hsp _ _ Hi) as H.
      destruct (Z.ltb_spec (Z.of_nat i) j); [|lia].
      eapply (keys_sorted_le tbl i (Z.to_nat (j - 1))); eauto. lia.
  - intros it Hit Hlt. apply list_elem_of_lookup in Hit as [i Hi].
    pose proof (Hsp _ _ Hi) as H.
    destruct (Z.ltb_spec (Z.of_nat i) j); lia.
Qed.

Lemma sorted_first_least tbl :
  keys_sorted tbl → least_item (λ _, True) tbl (tbl !! 0%nat).
Proof.
  intros Hs. destruct (tbl !! 0%nat) as [x|] eqn:Hx; simpl.
  - split_and!; [by eapply list_elem_of_lookup_2|done|].
    intros it Hit _. apply list_elem_of_lookup in Hit as [i Hi].
    eapply (keys_sorted_le tbl 0 i); eauto. lia.
  - intros it Hit. apply list_elem_of_lookup in Hit as [i Hi].
    apply lookup_ge_None in Hx. apply lookup_lt_Some in Hi. lia.
Qed.

Lemma sorted_last_greatest tbl :
  keys_sorted tbl → greatest_item (λ _, True) tbl (last tbl).
Proof.
  intros Hs. destruct (last tbl) as [x|] eqn:Hx; simpl.
  - rewrite last_lookup in Hx. split_and!; [by eapply list_elem_of_lookup_2|done|].
    intros it Hit _. apply list_elem_of_lookup in Hit as [i Hi].
    eapply (keys_sorted_le tbl i (pred (length tbl))); eauto.
    apply lookup_lt_Some in Hi. lia.
  - apply last_None in Hx. subst. by intros it ?%elem_of_nil.
Qed.

Lemma least_item_with P tbl r :
  keys_sorted tbl → least_item P tbl r →
  least_with P (getitem tbl) (iter tbl) (pair_of <$> r).
Proof.
  intros Hs. destruct r as [x|]; simpl.
  - intros (Hx & HP & Hmin). destruct x as [k v]. simpl in *. split_and!; [|done|].
    + by apply sorted_getitem_Ok.
    + intros k' Hk'. apply list_elem_of_fmap in Hk' as (it & -> & Hit). eauto.
  - intros Hnone k' Hk'. apply list_elem_of_fmap in Hk' as (it & -> & Hit). eauto.
Qed.

Lemma greatest_item_with P tbl r :
  keys_sorted tbl → greatest_item P tbl r →
  greatest_with P (getitem tbl) (iter tbl) (pair_of <$> r).
Proof.
  intros Hs. destruct r as [x|]; simpl.
  - intros (Hx & HP & Hmax). destruct x as [k v]. simpl in *. split_and!; [|done|].
    + by apply sorted_getitem_Ok.
    + intros k' Hk'. apply list_elem_of_fmap in Hk' as (it & -> & Hit). eauto.
  - intros Hnone k' Hk'. apply list_elem_of_fmap in Hk' as (it & -> & Hit). eauto.
Qed.

End sorted_items.

(** ** SortedTableMap: other keys, missing keys, order *)

Section sorted_more.
Import SortedTableMap.

Lemma StronglySorted_reverse {A} (R : relation A) (l : list A) :
  StronglySorted R l → StronglySorted (flip R) (reverse l).
Proof.
  induction 1 as [|x l Hl IH Hx]; [constructor|].
  rewrite reverse_cons. apply StronglySorted_app_2; [|done|repeat constructor].
  intros x1 x2 Hx1 ->%list_elem_of_singleton. rewrite elem_of_reverse in Hx1.
  unfold flip. rewrite Forall_forall in Hx. by apply Hx.
Qed.

Lemma sorted_getitem_absent_keys tbl k :
  keys_sorted tbl → k ∉ iter tbl → getitem tbl k = Raise KeyError.
Proof.
  intros Hs Hk. apply sorted_getitem_absent; [done|].
  intros it Hit Heq. apply Hk, list_elem_of_fmap. eauto.
Qed.

Lemma sorted_getitem_eq tbl tbl' k :
  keys_sorted tbl → keys_sorted tbl' →
  (∀ v, mkItem k v ∈ tbl ↔ mkItem k v ∈ tbl') →
  getitem tbl k = getitem tbl' k.
Proof.
  intros Hs Hs' Hiff. destruct (decide (k ∈ iter tbl)) as [Hin|Hout].
  - apply list_elem_of_fmap in Hin as ([k0 v] & -> & Hit). simpl.
    transitivity (Ok (A:=Z) v); [|symmetry].
    + by apply sorted_getitem_Ok.
    + apply sorted_getitem_Ok; [done|]. by apply Hiff.
  - rewrite (sorted_getitem_absent_keys tbl k Hs Hout). symmetry.
    apply sorted_getitem_absent_keys; [done|].
    intros Hin. apply Hout.
    apply list_elem_of_fmap in Hin as ([k0 v] & -> & Hit). simpl.
    apply list_elem_of_fmap. exists (mkItem k0 v). split; [done|]. by apply Hiff.
Qed.

Lemma find_index_at tbl (i : nat) item :
  keys_sorted tbl → tbl !! i = Some item →
  find_index tbl (key item) 0 (zlen tbl - 1) = Ok (Z.of_nat i).
Proof.
  intros Hs Hi.
  destruct (find_index_spec tbl (key item) Hs) as (j & Hj & Hsplit).
  rewrite Hj. f_equal. by eapply is_split_at_key.
Qed.

Lemma find_index_absent tbl k j :
  keys_sorted tbl → k ∉ iter tbl →
  find_index tbl k 0 (zlen tbl - 1) = Ok j →
  ∀ it, tbl !! Z.to_nat j = Some it → key it ≠ k.
Proof.
  intros Hs Hk Hj it Hit Heq. apply Hk, list_elem_of_fmap.
  exists it. split; [done|]. by eapply list_elem_of_lookup_2.
Qed.

Lemma sorted_delitem_absent tbl k :
  keys_sorted tbl → k ∉ iter tbl → delitem tbl k = Raise KeyError.
Proof.
  intros Hs Hk. unfold delitem.
  destruct (find_index_spec tbl k Hs) as (j & Hj & [Hr Hsp]). rewrite Hj. simpl.
  destruct (Z.eqb_spec j (zlen tbl)); [done|].
  destruct (list_get_in_range tbl j) as (it & Hit & ->); [unfold zlen in *; lia|].
  simpl. pose proof (find_index_absent tbl k j Hs Hk Hj it Hit).
  by destruct (Z.eqb_spec (key it) k).
Qed.

Lemma sorted_delitem_present tbl (i : nat) item :
  keys_sorted tbl → tbl !! i = Some item →
  delitem tbl (key item) = Ok (without (key item) tbl).
Proof.
  intros Hs Hi. unfold delitem. rewrite (find_index_at tbl i item Hs Hi). simpl.
  pose proof (lookup_lt_Some _ _ _ Hi) as Hlen.
  destruct (Z.eqb_spec (Z.of_nat i) (zlen tbl)); [unfold zlen in *; lia|].
  rewrite (list_get_lookup tbl i item Hi). simpl. rewrite Z.eqb_refl. simpl.
  rewrite Nat2Z.id. unfold list_pop. rewrite Hi. f_equal.
  rewrite <- (take_drop_middle tbl i item Hi) at 3.
  symmetry. apply without_middle.
  rewrite (take_drop_middle tbl i item Hi). by apply keys_sorted_NoDup.
Qed.

Lemma sorted_setitem_without tbl k v tbl' :
  keys_sorted tbl → setitem tbl k v = Ok tbl' →
  ∃ A C, tbl' = A ++ mkItem k v :: C ∧ without k tbl = A ++ C.
Proof.
  intros Hs. unfold setitem.
  destruct (find_index_spec tbl k Hs) as (j & Hj & Hsplit). rewrite Hj. simpl.
  pose proof Hsplit as [Hr Hsp].
  assert (∀ A C, tbl = A ++ C → (∀ it, tbl !! Z.to_nat j = Some it → key it ≠ k) →
                 without k tbl = A ++ C) as Habs.
  { intros A C HAC Hne. rewrite <- HAC. apply without_absent.
    intros Hin. apply list_elem_of_fmap in Hin as (it & Hk & Hit).
    apply list_elem_of_lookup in Hit as [i Hi].
    assert (j = Z.of_nat i) as -> by (by eapply is_split_at_key).
    rewrite Nat2Z.id in Hne. by eapply Hne. }
  destruct (Z.ltb_spec j (zlen tbl)) as [Hlt|Hge].
  - destruct (list_get_in_range tbl j) as (it & Hit & ->); [unfold zlen in *; lia|].
    simpl. destruct (Z.eqb_spec (key it) k) as [Heq|Hne].
    + intros [= <-]. exists (take (Z.to_nat j) tbl), (drop (S (Z.to_nat j)) tbl).
      split.
      * rewrite Heq. apply insert_take_drop. by eapply lookup_lt_Some.
      * rewrite <- Heq. rewrite <- (take_drop_middle tbl _ it Hit) at 1.
        apply without_middle. rewrite (take_drop_middle tbl _ it Hit).
        by apply keys_sorted_NoDup.
    + intros [= <-]. exists (take (Z.to_nat j) tbl), (drop (Z.to_nat j) tbl).
      split; [done|]. apply Habs; [by rewrite take_drop|].
      intros it' Hit'. rewrite Hit in Hit'. by injection Hit' as <-.
  - intros [= <-]. exists (take (Z.to_nat j) tbl), (drop (Z.to_nat j) tbl).
    split; [done|]. apply Habs; [by rewrite take_drop|].
    intros it' Hit'. apply lookup_lt_Some in Hit'. unfold zlen in *. lia.
Qed.

End sorted_more.

Section sorted_theorems.
Import SortedTableMap.

(** X3: in every reachable state of SortedTableMap the iteration yields
    the keys in strictly increasing order, and [__reversed__] yields the
    same keys backwards, in strictly decreasing order. *)
Theorem X3_sorted_iteration_order tbl :
  reachable tbl →
  StronglySorted Z.lt (iter tbl) ∧
  reversed tbl = reverse (iter tbl) ∧
  StronglySorted (flip Z.lt) (reversed tbl).
Proof.
  intros Hr. pose proof (sorted_reachable_inv _ Hr) as Hs.
  assert (reversed tbl = reverse (iter tbl)) as Hrev.
  { unfold reversed, iter. by rewrite fmap_reverse. }
  split_and!; [done..|]. rewrite Hrev. by apply StronglySorted_reverse.
Qed.

Lemma X3_sorted_iteration_order_witness :
  StronglySorted Z.lt (iter Examples.sorted_135) ∧
  reversed Examples.sorted_135 = reverse (iter Examples.sorted_135) ∧
  StronglySorted (flip Z.lt) (reversed Examples.sorted_135).
Proof.
  apply (X3_sorted_iteration_order Examples.sorted_135).
  apply sorted_135_reachable.
Defined.

(** X4: [_find_index(k, 0, len - 1)] on a reachable table never raises; it
    returns an index [j] between 0 and [len] such that the keys before [j]
    are less than [k] and the keys from [j] on are at least [k] (so [j] is
    where [k] is, or where it would be inserted). *)
Theorem X4_sorted_find_index tbl k :
  reachable tbl →
  ∃ j, find_index tbl k 0 (zlen tbl - 1) = Ok j ∧
       0 ≤ j ≤ zlen tbl ∧
       Forall (λ it, key it < k) (take (Z.to_nat j) tbl) ∧
       Forall (λ it, k ≤ key it) (drop (Z.to_nat j) tbl).
Proof.
  intros Hr. pose proof (sorted_reachable_inv _ Hr) as Hs.
  destruct (find_index_spec tbl k Hs) as (j & Hj & Hsplit).
  exists j. split; [done|]. split; [by destruct Hsplit|].
  apply keys_sorted_take_drop. rewrite Z2Nat.id; [done|]. destruct Hsplit. lia.
Qed.

Lemma X4_sorted_find_index_witness :
  ∃ j, find_index Examples.sorted_135 4 0 (zlen Examples.sorted_135 - 1) = Ok j ∧
       0 ≤ j ≤ zlen Examples.sorted_135 ∧
       Forall (λ it, key it < 4) (take (Z.to_nat j) Examples.sorted_135) ∧
       Forall (λ it, 4 ≤ key it) (drop (Z.to_nat j) Examples.sorted_135).
Proof.
  apply (X4_sorted_find_index Examples.sorted_135 4).
  apply sorted_135_reachable.
Defined.

(** X5: [del m[k]] and [m[k]] on a reachable SortedTableMap.  For a key
    that is not in the map both raise [KeyError].  For a key of the map
    [del m[k]] returns; afterwards [m[k]] raises [KeyError], every other
    key has the value it had, and the iteration is the former one without
    [k]. *)
Theorem X5_sorted_delitem tbl k :
  reachable tbl →
  (k ∉ iter tbl →
     getitem tbl k = Raise KeyError ∧ delitem tbl k = Raise KeyError) ∧
  (k ∈ iter tbl →
     ∃ tbl', delitem tbl k = Ok tbl' ∧
             getitem tbl' k = Raise KeyError ∧
             (∀ k', k' ≠ k → getitem tbl' k' = getitem tbl k') ∧
             iter tbl' = filter (λ k', k' ≠ k) (iter tbl)).
Proof.
  intros Hr. pose proof (sorted_reachable_inv _ Hr) as Hs. split.
  - intros Hk. split; [by apply sorted_getitem_absent_keys|].
    by apply sorted_delitem_absent.
  - intros Hk. apply list_elem_of_fmap in Hk as (item & -> & Hit).
    apply list_elem_of_lookup in Hit as [i Hi].
    pose proof (sorted_delitem_present tbl i item Hs Hi) as Hdel.
    pose proof (sorted_delitem_spec _ _ _ Hs Hdel) as Hs'.
    exists (without (key item) tbl). split_and!; [done| | |].
    + apply sorted_getitem_absent_keys; [done|]. apply without_keys.
    + intros k' Hne. apply sorted_getitem_eq; [done..|].
      intros v. rewrite elem_of_without. simpl. tauto.
    + apply keys_without.
Qed.

Lemma X5_sorted_delitem_witness :
  ∃ tbl', delitem Examples.sorted_135 3 = Ok tbl' ∧
          getitem tbl' 3 = Raise KeyError ∧
          (∀ k', k' ≠ 3 → getitem tbl' k' = getitem Examples.sorted_135 k') ∧
          iter tbl' = filter (λ k', k' ≠ 3) (iter Examples.sorted_135).
Proof.
  destruct (X5_sorted_delitem Examples.sorted_135 3) as [_ H].
  - apply sorted_135_reachable.
  - apply H. apply (list_elem_of_lookup_2 _ 1%nat). reflexivity.
Defined.

(** X6: [m[k] = v] on a reachable SortedTableMap returns and leaves the
    value of every other key as it was; the keys afterwards are the former
    keys and [k], and [len] grows by one exactly when [k] is new. *)
Theorem X6_sorted_setitem_frame tbl k v :
  reachable tbl →
  ∃ tbl', setitem tbl k v = Ok tbl' ∧
          (∀ k', k' ≠ k → getitem tbl' k' = getitem tbl k') ∧
          (∀ k', k' ∈ iter tbl' ↔ k' = k ∨ k' ∈ iter tbl) ∧
          len tbl' = (if decide (k ∈ iter tbl) then len tbl else S (len tbl)).
Proof.
  intros Hr. pose proof (sorted_reachable_inv _ Hr) as Hs.
  destruct (sorted_setitem_spec tbl k v Hs) as (tbl' & Hset & Hs' & _).
  destruct (sorted_setitem_without _ _ _ _ Hs Hset) as (A & C & -> & Hw).
  assert (∀ it, it ∈ A ++ mkItem k v :: C ↔
                it = mkItem k v ∨ (it ∈ tbl ∧ key it ≠ k)) as Hel.
  { intros it. rewrite <- elem_of_without, Hw.
    rewrite !elem_of_app, elem_of_cons. tauto. }
  exists (A ++ mkItem k v :: C). split_and!; [done| | |].
  - intros k' Hne. symmetry. apply sorted_getitem_eq; [done..|].
    intros v'. rewrite Hel. split; [intros Hin; by right|].
    intros [Heq|[? _]]; [by injection Heq|done].
  - intros k'. unfold iter. rewrite !list_elem_of_fmap. split.
    + intros (it & -> & Hit). apply Hel in Hit as [->|[Hit _]]; [by left|].
      right. eauto.
    + intros [->|(it & -> & Hit)].
      * exists (mkItem k v). split; [done|]. apply Hel. by left.
      * destruct (decide (key it = k)) as [Heq|Hne].
        -- exists (mkItem k v). split; [done|]. apply Hel. by left.
        -- exists it. split; [done|]. apply Hel. by right.
  - unfold len. rewrite length_app. simpl.
    assert (length (without k tbl) = (length A + length C)%nat) as Hlen
      by (by rewrite Hw, length_app).
    case_decide as Hk.
    + rewrite (without_length k tbl); [lia|by apply keys_sorted_NoDup|done].
    + rewrite without_absent in Hlen by done. lia.
Qed.

Lemma X6_sorted_setitem_frame_witness :
  ∃ tbl', setitem Examples.sorted_135 4 40 = Ok tbl' ∧
          (∀ k', k' ≠ 4 → getitem tbl' k' = getitem Examples.sorted_135 k') ∧
          (∀ k', k' ∈ iter tbl' ↔ k' = 4 ∨ k' ∈ iter Examples.sorted_135) ∧
          len tbl' = (if decide (4 ∈ iter Examples.sorted_135)
                      then len Examples.sorted_135
                      else S (len Examples.sorted_135)).
Proof.
  apply (X6_sorted_setitem_frame Examples.sorted_135 4 40).
  apply sorted_135_reachable.
Defined.

End sorted_theorems.

(** ** SortedTableMap: the neighbour queries *)

Section sorted_neighbours.
Import SortedTableMap.

Lemma list_get_last {A} (l : list A) (x : A) :
  last l = Some x → list_get l (-1) = Ok x.
Proof.
  intros Hx. rewrite last_lookup in Hx. pose proof (lookup_lt_Some _ _ _ Hx).
  unfold list_get. simpl.
  destruct (Z.ltb_spec (-1 + Z.of_nat (length l)) 0); [lia|].
  replace (Z.to_nat (-1 + Z.of_nat (length l))) with (pred (length l)) by lia.
  by rewrite Hx.
Qed.

Lemma find_min_eq tbl : find_min tbl = Ok (pair_of <$> tbl !! 0%nat).
Proof.
  unfold find_min, zlen. destruct tbl as [|item rest]; [done|].
  destruct (Z.ltb_spec 0 (Z.of_nat (length (item :: rest)))); [done|].
  simpl in *. lia.
Qed.

Lemma find_max_eq tbl : find_max tbl = Ok (pair_of <$> last tbl).
Proof.
  unfold find_max, zlen. destruct (last tbl) as [x|] eqn:Hx.
  - rewrite (list_get_last tbl x Hx). simpl.
    rewrite last_lookup in Hx. apply lookup_lt_Some in Hx.
    by destruct (Z.ltb_spec 0 (Z.of_nat (length tbl))); [|lia].
  - apply last_None in Hx. by subst.
Qed.

Lemma find_ge_eq tbl k j :
  find_index tbl k 0 (zlen tbl - 1) = Ok j → 0 ≤ j ≤ zlen tbl →
  find_ge tbl k = Ok (pair_of <$> tbl !! Z.to_nat j).
Proof.
  intros Hj Hr. unfold find_ge. rewrite Hj. simpl.
  destruct (Z.ltb_spec j (zlen tbl)).
  - destruct (list_get_in_range tbl j) as (it & Hit & ->); [unfold zlen in *; lia|].
    by rewrite Hit.
  - rewrite lookup_ge_None_2; [done|]. unfold zlen in *. lia.
Qed.

Lemma find_lt_eq tbl k j :
  find_index tbl k 0 (zlen tbl - 1) = Ok j → 0 ≤ j ≤ zlen tbl →
  find_lt tbl k =
  Ok (pair_of <$> (if 0 <? j then tbl !! Z.to_nat (j - 1) else None)).
Proof.
  intros Hj Hr. unfold find_lt. rewrite Hj. simpl.
  destruct (Z.ltb_spec 0 j); [|done].
  destruct (list_get_in_range tbl (j - 1)) as (it & Hit & ->);
    [unfold zlen in *; lia|].
  by rewrite Hit.
Qed.

Lemma find_le_item tbl k j :
  keys_sorted tbl → is_split tbl k j →
  find_index tbl k 0 (zlen tbl - 1) = Ok j →
  (∀ it, tbl !! 0%nat = Some it → key it ≠ k) →
  ∃ r, find_le tbl k = Ok (pair_of <$> r) ∧
       greatest_item (λ k', k' ≤ k) tbl r.
Proof.
  intros Hs Hsplit Hj Hmin. pose proof Hsplit as [Hr Hsp].
  unfold find_le. rewrite Hj. simpl.
  assert (∀ (i : nat) it, tbl !! i = Some it → key it = k → j = Z.of_nat i)
    as Hat by (intros; by eapply is_split_at_key).
  pose proof (split_greatest_lt tbl k j Hs Hsplit) as Hlt.
  destruct (Z.ltb_spec 0 j) as [Hpos|Hzero].
  - destruct (list_get_in_range tbl (j - 1)) as (prev & Hprev & Hgetp);
      [unfold zlen in *; lia|].
    rewrite Hprev in Hlt. destruct Hlt as (Hin & Hk & Hmax).
    assert ((∀ it, tbl !! Z.to_nat j = Some it → key it ≠ k) →
            greatest_item (λ k', k' ≤ k) tbl (Some prev)) as Hprevmax.
    { intros Hne. split_and!; [done|simpl; lia|].
      intros it Hit Hle. apply Hmax; [done|].
      destruct (decide (key it = k)) as [Heq|]; [|lia].
      apply list_elem_of_lookup in Hit as [i Hi].
      pose proof (Hat i it Hi Heq) as ->. rewrite Nat2Z.id in Hne.
      by destruct (Hne it Hi). }
    destruct (Z.ltb_spec j (zlen tbl)) as [Hin'|Hout].
    + destruct (list_get_in_range tbl j) as (it & Hit & ->);
        [unfold zlen in *; lia|].
      simpl. destruct (Z.eqb_spec (key it) k) as [Heq|Hne].
      * exists (Some it). split; [done|]. split_and!.
        -- by eapply list_elem_of_lookup_2.
        -- simpl. lia.
        -- intros it' _ Hle. lia.
      * rewrite Hgetp. simpl. exists (Some prev). split; [done|].
        apply Hprevmax. intros it' Hit'. rewrite Hit in Hit'.
        by injection Hit' as <-.
    + rewrite Hgetp. simpl. exists (Some prev). split; [done|].
      apply Hprevmax. intros it' Hit'. apply lookup_lt_Some in Hit'.
      unfold zlen in *. lia.
  - exists None. split; [done|]. intros it Hit Hle.
    apply list_elem_of_lookup in Hit as [i Hi].
    pose proof (Hsp _ _ Hi) as H.
    destruct (Z.ltb_spec (Z.of_nat i) j); [lia|].
    assert (key it = k) as Heq by lia.
    pose proof (Hat i it Hi Heq). assert (i = 0%nat) as -> by lia.
    by apply (Hmin it).
Qed.

Lemma find_gt_all_below tbl k :
  keys_sorted tbl → (∀ k', k' ∈ iter tbl → k' < k) →
  find_gt tbl k = Ok None.
Proof.
  intros Hs Hall. unfold find_gt.
  destruct (find_index_spec tbl k Hs) as (j & -> & [Hr Hsp]). simpl.
  assert (j = zlen tbl) as ->.
  { destruct (Z.ltb_spec j (zlen tbl)) as [Hlt|]; [|lia].
    destruct (list_get_in_range tbl j) as (it & Hit & _);
      [unfold zlen in *; lia|].
    pose proof (Hsp _ _ Hit) as H. rewrite Z2Nat.id in H by lia.
    destruct (Z.ltb_spec j j); [lia|].
    assert (key it < k); [|lia].
    apply Hall, list_elem_of_fmap. exists it. split; [done|].
    by eapply list_elem_of_lookup_2. }
  rewrite Z.ltb_irrefl. simpl. by rewrite Z.ltb_irrefl.
Qed.

End sorted_neighbours.

Section sorted_neighbour_theorems.
Import SortedTableMap.

(** X7: on a reachable SortedTableMap [find_min()] and [find_max()] never
    raise; they return the pairs of the least and of the greatest key, and
    [None] exactly when the map is empty. *)
Theorem X7_sorted_find_min_max tbl :
  reachable tbl →
  ∃ lo hi, find_min tbl = Ok lo ∧ find_max tbl = Ok hi ∧
           least_with (λ _, True) (getitem tbl) (iter tbl) lo ∧
           greatest_with (λ _, True) (getitem tbl) (iter tbl) hi ∧
           (lo = None ↔ tbl = []) ∧ (hi = None ↔ tbl = []).
Proof.
  intros Hr. pose proof (sorted_reachable_inv _ Hr) as Hs.
  exists (pair_of <$> tbl !! 0%nat), (pair_of <$> last tbl).
  split_and!.
  - apply find_min_eq.
  - apply find_max_eq.
  - by apply least_item_with, sorted_first_least.
  - by apply greatest_item_with, sorted_last_greatest.
  - rewrite fmap_None. by destruct tbl.
  - rewrite fmap_None. apply last_None.
Qed.

Lemma X7_sorted_find_min_max_witness :
  ∃ lo hi, find_min Examples.sorted_135 = Ok lo ∧
           find_max Examples.sorted_135 = Ok hi ∧
           least_with (λ _, True) (getitem Examples.sorted_135)
             (iter Examples.sorted_135) lo ∧
           greatest_with (λ _, True) (getitem Examples.sorted_135)
             (iter Examples.sorted_135) hi ∧
           (lo = None ↔ Examples.sorted_135 = []) ∧
           (hi = None ↔ Examples.sorted_135 = []).
Proof.
  apply (X7_sorted_find_min_max Examples.sorted_135).
  apply sorted_135_reachable.
Defined.

(** X8: on a reachable SortedTableMap [find_lt(k)] and [find_ge(k)] never
    raise; [find_lt(k)] returns the pair of the greatest key less than
    [k], [find_ge(k)] the pair of the least key that is at least [k], and
    each returns [None] when there is no such key. *)
Theorem X8_sorted_find_lt_ge tbl k :
  reachable tbl →
  ∃ lt ge, find_lt tbl k = Ok lt ∧ find_ge tbl k = Ok ge ∧
           greatest_with (λ k', k' < k) (getitem tbl) (iter tbl) lt ∧
           least_with (λ k', k ≤ k') (getitem tbl) (iter tbl) ge.
Proof.
  intros Hr. pose proof (sorted_reachable_inv _ Hr) as Hs.
  destruct (find_index_spec tbl k Hs) as (j & Hj & Hsplit).
  pose proof Hsplit as [Hrange _].
  exists (pair_of <$> (if 0 <? j then tbl !! Z.to_nat (j - 1) else None)),
         (pair_of <$> tbl !! Z.to_nat j).
  split_and!.
  - by apply find_lt_eq.
  - by apply find_ge_eq.
  - by apply greatest_item_with, split_greatest_lt.
  - by apply least_item_with, split_least_ge.
Qed.

Lemma X8_sorted_find_lt_ge_witness :
  ∃ lt ge, find_lt Examples.sorted_135 3 = Ok lt ∧
           find_ge Examples.sorted_135 3 = Ok ge ∧
           greatest_with (λ k', k' < 3) (getitem Examples.sorted_135)
             (iter Examples.sorted_135) lt ∧
           least_with (λ k', 3 ≤ k') (getitem Examples.sorted_135)
             (iter Examples.sorted_135) ge.
Proof.
  apply (X8_sorted_find_lt_ge Examples.sorted_135 3).
  apply sorted_135_reachable.
Defined.

(** X9: on a reachable SortedTableMap, for every [k] other than the least
    key of the map, [find_le(k)] returns the pair of the greatest key that
    is at most [k], and [None] when there is no such key. *)
Theorem X9_sorted_find_le tbl k :
  reachable tbl → (∀ v, find_min tbl ≠ Ok (Some (k, v))) →
  ∃ r, find_le tbl k = Ok r ∧
       greatest_with (λ k', k' ≤ k) (getitem tbl) (iter tbl) r.
Proof.
  intros Hr Hmin. pose proof (sorted_reachable_inv _ Hr) as Hs.
  destruct (find_index_spec tbl k Hs) as (j & Hj & Hsplit).
  destruct (find_le_item tbl k j Hs Hsplit Hj) as (r & Hle & Hmax).
  - intros it Hit Heq. apply (Hmin (value it)).
    rewrite find_min_eq, Hit. simpl. unfold pair_of. by rewrite Heq.
  - exists (pair_of <$> r). split; [done|]. by apply greatest_item_with.
Qed.

Lemma X9_sorted_find_le_witness :
  ∃ r, find_le Examples.sorted_135 4 = Ok r ∧
       greatest_with (λ k', k' ≤ 4) (getitem Examples.sorted_135)
         (iter Examples.sorted_135) r.
Proof.
  apply (X9_sorted_find_le Examples.sorted_135 4).
  - apply sorted_135_reachable.
  - intros v H. discriminate H.
Defined.

(** X10: on a reachable SortedTableMap [find_gt(k)] never returns a pair:
    it returns [None] exactly when every key of the map is less than [k]
    (and raises otherwise). *)
Theorem X10_sorted_find_gt_none tbl k :
  reachable tbl →
  (find_gt tbl k = Ok None ↔ ∀ k', k' ∈ iter tbl → k' < k) ∧
  (∀ p, find_gt tbl k ≠ Ok (Some p)).
Proof.
  intros Hr. pose proof (sorted_reachable_inv _ Hr) as Hs.
  assert (∀ r, find_gt tbl k = Ok r → ∀ k', k' ∈ iter tbl → k' < k) as Hret.
  { intros r Hgt k' Hk'. apply list_elem_of_fmap in Hk' as (it & -> & Hit).
    destruct (Z.ltb_spec (key it) k) as [|Hle]; [done|].
    rewrite (find_gt_raises tbl k it Hr Hit Hle) in Hgt. done. }
  split; [split|].
  - apply Hret.
  - by apply find_gt_all_below.
  - intros p Hgt. pose proof (Hret _ Hgt) as Hall.
    rewrite (find_gt_all_below tbl k Hs Hall) in Hgt. done.
Qed.

Lemma X10_sorted_find_gt_none_witness :
  (find_gt Examples.sorted_135 9 = Ok None ↔
     ∀ k', k' ∈ iter Examples.sorted_135 → k' < 9) ∧
  (∀ p, find_gt Examples.sorted_135 9 ≠ Ok (Some p)).
Proof.
  apply (X10_sorted_find_gt_none Examples.sorted_135 9).
  apply sorted_135_reachable.
Defined.

End sorted_neighbour_theorems.

(** ** The hash maps: other keys, missing keys *)

Section hash_more.
Import HashMapBase.
Context (py_hash : Z → Z) {B : Type} `{!Bucket B}.
Context (cell_items : B → list Item) (W P : t B → Prop).
Context `{!BucketLaws py_hash cell_items W P}.

Lemma hash_getitem_iff (m : t B) k v :
  inv cell_items W m →
  (∃ fuel, getitem py_hash fuel m k = Some (Ok v)) ↔
  mkItem k v ∈ all_items cell_items m.
Proof.
  intros Hinv. split.
  - intros [fuel Hget]. by apply (getitem_partial py_hash cell_items W P fuel).
  - intros Hin. exists (Z.to_nat (capacity m)).
    apply (getitem_total py_hash cell_items W P); [done|lia|done].
Qed.

Lemma hash_setitem_frame fuel (m : t B) k v m' :
  reachable py_hash m → setitem py_hash fuel m k v = Some (Ok m') →
  (∀ k' v', k' ≠ k →
     (∃ f, getitem py_hash f m' k' = Some (Ok v')) ↔
     (∃ f, getitem py_hash f m k' = Some (Ok v'))) ∧
  (∀ k', k' ∈ iter m' ↔ k' = k ∨ k' ∈ iter m) ∧
  len m' = len m + (if decide (k ∈ iter m) then 0 else 1) ∧
  capacity m ≤ capacity m'.
Proof.
  intros Hr Hset.
  destruct (reachable_inv py_hash cell_items W P m Hr) as [Hinv _].
  destruct (setitem_partial py_hash cell_items W P _ _ _ _ _ Hinv Hset)
    as (Hinv' & Hperm & Hcap & _).
  rewrite !(iter_items py_hash cell_items W P).
  split_and!; [| | |done].
  - intros k' v' Hne. rewrite !hash_getitem_iff by done.
    rewrite Hperm, elem_of_cons, elem_of_without. simpl.
    split; [intros [Heq|[? _]]; [by injection Heq|done]|]. intros Hin. by right.
  - intros k'. rewrite !list_elem_of_fmap. split.
    + intros (it & -> & Hit). rewrite Hperm in Hit.
      apply elem_of_cons in Hit as [->|Hit]; [by left|].
      apply elem_of_without in Hit as [Hit _]. right. eauto.
    + intros [->|(it & -> & Hit)].
      * exists (mkItem k v). split; [done|]. rewrite Hperm. by left.
      * destruct (decide (key it = k)) as [Heq|Hne].
        -- exists (mkItem k v). split; [done|]. rewrite Hperm. by left.
        -- exists it. split; [done|]. rewrite Hperm. right.
           by apply elem_of_without.
  - unfold len. rewrite (inv_n _ _ _ Hinv), (inv_n _ _ _ Hinv'), Hperm. simpl.
    case_decide as Hk.
    + rewrite (without_length k (all_items cell_items m));
        [lia|by destruct Hinv|done].
    + rewrite without_absent by done. lia.
Qed.

Lemma hash_delitem_frame fuel (m : t B) k m' :
  reachable py_hash m → delitem py_hash fuel m k = Some (Ok m') →
  k ∈ iter m ∧ (k ∉ iter m') ∧
  (∀ k' v', k' ≠ k →
     (∃ f, getitem py_hash f m' k' = Some (Ok v')) ↔
     (∃ f, getitem py_hash f m k' = Some (Ok v'))) ∧
  (∀ f v, getitem py_hash f m' k ≠ Some (Ok v)) ∧
  len m' = len m - 1 ∧
  capacity m' = capacity m.
Proof.
  intros Hr Hdel.
  destruct (reachable_inv py_hash cell_items W P m Hr) as [Hinv _].
  destruct (delitem_partial py_hash cell_items W P _ _ _ _ Hinv Hdel)
    as (Hinv' & Hperm & Hk & Hcap & Hn).
  rewrite !(iter_items py_hash cell_items W P).
  assert (k ∉ key <$> all_items cell_items m') as Hgone.
  { rewrite Hperm. apply without_keys. }
  split_and!; [done|done| | |done|done].
  - intros k' v' Hne. rewrite !hash_getitem_iff by done.
    rewrite Hperm, elem_of_without. simpl. tauto.
  - intros f v Hget. apply Hgone, list_elem_of_fmap. exists (mkItem k v).
    split; [done|]. by apply (getitem_partial py_hash cell_items W P f).
Qed.

End hash_more.

Section chain_more.
Import HashMapBase.
Context (py_hash : Z → Z).

Lemma chain_bucket_absent (m : t ChainHashMap.cell) (i : nat) b k :
  table m !! i = Some (Some b) → k ∉ ChainHashMap.iter m → k ∉ key <$> b.
Proof.
  intros Hi Hk Hin. apply Hk. rewrite chain_iter_items.
  apply list_elem_of_fmap in Hin as (it & -> & Hit).
  apply list_elem_of_fmap. exists it. split; [done|].
  apply elem_of_all_items. by exists i, (Some b).
Qed.

Lemma chain_missing_key fuel (m : t ChainHashMap.cell) k :
  reachable py_hash m → k ∉ ChainHashMap.iter m →
  getitem py_hash fuel m k = Some (Raise KeyError) ∧
  delitem py_hash fuel m k = Some (Raise KeyError).
Proof.
  intros Hr Hk.
  destruct (reachable_inv py_hash chain_items (chain_wf py_hash) chain_any m Hr)
    as [Hinv _].
  destruct (hash_ok py_hash _ _ m k Hinv) as (j & Hj & Hrange).
  destruct (list_get_in_range (table m) j) as (c & Hc & Hget); [done|].
  unfold getitem, delitem. rewrite Hj. cbn [fbind].
  change (HashMapBase.bucket_getitem fuel m j k)
    with (Some (ChainHashMap.bucket_getitem m j k)).
  change (HashMapBase.bucket_delitem fuel m j k)
    with (Some (ChainHashMap.bucket_delitem m j k)).
  unfold ChainHashMap.bucket_getitem, ChainHashMap.bucket_delitem.
  rewrite Hget. simpl. destruct c as [b|]; [|done].
  pose proof (chain_bucket_absent m _ b k Hc Hk) as Hb.
  rewrite (getitem_absent_keys b k Hb), (unsorted_delitem_absent b k Hb). done.
Qed.

End chain_more.

Section probe_more.
Import HashMapBase ProbeHashMap.
Context (py_hash : Z → Z).

Lemma probe_missing_key fuel (m : t slot) k :
  reachable py_hash m → Empty ∈ table m → capacity m ≤ Z.of_nat fuel →
  k ∉ ProbeHashMap.iter m →
  getitem py_hash fuel m k = Some (Raise KeyError) ∧
  delitem py_hash fuel m k = Some (Raise KeyError).
Proof.
  intros Hr Hempty Hf Hk.
  destruct (reachable_inv py_hash probe_items (probe_wf py_hash) probe_clean m Hr)
    as [Hinv _].
  destruct (hash_ok py_hash _ _ m k Hinv) as (j & Hj & Hrange).
  destruct (find_slot_empty fuel m j k Hrange Hempty Hf) as [[found s] Hslot].
  assert (found = false) as ->.
  { destruct found; [|done]. exfalso.
    destruct (find_slot_result py_hash fuel m j k true s) as [_ (it & Hit & Heq)];
      [by destruct Hinv|done|done|].
    apply Hk. rewrite probe_iter_items. apply list_elem_of_fmap.
    exists it. split; [done|]. by eapply probe_elem_of_full. }
  unfold getitem, delitem. rewrite Hj. cbn [fbind].
  change (HashMapBase.bucket_getitem fuel m j k)
    with (ProbeHashMap.bucket_getitem fuel m j k).
  change (HashMapBase.bucket_delitem fuel m j k)
    with (ProbeHashMap.bucket_delitem fuel m j k).
  unfold ProbeHashMap.bucket_getitem, ProbeHashMap.bucket_delitem.
  by rewrite Hslot.
Qed.

(** The states of a ProbeHashMap on which [__delitem__] was never
    called. *)
Inductive set_only : t slot → Prop :=
| set_only_init cap p a b :
    2 ≤ cap → 2 ≤ p → 1 ≤ a < p → 0 ≤ b < p → set_only (init cap p a b)
| set_only_set fuel m k v m' :
    set_only m → setitem py_hash fuel m k v = Some (Ok m') → set_only m'.

Lemma set_only_reachable m : set_only m → reachable py_hash m.
Proof.
  induction 1; [by apply reach_init|by eapply reach_set].
Qed.

Lemma set_only_clean m : set_only m → probe_clean m.
Proof.
  induction 1 as [cap p a b|fuel m k v m' Hm IH Hset].
  - unfold probe_clean, init. cbn [table].
    intros Hin. apply elem_of_replicate in Hin as [Hin _]. done.
  - destruct (reachable_inv py_hash probe_items (probe_wf py_hash) probe_clean m
                (set_only_reachable m Hm)) as [Hinv _].
    destruct (setitem_partial py_hash probe_items (probe_wf py_hash) probe_clean
                _ _ _ _ _ Hinv Hset) as (_ & _ & _ & HP).
    by apply HP.
Qed.

Lemma set_only_has_empty m : set_only m → Empty ∈ table m.
Proof.
  intros Hm.
  destruct (reachable_inv py_hash probe_items (probe_wf py_hash) probe_clean m
              (set_only_reachable m Hm)) as [Hinv Hload].
  apply (probe_has_empty py_hash); [done|by apply set_only_clean|].
  destruct Hinv. lia.
Qed.

End probe_more.

Section hash_theorems.
Import HashMapBase.

(** X11: a key that is not in a reachable hash map.  On a ChainHashMap
    [m[k]] and [del m[k]] raise [KeyError], whatever the fuel.  On a
    ProbeHashMap whose table has an empty cell they raise [KeyError] too,
    within [capacity] steps of the probe loop. *)
Theorem X11_hash_missing_key (py_hash : Z → Z) :
  (∀ fuel (m : t ChainHashMap.cell) k,
     reachable py_hash m → k ∉ ChainHashMap.iter m →
     getitem py_hash fuel m k = Some (Raise KeyError) ∧
     delitem py_hash fuel m k = Some (Raise KeyError)) ∧
  (∀ fuel (m : t ProbeHashMap.slot) k,
     reachable py_hash m → ProbeHashMap.Empty ∈ table m →
     capacity m ≤ Z.of_nat fuel → k ∉ ProbeHashMap.iter m →
     getitem py_hash fuel m k = Some (Raise KeyError) ∧
     delitem py_hash fuel m k = Some (Raise KeyError)).
Proof.
  split.
  - intros fuel m k. apply chain_missing_key.
  - intros fuel m k. apply probe_missing_key.
Qed.

Lemma X11_hash_missing_key_witness :
  (getitem int_hash 0 Examples.empty_chain 3 = Some (Raise KeyError) ∧
   delitem int_hash 0 Examples.empty_chain 3 = Some (Raise KeyError)) ∧
  (getitem int_hash 11 Examples.probe_pair 22 = Some (Raise KeyError) ∧
   delitem int_hash 11 Examples.probe_pair 22 = Some (Raise KeyError)).
Proof.
  destruct (X11_hash_missing_key int_hash) as [Hc Hp]. split.
  - apply Hc; [apply empty_chain_reachable|]. apply not_elem_of_nil.
  - apply Hp; [apply probe_pair_reachable| |by vm_compute|].
    + apply (list_elem_of_lookup_2 _ 2%nat). reflexivity.
    + intros Hin. vm_compute in Hin.
      apply elem_of_cons in Hin as [Hin|Hin]; [discriminate Hin|].
      apply elem_of_cons in Hin as [Hin|Hin]; [discriminate Hin|].
      by apply elem_of_nil in Hin.
Defined.

(** X12: when [m[k] = v] returns on a reachable ChainHashMap or
    ProbeHashMap, resize included, every other key has a value afterwards
    exactly when it had one before, and the same one; the keys are the
    former keys and [k]; [len] has grown by one exactly when [k] is new;
    and the capacity has not shrunk. *)
Theorem X12_hash_setitem_frame (py_hash : Z → Z) :
  (∀ fuel (m : t ChainHashMap.cell) k v m',
     reachable py_hash m → setitem py_hash fuel m k v = Some (Ok m') →
     (∀ k' v', k' ≠ k →
        (∃ f, getitem py_hash f m' k' = Some (Ok v')) ↔
        (∃ f, getitem py_hash f m k' = Some (Ok v'))) ∧
     (∀ k', k' ∈ ChainHashMap.iter m' ↔ k' = k ∨ k' ∈ ChainHashMap.iter m) ∧
     len m' = len m + (if decide (k ∈ ChainHashMap.iter m) then 0 else 1) ∧
     capacity m ≤ capacity m') ∧
  (∀ fuel (m : t ProbeHashMap.slot) k v m',
     reachable py_hash m → setitem py_hash fuel m k v = Some (Ok m') →
     (∀ k' v', k' ≠ k →
        (∃ f, getitem py_hash f m' k' = Some (Ok v')) ↔
        (∃ f, getitem py_hash f m k' = Some (Ok v'))) ∧
     (∀ k', k' ∈ ProbeHashMap.iter m' ↔ k' = k ∨ k' ∈ ProbeHashMap.iter m) ∧
     len m' = len m + (if decide (k ∈ ProbeHashMap.iter m) then 0 else 1) ∧
     capacity m ≤ capacity m').
Proof.
  split.
  - intros fuel m k v m' Hr Hset.
    exact (hash_setitem_frame py_hash chain_items (chain_wf py_hash) chain_any
             fuel m k v m' Hr Hset).
  - intros fuel m k v m' Hr Hset.
    exact (hash_setitem_frame py_hash probe_items (probe_wf py_hash) probe_clean
             fuel m k v m' Hr Hset).
Qed.

Lemma X12_hash_setitem_frame_witness :
  (∃ m', setitem int_hash 44 Examples.empty_chain 7 70 = Some (Ok m') ∧
         len m' = len Examples.empty_chain
                  + (if decide (7 ∈ ChainHashMap.iter Examples.empty_chain)
                     then 0 else 1)) ∧
  (∃ m', setitem int_hash 44 Examples.probe_pair 11 8 = Some (Ok m') ∧
         ((∃ f, getitem int_hash f m' 0 = Some (Ok 5)) ↔
          (∃ f, getitem int_hash f Examples.probe_pair 0 = Some (Ok 5)))).
Proof.
  destruct (X12_hash_setitem_frame int_hash) as [Hc Hp]. split.
  - destruct (chain_setitem_total int_hash 44 Examples.empty_chain 7 70)
      as [m' Hset]; [apply empty_chain_reachable|by vm_compute|].
    exists m'. split; [done|].
    by destruct (Hc 44%nat Examples.empty_chain 7 70 m'
                   empty_chain_reachable Hset) as (_ & _ & Hlen & _).
  - destruct (probe_setitem_total int_hash 44 Examples.probe_pair 11 8)
      as [m' Hset]; [apply probe_pair_reachable| |by vm_compute|].
    { right. apply (list_elem_of_lookup_2 _ 1%nat). reflexivity. }
    exists m'. split; [done|].
    destruct (Hp 44%nat Examples.probe_pair 11 8 m'
                probe_pair_reachable Hset) as (Hframe & _).
    apply Hframe. lia.
Defined.

(** X13: when [del m[k]] returns on a reachable ChainHashMap or
    ProbeHashMap, [k] was a key of the map and is none afterwards, [m[k]]
    returns no value any more, every other key has a value afterwards
    exactly when it had one before, and the same one, [len] is one less
    and the capacity is unchanged.  [del m[k]] returns for every key of
    the map, within [capacity] steps. *)
Theorem X13_hash_delitem (py_hash : Z → Z) :
  (∀ fuel (m : t ChainHashMap.cell) k m',
     reachable py_hash m → delitem py_hash fuel m k = Some (Ok m') →
     k ∈ ChainHashMap.iter m ∧ (k ∉ ChainHashMap.iter m') ∧
     (∀ k' v', k' ≠ k →
        (∃ f, getitem py_hash f m' k' = Some (Ok v')) ↔
        (∃ f, getitem py_hash f m k' = Some (Ok v'))) ∧
     (∀ f v, getitem py_hash f m' k ≠ Some (Ok v)) ∧
     len m' = len m - 1 ∧ capacity m' = capacity m) ∧
  (∀ fuel (m : t ProbeHashMap.slot) k m',
     reachable py_hash m → delitem py_hash fuel m k = Some (Ok m') →
     k ∈ ProbeHashMap.iter m ∧ (k ∉ ProbeHashMap.iter m') ∧
     (∀ k' v', k' ≠ k →
        (∃ f, getitem py_hash f m' k' = Some (Ok v')) ↔
        (∃ f, getitem py_hash f m k' = Some (Ok v'))) ∧
     (∀ f v, getitem py_hash f m' k ≠ Some (Ok v)) ∧
     len m' = len m - 1 ∧ capacity m' = capacity m) ∧
  (∀ fuel (m : t ChainHashMap.cell) k,
     reachable py_hash m → capacity m ≤ Z.of_nat fuel →
     k ∈ ChainHashMap.iter m → ∃ m', delitem py_hash fuel m k = Some (Ok m')) ∧
  (∀ fuel (m : t ProbeHashMap.slot) k,
     reachable py_hash m → capacity m ≤ Z.of_nat fuel →
     k ∈ ProbeHashMap.iter m → ∃ m', delitem py_hash fuel m k = Some (Ok m')).
Proof.
  split_and!.
  - intros fuel m k m' Hr Hdel.
    exact (hash_delitem_frame py_hash chain_items (chain_wf py_hash) chain_any
             fuel m k m' Hr Hdel).
  - intros fuel m k m' Hr Hdel.
    exact (hash_delitem_frame py_hash probe_items (probe_wf py_hash) probe_clean
             fuel m k m' Hr Hdel).
  - intros fuel m k Hr Hf Hk. rewrite chain_iter_items in Hk.
    destruct (reachable_inv py_hash chain_items (chain_wf py_hash) chain_any
                m Hr) as [Hinv _].
    by apply (delitem_total py_hash chain_items (chain_wf py_hash) chain_any).
  - intros fuel m k Hr Hf Hk. rewrite probe_iter_items in Hk.
    destruct (reachable_inv py_hash probe_items (probe_wf py_hash) probe_clean
                m Hr) as [Hinv _].
    by apply (delitem_total py_hash probe_items (probe_wf py_hash) probe_clean).
Qed.

Lemma X13_hash_delitem_witness :
  ∃ m', delitem int_hash 11 Examples.probe_pair 0 = Some (Ok m') ∧
        (0 ∉ ProbeHashMap.iter m') ∧
        len m' = len Examples.probe_pair - 1 ∧
        capacity m' = capacity Examples.probe_pair.
Proof.
  destruct (X13_hash_delitem int_hash) as (_ & Hp & _ & Hpt).
  destruct (Hpt 11%nat Examples.probe_pair 0) as [m' Hdel];
    [apply probe_pair_reachable|by vm_compute| |].
  { apply (list_elem_of_lookup_2 _ 0%nat). reflexivity. }
  exists m'. split; [done|].
  by destruct (Hp 11%nat Examples.probe_pair 0 m' probe_pair_reachable Hdel)
    as (_ & Hgone & _ & _ & Hlen & Hcap).
Defined.

End hash_theorems.

Section probe_set_only.
Import HashMapBase.

(** X14: a ProbeHashMap on which only [m[k] = v] has been called (no
    [del]) has no [_AVAIL] cell and always an empty one, and every
    operation on it returns within fuel [4 * capacity]: [m[k] = v]
    succeeds, [m[k]] and [del m[k]] succeed or raise [KeyError]. *)
Theorem X14_probe_set_only (py_hash : Z → Z) fuel
  (m : t ProbeHashMap.slot) k v :
  set_only py_hash m → 4 * capacity m ≤ Z.of_nat fuel →
  ProbeHashMap.Empty ∈ table m ∧ (ProbeHashMap.Avail ∉ table m) ∧
  (∃ m', setitem py_hash fuel m k v = Some (Ok m')) ∧
  (getitem py_hash fuel m k = Some (Raise KeyError) ∨
   ∃ v', getitem py_hash fuel m k = Some (Ok v')) ∧
  (delitem py_hash fuel m k = Some (Raise KeyError) ∨
   ∃ m', delitem py_hash fuel m k = Some (Ok m')).
Proof.
  intros Hm Hf.
  pose proof (set_only_reachable py_hash m Hm) as Hr.
  pose proof (set_only_has_empty py_hash m Hm) as Hempty.
  pose proof (set_only_clean py_hash m Hm) as Hclean.
  destruct (reachable_inv py_hash probe_items (probe_wf py_hash) probe_clean m Hr)
    as [Hinv Hload].
  assert (capacity m ≤ Z.of_nat fuel) as Hf' by (destruct Hinv; lia).
  split_and!; [done|done| | |].
  - apply probe_setitem_total; [done|by left|done].
  - destruct (decide (k ∈ ProbeHashMap.iter m)) as [Hk|Hk].
    + right. rewrite probe_iter_items in Hk.
      apply list_elem_of_fmap in Hk as ([k0 v0] & -> & Hit). exists v0.
      by apply (getitem_total py_hash probe_items (probe_wf py_hash) probe_clean).
    + left. by apply probe_missing_key.
  - destruct (decide (k ∈ ProbeHashMap.iter m)) as [Hk|Hk].
    + right. rewrite probe_iter_items in Hk.
      by apply (delitem_total py_hash probe_items (probe_wf py_hash) probe_clean).
    + left. by apply probe_missing_key.
Qed.

Lemma X14_probe_set_only_witness :
  ProbeHashMap.Empty ∈ table Examples.probe_pair ∧
  (ProbeHashMap.Avail ∉ table Examples.probe_pair) ∧
  (∃ m', setitem int_hash 44 Examples.probe_pair 22 9 = Some (Ok m')) ∧
  (getitem int_hash 44 Examples.probe_pair 22 = Some (Raise KeyError) ∨
   ∃ v', getitem int_hash 44 Examples.probe_pair 22 = Some (Ok v')) ∧
  (delitem int_hash 44 Examples.probe_pair 22 = Some (Raise KeyError) ∨
   ∃ m', delitem int_hash 44 Examples.probe_pair 22 = Some (Ok m')).
Proof.
  apply (X14_probe_set_only int_hash 44 Examples.probe_pair 22 9);
    [|by vm_compute].
  apply (set_only_set int_hash 44
           (mk (ProbeHashMap.Full (mkItem 0 5)
                  :: replicate 10 ProbeHashMap.Empty) 1 109345121 1 0) 11 7);
    [|by vm_compute].
  apply (set_only_set int_hash 44 Examples.empty_probe 0 5); [|by vm_compute].
  apply set_only_init; lia.
Defined.

End probe_set_only.

(** ** [_resize] *)

Section hash_resize.
Import HashMapBase.
Context (py_hash : Z → Z) {B : Type} `{!Bucket B}.
Context (cell_items : B → list Item) (W P : t B → Prop).
Context `{!BucketLaws py_hash cell_items W P}.

Lemma hash_resize fuel (m : t B) cap :
  reachable py_hash m → 2 ≤ cap → 2 * n m ≤ cap →
  capacity m ≤ Z.of_nat fuel → cap ≤ Z.of_nat fuel →
  ∃ m', resize py_hash fuel m cap = Some (Ok m') ∧
        (∀ k v, (∃ f, getitem py_hash f m' k = Some (Ok v)) ↔
                (∃ f, getitem py_hash f m k = Some (Ok v))) ∧
        iter m' ≡ₚ iter m ∧ len m' = len m ∧ cap ≤ capacity m' ∧ P m'.
Proof.
  intros Hr Hcap Hn Hf Hf'.
  destruct (reachable_inv py_hash cell_items W P m Hr) as [Hinv _].
  pose proof (inv_fresh py_hash cell_items W P m cap Hcap (inv_prime _ _ _ Hinv))
    as Hfresh.
  pose proof (capacity_fresh m cap) as Hcapf.
  pose proof (all_items_fresh py_hash cell_items W P m cap) as Hnil.
  unfold resize. rewrite resize_with_fresh.
  rewrite (items_total py_hash cell_items W P fuel m Hinv Hf). cbn [fbind].
  destruct (reinsert_noresize py_hash cell_items W P fuel
              (pair_of <$> all_items cell_items m) (fresh m cap)) as [m' Hm'].
  { done. }
  { apply (P_fresh py_hash cell_items W P). }
  { rewrite length_fmap, <- (inv_n _ _ _ Hinv), Hcapf by lia.
    cbn [fresh set_n n]. lia. }
  { rewrite Hcapf; lia. }
  exists m'. split; [done|].
  destruct (reinsert_partial cell_items W P (setitem py_hash fuel)
              (all_items cell_items m) (fresh m cap) m')
    as (Hinv' & Hperm & Hcap' & HP).
  { intros m0 k v m1. apply (setitem_partial py_hash cell_items W P). }
  { done. }
  { by destruct Hinv. }
  { intros k _. rewrite Hnil. apply not_elem_of_nil. }
  { done. }
  rewrite Hnil, app_nil_r in Hperm.
  rewrite !(iter_items py_hash cell_items W P).
  split_and!.
  - intros k v. rewrite !hash_getitem_iff by done. by rewrite Hperm.
  - by rewrite Hperm.
  - unfold len. by rewrite (inv_n _ _ _ Hinv), (inv_n _ _ _ Hinv'), Hperm.
  - rewrite Hcapf in Hcap' by lia. done.
  - apply HP. apply (P_fresh py_hash cell_items W P).
Qed.

End hash_resize.

Section hash_resize_theorem.
Import HashMapBase.

(** X15: [_resize(cap)] on a reachable ChainHashMap or ProbeHashMap, for a
    capacity of at least 2 and at least twice the number of keys, returns
    (fuel: the old and the new capacity); the map then has the same keys
    with the same values and the same [len], and a capacity of at least
    [cap]; a ProbeHashMap has no [_AVAIL] cell left. *)
Theorem X15_hash_resize (py_hash : Z → Z) :
  (∀ fuel (m : t ChainHashMap.cell) cap,
     reachable py_hash m → 2 ≤ cap → 2 * n m ≤ cap →
     capacity m ≤ Z.of_nat fuel → cap ≤ Z.of_nat fuel →
     ∃ m', resize py_hash fuel m cap = Some (Ok m') ∧
           (∀ k v, (∃ f, getitem py_hash f m' k = Some (Ok v)) ↔
                   (∃ f, getitem py_hash f m k = Some (Ok v))) ∧
           ChainHashMap.iter m' ≡ₚ ChainHashMap.iter m ∧
           len m' = len m ∧ cap ≤ capacity m') ∧
  (∀ fuel (m : t ProbeHashMap.slot) cap,
     reachable py_hash m → 2 ≤ cap → 2 * n m ≤ cap →
     capacity m ≤ Z.of_nat fuel → cap ≤ Z.of_nat fuel →
     ∃ m', resize py_hash fuel m cap = Some (Ok m') ∧
           (∀ k v, (∃ f, getitem py_hash f m' k = Some (Ok v)) ↔
                   (∃ f, getitem py_hash f m k = Some (Ok v))) ∧
           ProbeHashMap.iter m' ≡ₚ ProbeHashMap.iter m ∧
           len m' = len m ∧ cap ≤ capacity m' ∧
           (ProbeHashMap.Avail ∉ table m')).
Proof.
  split.
  - intros fuel m cap Hr Hcap Hn Hf Hf'.
    destruct (hash_resize py_hash chain_items (chain_wf py_hash) chain_any
                fuel m cap Hr Hcap Hn Hf Hf')
      as (m' & Hres & Hget & Hiter & Hlen & Hcap' & _).
    by exists m'.
  - intros fuel m cap Hr Hcap Hn Hf Hf'.
    destruct (hash_resize py_hash probe_items (probe_wf py_hash) probe_clean
                fuel m cap Hr Hcap Hn Hf Hf')
      as (m' & Hres & Hget & Hiter & Hlen & Hcap' & Hclean).
    by exists m'.
Qed.

Lemma X15_hash_resize_witness :
  ∃ m', resize int_hash 11 Examples.tombstones 11 = Some (Ok m') ∧
        len m' = len Examples.tombstones ∧
        (ProbeHashMap.Avail ∉ table m').
Proof.
  destruct (X15_hash_resize int_hash) as [_ Hp].
  destruct (Hp 11%nat Examples.tombstones 11)
    as (m' & Hres & _ & _ & Hlen & _ & Hclean);
    [apply tombstones_reachable|lia|by vm_compute|by vm_compute|lia|].
  by exists m'.
Defined.

End hash_resize_theorem.

(** ** [_hash_function] and [_find_slot] *)

Section hash_internals.
Import HashMapBase.

(** X29: on a reachable ChainHashMap or ProbeHashMap [_hash_function(k)]
    never divides by zero and returns an index of the table, for every
    key, whatever [hash] is. *)
Theorem X29_hash_function_range (py_hash : Z → Z) :
  (∀ (m : t ChainHashMap.cell) k, reachable py_hash m →
     ∃ j, hash_function py_hash m k = Ok j ∧ 0 ≤ j < capacity m) ∧
  (∀ (m : t ProbeHashMap.slot) k, reachable py_hash m →
     ∃ j, hash_function py_hash m k = Ok j ∧ 0 ≤ j < capacity m).
Proof.
  split.
  - intros m k Hr.
    destruct (reachable_inv py_hash chain_items (chain_wf py_hash) chain_any
                m Hr) as [Hinv _].
    exact (hash_ok py_hash _ _ m k Hinv).
  - intros m k Hr.
    destruct (reachable_inv py_hash probe_items (probe_wf py_hash) probe_clean
                m Hr) as [Hinv _].
    exact (hash_ok py_hash _ _ m k Hinv).
Qed.

Lemma X29_hash_function_range_witness :
  ∃ j, hash_function int_hash Examples.probe_pair (-7) = Ok j ∧
       0 ≤ j < capacity Examples.probe_pair.
Proof.
  destruct (X29_hash_function_range int_hash) as [_ Hp].
  apply Hp, probe_pair_reachable.
Defined.

(** X30: [_find_slot(j, k)] on a reachable ProbeHashMap, from the home
    cell [j] of [k].  When it returns [(True, s)], cell [s] holds the item
    of [k]; when it returns [(False, s)], [k] is not in the map and cell
    [s] is empty or [_AVAIL].  For a key of the map it returns
    [(True, s)] within [capacity] iterations. *)
Theorem X30_probe_find_slot (py_hash : Z → Z) (m : t ProbeHashMap.slot) k j :
  reachable py_hash m → hash_function py_hash m k = Ok j →
  (∀ fuel found s,
     ProbeHashMap.find_slot fuel m j k = Some (Ok (found, s)) →
     0 ≤ s < capacity m ∧
     if found
     then ∃ it, table m !! Z.to_nat s = Some (ProbeHashMap.Full it) ∧ key it = k
     else (k ∉ ProbeHashMap.iter m) ∧
          (table m !! Z.to_nat s = Some ProbeHashMap.Avail ∨
           table m !! Z.to_nat s = Some ProbeHashMap.Empty)) ∧
  (∀ fuel, k ∈ ProbeHashMap.iter m → capacity m ≤ Z.of_nat fuel →
     ∃ s, ProbeHashMap.find_slot fuel m j k = Some (Ok (true, s))).
Proof.
  intros Hr Hj.
  destruct (reachable_inv py_hash probe_items (probe_wf py_hash) probe_clean
              m Hr) as [Hinv _].
  split.
  - intros fuel found s Hslot.
    destruct (find_slot_result py_hash fuel m j k found s) as [Hs Hres];
      [by destruct Hinv|done|done|].
    split; [done|]. destruct found; [done|].
    destruct Hres as (Habs & Hcell & _). rewrite probe_iter_items. done.
  - intros fuel Hk Hf. rewrite probe_iter_items in Hk.
    apply list_elem_of_fmap in Hk as (it & -> & Hit).
    destruct (find_slot_present py_hash fuel m j (key it) it Hinv Hj Hit eq_refl Hf)
      as (s & Hs & _).
    by exists s.
Qed.

Lemma X30_probe_find_slot_witness :
  (∀ fuel found s,
     ProbeHashMap.find_slot fuel Examples.probe_pair 0 11
       = Some (Ok (found, s)) →
     0 ≤ s < capacity Examples.probe_pair ∧
     if found
     then ∃ it, table Examples.probe_pair !! Z.to_nat s
                  = Some (ProbeHashMap.Full it) ∧ key it = 11
     else (11 ∉ ProbeHashMap.iter Examples.probe_pair) ∧
          (table Examples.probe_pair !! Z.to_nat s = Some ProbeHashMap.Avail ∨
           table Examples.probe_pair !! Z.to_nat s = Some ProbeHashMap.Empty)) ∧
  (∀ fuel, 11 ∈ ProbeHashMap.iter Examples.probe_pair →
     capacity Examples.probe_pair ≤ Z.of_nat fuel →
     ∃ s, ProbeHashMap.find_slot fuel Examples.probe_pair 0 11
          = Some (Ok (true, s))).
Proof.
  apply (X30_probe_find_slot int_hash Examples.probe_pair 11 0);
    [apply probe_pair_reachable|reflexivity].
Defined.

End hash_internals.

(** ** TreeMap: other keys, missing keys, order *)

Section tree_more.
Import LinkedBinaryTree TreeMap.

Lemma without_Forall k (l : list Item) :
  Forall (λ x, key x ≠ k) l → without k l = l.
Proof. intros H. by apply filter_all. Qed.

Lemma bst_insert_perm t k v :
  bst t → inorder (bst_insert t k v) ≡ₚ mkItem k v :: without k (inorder t).
Proof.
  induction t as [|l IHl e r IHr]; [done|].
  intros (Hl & Hr & Hlt & Hgt). simpl bst_insert. simpl inorder.
  rewrite without_app. unfold without at 2. rewrite filter_cons.
  fold (without k (inorder r)).
  destruct (Z.eqb_spec k (key e)) as [->|Hne].
  - rewrite decide_False by (intros ?; done). simpl.
    rewrite !without_Forall.
    + by rewrite Permutation_middle.
    + eapply Forall_impl; [exact Hgt|]. simpl. lia.
    + eapply Forall_impl; [exact Hlt|]. simpl. lia.
  - rewrite decide_True by done.
    destruct (Z.ltb_spec k (key e)) as [Hk|Hk]; simpl.
    + rewrite (IHl Hl). rewrite (without_Forall k (inorder r)); [done|].
      eapply Forall_impl; [exact Hgt|]. simpl. lia.
    + rewrite (IHr Hr). rewrite (without_Forall k (inorder l)).
      * rewrite (Permutation_middle (inorder l)).
        apply Permutation_app_head, Permutation_swap.
      * eapply Forall_impl; [exact Hlt|]. simpl. lia.
Qed.

Lemma bst_lookup_absent t k :
  k ∉ key <$> inorder t → bst_lookup t k = Raise KeyError.
Proof.
  induction t as [|l IHl e r IHr]; [done|]. simpl.
  rewrite fmap_app, fmap_cons, elem_of_app, elem_of_cons. intros Hk.
  destruct (Z.eqb_spec k (key e)); [tauto|].
  destruct (k <? key e); [apply IHl|apply IHr]; tauto.
Qed.

Lemma tree_getitem_eq t t' k :
  bst t → bst t' →
  (∀ v, mkItem k v ∈ inorder t ↔ mkItem k v ∈ inorder t') →
  getitem t k = getitem t' k.
Proof.
  intros Hb Hb' Hiff. rewrite !getitem_lookup.
  destruct (decide (k ∈ key <$> inorder t)) as [Hin|Hout].
  - apply list_elem_of_fmap in Hin as ([k0 v] & -> & Hit). simpl.
    transitivity (Ok (A:=Z) v); [|symmetry].
    + by apply bst_lookup_elem.
    + apply bst_lookup_elem; [done|]. by apply Hiff.
  - rewrite (bst_lookup_absent t k Hout). symmetry.
    apply bst_lookup_absent. intros Hin. apply Hout.
    apply list_elem_of_fmap in Hin as ([k0 v] & -> & Hit). simpl.
    apply list_elem_of_fmap. exists (mkItem k0 v). split; [done|]. by apply Hiff.
Qed.

Lemma tree_delitem_absent t k :
  getitem t k = Raise KeyError → delitem t k = Raise KeyError.
Proof.
  unfold getitem, delitem. destruct (is_empty t); [done|]. simpl.
  destruct (root t) as [rt|]; [|done].
  destruct (element t (subtree_search t rt k)) as [e|]; simpl; [|by intros [= ->]].
  by destruct (k =? key e).
Qed.

Lemma tree_delitem_present t k v :
  bst t → getitem t k = Ok v →
  ∃ t', delitem t k = Ok t' ∧ bst t' ∧ inorder t' = without k (inorder t).
Proof.
  intros Hb. unfold getitem, delitem. destruct (is_empty t); [done|]. simpl.
  destruct (root t) as [rt|]; [|done].
  destruct (element t (subtree_search t rt k)) as [e|] eqn:He; simpl; [|done].
  destruct (Z.eqb_spec k (key e)) as [->|]; [|done]. intros _.
  assert (subtree t (subtree_search t rt (key e)) ≠ Leaf) as Hp.
  { unfold element in He. by destruct (subtree t _). }
  destruct (delete_bst t _ Hb Hp) as (t' & x & Hdel & Hx & Hb' & Hin).
  rewrite He in Hx. injection Hx as <-. by exists t'.
Qed.

(** X16: in every reachable state of TreeMap the iteration returns and
    yields the keys in strictly increasing order. *)
Theorem X16_tree_iteration_sorted t :
  reachable t → ∃ ks, iter t = Some (Ok ks) ∧ StronglySorted Z.lt ks.
Proof.
  intros Hr. exists (key <$> inorder t). split; [apply tree_iter_inorder|].
  by apply bst_keys_sorted, tree_reachable_bst.
Qed.

Lemma X16_tree_iteration_sorted_witness :
  ∃ ks, iter Examples.tree_315 = Some (Ok ks) ∧ StronglySorted Z.lt ks.
Proof.
  apply (X16_tree_iteration_sorted Examples.tree_315), tree_315_reachable.
Defined.

(** X17: for a key that the iteration of a TreeMap does not yield, [m[k]]
    and [del m[k]] raise [KeyError]. *)
Theorem X17_tree_missing_key t k ks :
  iter t = Some (Ok ks) → k ∉ ks →
  getitem t k = Raise KeyError ∧ delitem t k = Raise KeyError.
Proof.
  rewrite tree_iter_inorder. intros [= <-] Hk.
  assert (getitem t k = Raise KeyError) as Hget.
  { rewrite getitem_lookup. by apply bst_lookup_absent. }
  split; [done|]. by apply tree_delitem_absent.
Qed.

Lemma X17_tree_missing_key_witness :
  getitem Examples.tree_315 4 = Raise KeyError ∧
  delitem Examples.tree_315 4 = Raise KeyError.
Proof.
  apply (X17_tree_missing_key Examples.tree_315 4 [1; 3; 5]); [reflexivity|].
  intros Hin.
  apply elem_of_cons in Hin as [Hin|Hin]; [discriminate Hin|].
  apply elem_of_cons in Hin as [Hin|Hin]; [discriminate Hin|].
  apply elem_of_cons in Hin as [Hin|Hin]; [discriminate Hin|].
  by apply elem_of_nil in Hin.
Defined.

End tree_more.

Section tree_frame.
Import LinkedBinaryTree TreeMap.

(** X18: when [m[k]] has a value on a reachable TreeMap, [del m[k]]
    returns; afterwards [m[k]] raises [KeyError], every other key has the
    value it had, the iteration is the former one without [k], and the
    tree has one node less. *)
Theorem X18_tree_delitem t k v :
  reachable t → getitem t k = Ok v →
  ∃ t', delitem t k = Ok t' ∧
        getitem t' k = Raise KeyError ∧
        (∀ k', k' ≠ k → getitem t' k' = getitem t k') ∧
        (∃ ks, iter t = Some (Ok ks) ∧
               iter t' = Some (Ok (filter (λ k', k' ≠ k) ks))) ∧
        len t = S (len t').
Proof.
  intros Hr Hget. pose proof (tree_reachable_bst _ Hr) as Hb.
  destruct (tree_delitem_present t k v Hb Hget) as (t' & Hdel & Hb' & Hin).
  assert (mkItem k v ∈ inorder t) as Hkv.
  { apply bst_lookup_elem; [done|]. by rewrite <- getitem_lookup. }
  exists t'. split_and!; [done| | | |].
  - rewrite getitem_lookup. apply bst_lookup_absent. rewrite Hin.
    apply without_keys.
  - intros k' Hne. apply tree_getitem_eq; [done..|].
    intros v'. rewrite Hin, elem_of_without. simpl. tauto.
  - exists (key <$> inorder t). split; [apply tree_iter_inorder|].
    rewrite tree_iter_inorder, Hin. by rewrite keys_without.
  - rewrite !len_inorder, Hin. apply without_length.
    + by apply keys_sorted_NoDup, bst_keys_sorted.
    + apply list_elem_of_fmap. by exists (mkItem k v).
Qed.

Lemma X18_tree_delitem_witness :
  ∃ t', delitem Examples.tree_315 3 = Ok t' ∧
        getitem t' 3 = Raise KeyError ∧
        (∀ k', k' ≠ 3 → getitem t' k' = getitem Examples.tree_315 k') ∧
        (∃ ks, iter Examples.tree_315 = Some (Ok ks) ∧
               iter t' = Some (Ok (filter (λ k', k' ≠ 3) ks))) ∧
        len Examples.tree_315 = S (len t').
Proof.
  apply (X18_tree_delitem Examples.tree_315 3 30); [|reflexivity].
  apply tree_315_reachable.
Defined.

(** X19: [m[k] = v] on a reachable TreeMap returns and leaves the value
    of every other key as it was; the tree has one node more exactly when
    [k] is new. *)
Theorem X19_tree_setitem_frame t k v :
  reachable t →
  ∃ t', setitem t k v = Ok t' ∧
        (∀ k', k' ≠ k → getitem t' k' = getitem t k') ∧
        (getitem t k = Raise KeyError → len t' = S (len t)) ∧
        (∀ v0, getitem t k = Ok v0 → len t' = len t).
Proof.
  intros Hr. pose proof (tree_reachable_bst _ Hr) as Hb.
  pose proof (bst_insert_perm t k v Hb) as Hperm.
  exists (bst_insert t k v). split_and!; [apply setitem_insert| | |].
  - intros k' Hne. apply tree_getitem_eq; [by apply bst_insert_bst|done|].
    intros v'. rewrite Hperm, elem_of_cons, elem_of_without. simpl.
    split; [intros [Heq|[? _]]; [by injection Heq|done]|]. intros Hin. by right.
  - intros Habs. rewrite getitem_lookup in Habs.
    rewrite !len_inorder, Hperm. simpl.
    rewrite without_absent; [done|].
    intros Hin. apply list_elem_of_fmap in Hin as ([k0 v0] & -> & Hit).
    apply (bst_lookup_elem _ _ _ Hb) in Hit. simpl in Habs. by rewrite Hit in Habs.
  - intros v0 Hv0. rewrite getitem_lookup in Hv0.
    rewrite !len_inorder, Hperm. simpl.
    apply (bst_lookup_elem _ _ _ Hb) in Hv0.
    symmetry. apply without_length.
    + by apply keys_sorted_NoDup, bst_keys_sorted.
    + apply list_elem_of_fmap. by exists (mkItem k v0).
Qed.

Lemma X19_tree_setitem_frame_witness :
  ∃ t', setitem Examples.tree_315 4 40 = Ok t' ∧
        (∀ k', k' ≠ 4 → getitem t' k' = getitem Examples.tree_315 k') ∧
        (getitem Examples.tree_315 4 = Raise KeyError →
         len t' = S (len Examples.tree_315)) ∧
        (∀ v0, getitem Examples.tree_315 4 = Ok v0 →
               len t' = len Examples.tree_315).
Proof.
  apply (X19_tree_setitem_frame Examples.tree_315 4 40), tree_315_reachable.
Defined.

End tree_frame.

(** ** TreeMap: positions in iteration order *)

Section tree_positions.
Import LinkedBinaryTree TreeMap.

(** The element before index [i]. *)
Definition pred_lookup {A} (l : list A) (i : nat) : option A :=
  match i with O => None | S j => l !! j end.

(** [o] is the position that holds the key [k]; both are [None]
    together. *)
Definition position_of (t : tree) (o : option position) (k : option Z)
  : Prop :=
  match o with
  | None => k = None
  | Some q => ∃ y, element t q = Ok y ∧ k = Some (key y)
  end.

Lemma entries_last t :
  t ≠ Leaf →
  ∃ it, entries t !! pred (length (entries t))
        = Some (subtree_last_in t [], it).
Proof.
  induction t as [|l IHl e r IHr]; intros Hne; [done|].
  rewrite subtree_last_in_Node. simpl entries.
  rewrite length_app, length_fmap. simpl. rewrite length_fmap.
  destruct (tree_leaf_or_node r) as [->|Hr].
  - exists e. simpl. rewrite lookup_app_r by (rewrite length_fmap; lia).
    rewrite length_fmap.
    by replace (pred (length (entries l) + 1) - length (entries l))%nat
      with 0%nat by lia.
  - rewrite tree_case_node by done. destruct (IHr Hr) as [it Hit].
    exists it. pose proof (lookup_lt_Some _ _ _ Hit) as Hlt.
    rewrite lookup_app_r by (rewrite length_fmap; lia). rewrite length_fmap.
    replace (pred (length (entries l) + S (length (entries r)))
             - length (entries l))%nat
      with (S (pred (length (entries r)))) by lia.
    simpl. by rewrite list_lookup_fmap, Hit.
Qed.

Lemma last_entries t :
  TreeMap.last t = fst <$> entries t !! pred (length (entries t)).
Proof.
  destruct t as [|l e r]; [done|].
  unfold TreeMap.last. replace (0 <? len (Node l e r))%nat with true.
  - destruct (entries_last (Node l e r)) as [it ->]; done.
  - symmetry. apply Nat.ltb_lt. simpl. lia.
Qed.

Lemma entries_complete t q :
  subtree t q ≠ Leaf → ∃ i it, entries t !! i = Some (q, it).
Proof.
  revert q. induction t as [|l IHl e r IHr]; intros q Hq.
  { by destruct q. }
  destruct q as [|d q].
  - exists (length (entries l)), e. simpl entries.
    rewrite lookup_app_r by (rewrite length_fmap; lia). rewrite length_fmap.
    by rewrite Nat.sub_diag.
  - destruct d; simpl in Hq.
    + destruct (IHl q Hq) as (i & it & Hi). exists i, it. simpl entries.
      rewrite lookup_app_l by (rewrite length_fmap; by eapply lookup_lt_Some).
      by rewrite list_lookup_fmap, Hi.
    + destruct (IHr q Hq) as (i & it & Hi).
      exists (length (entries l) + S i)%nat, it. simpl entries.
      rewrite lookup_app_r by (rewrite length_fmap; lia). rewrite length_fmap.
      replace (length (entries l) + S i - length (entries l))%nat with (S i)
        by lia.
      simpl. by rewrite list_lookup_fmap, Hi.
Qed.

Lemma entries_position_of t (j : nat) :
  position_of t (fst <$> entries t !! j) ((key <$> inorder t) !! j).
Proof.
  rewrite <- entries_inorder, <- list_fmap_compose, list_lookup_fmap.
  destruct (entries t !! j) as [[q it]|] eqn:Hj; simpl; [|done].
  exists it. split; [|done]. by eapply entries_valid.
Qed.

Lemma before_walk_single l e r d :
  before_walk (Node l e r) [d] =
  match d, l with
  | L, Node _ _ _ => None
  | _, _ => Some []
  end.
Proof.
  simpl. rewrite left_root. by destruct d, l.
Qed.

Lemma before_walk_cons t x rw :
  before_walk t (x :: rw) =
  if decide (Some (rev (x :: rw)) = left t (rev rw)) then before_walk t rw
  else Some (rev rw).
Proof. done. Qed.

Lemma before_walk_snoc l e r d rw :
  before_walk (Node l e r) (rw ++ [d]) =
  match before_walk (child d l r) rw with
  | Some q => Some (d :: q)
  | None => before_walk (Node l e r) [d]
  end.
Proof.
  induction rw as [|x rw IH]; [done|].
  change ((x :: rw) ++ [d]) with (x :: (rw ++ [d])).
  rewrite (before_walk_cons _ x (rw ++ [d])), (before_walk_cons _ x rw), IH.
  replace (rev (x :: (rw ++ [d]))) with (d :: rev (x :: rw))
    by (simpl; by rewrite rev_unit).
  rewrite rev_unit, left_cons.
  destruct (decide (Some (rev (x :: rw)) = left (child d l r) (rev rw)))
    as [Heq|Hne].
  - rewrite decide_True; [done|]. by rewrite <- Heq.
  - rewrite decide_False; [done|]. intros Heq. apply Hne.
    destruct (left (child d l r) (rev rw)); simpl in Heq |- *; [|done].
    by injection Heq as ->.
Qed.

Lemma before_root l e r :
  before (Node l e r) [] =
  Ok (match l with Leaf => None | Node _ _ _ => Some (L :: subtree_last_in l []) end).
Proof.
  unfold before. simpl pos2node. cbn [mbind res_bind]. rewrite left_root.
  destruct l as [|ll le lr]; [done|].
  unfold subtree_last_position. simpl subtree.
  by rewrite subtree_last_in_prefix.
Qed.

Lemma before_cons l e r d p :
  subtree (child d l r) p ≠ Leaf →
  before (Node l e r) (d :: p) =
  o ← before (child d l r) p;
  Ok (match o, d with
      | Some q, _ => Some (d :: q)
      | None, R => Some []
      | None, L => None
      end).
Proof.
  intros Hp. unfold before. rewrite pos2node_cons, left_cons.
  unfold pos2node. destruct (subtree (child d l r) p) eqn:Hs; [done|].
  cbn [mbind res_bind].
  destruct (left (child d l r) p) as [lp|]; simpl.
  - by rewrite subtree_last_position_cons.
  - rewrite before_walk_snoc. destruct (before_walk _ _); [done|].
    rewrite before_walk_single. destruct d; [|done].
    simpl child in Hs. destruct l; [by destruct p|done].
Qed.

Lemma before_entries t i q it :
  entries t !! i = Some (q, it) →
  before t q = Ok (fst <$> pred_lookup (entries t) i).
Proof.
  revert i q it. induction t as [|l IHl e r IHr]; intros i q it; [done|].
  simpl entries. intros Hi.
  apply lookup_app_Some in Hi as [Hi|[Hlen Hi]].
  - apply list_lookup_fmap_Some in Hi as ([q' it'] & [= -> ->] & Hi).
    simpl. rewrite before_cons by (by eapply entries_valid).
    simpl child. rewrite (IHl _ _ _ Hi). cbn [mbind res_bind]. f_equal.
    pose proof (lookup_lt_Some _ _ _ Hi) as Hlt.
    destruct i as [|j]; [done|]. simpl.
    rewrite lookup_app_l by (rewrite length_fmap; lia).
    rewrite list_lookup_fmap.
    destruct (entries l !! j) as [[??]|] eqn:Hj; [done|].
    apply lookup_ge_None in Hj. lia.
  - rewrite length_fmap in Hlen, Hi.
    destruct (i - length (entries l))%nat as [|j] eqn:Hj; simpl in Hi.
    + injection Hi as <- <-. rewrite before_root. f_equal.
      assert (i = length (entries l)) as -> by lia.
      destruct (tree_leaf_or_node l) as [->|Hl]; [done|].
      rewrite tree_case_node by done.
      destruct (entries_last l Hl) as [it' Hit'].
      pose proof (lookup_lt_Some _ _ _ Hit') as Hlt.
      destruct (length (entries l)) as [|n] eqn:Hn; [simpl in Hlt; lia|].
      simpl in *. rewrite lookup_app_l by (rewrite length_fmap; lia).
      by rewrite list_lookup_fmap, Hit'.
    + apply list_lookup_fmap_Some in Hi as ([q' it'] & [= -> ->] & Hi).
      simpl. rewrite before_cons by (by eapply entries_valid).
      simpl child. rewrite (IHr _ _ _ Hi). cbn [mbind res_bind]. f_equal.
      assert (i = S (length (entries l) + j)) as -> by lia. simpl.
      rewrite lookup_app_r by (rewrite length_fmap; lia). rewrite length_fmap.
      replace (length (entries l) + j - length (entries l))%nat with j by lia.
      destruct j as [|j']; [done|]. simpl.
      rewrite list_lookup_fmap.
      destruct (entries r !! j') as [[??]|] eqn:Hj'; [done|].
      apply lookup_ge_None in Hj'. apply lookup_lt_Some in Hi. lia.
Qed.

End tree_positions.

Section tree_order_theorems.
Import LinkedBinaryTree TreeMap.

Lemma tree_least_with P t r :
  bst t → least_item P (inorder t) r →
  least_with P (getitem t) (key <$> inorder t) (pair_of <$> r).
Proof.
  intros Hb. destruct r as [x|]; simpl.
  - intros (Hx & HP & Hmin). destruct x as [k v]. simpl in *. split_and!; [|done|].
    + rewrite getitem_lookup. by apply bst_lookup_elem.
    + intros k' Hk'. apply list_elem_of_fmap in Hk' as (it & -> & Hit). eauto.
  - intros Hnone k' Hk'. apply list_elem_of_fmap in Hk' as (it & -> & Hit). eauto.
Qed.

Lemma inorder_lookup_entries t (i : nat) q it :
  entries t !! i = Some (q, it) → inorder t !! i = Some it.
Proof.
  intros Hi. rewrite <- entries_inorder, list_lookup_fmap, Hi. done.
Qed.

Lemma split_of_parts (A C : list Item) it k :
  Forall (λ x, key x < k) A → Forall (λ x, k < key x) C →
  is_split (A ++ it :: C) k
    (if key it <? k then Z.of_nat (length A) + 1 else Z.of_nat (length A)).
Proof.
  intros HA HC. split.
  - unfold SortedTableMap.zlen. rewrite length_app. simpl.
    destruct (key it <? k); lia.
  - intros i item Hi.
    apply lookup_app_Some in Hi as [Hi|[Hlen Hi]].
    + pose proof (lookup_lt_Some _ _ _ Hi).
      rewrite Forall_forall in HA.
      assert (key item < k) by (by eapply HA, list_elem_of_lookup_2).
      destruct (Z.ltb_spec (key it) k);
        [destruct (Z.ltb_spec (Z.of_nat i) (Z.of_nat (length A) + 1))
        |destruct (Z.ltb_spec (Z.of_nat i) (Z.of_nat (length A)))]; lia.
    + destruct (i - length A)%nat as [|j] eqn:Hj; simpl in Hi.
      * injection Hi as <-. assert (i = length A) as -> by lia.
        destruct (Z.ltb_spec (key it) k);
          [destruct (Z.ltb_spec (Z.of_nat (length A)) (Z.of_nat (length A) + 1))
          |destruct (Z.ltb_spec (Z.of_nat (length A)) (Z.of_nat (length A)))];
          lia.
      * rewrite Forall_forall in HC.
        assert (k < key item) by (by eapply HC, list_elem_of_lookup_2).
        destruct (Z.ltb_spec (key it) k);
        [destruct (Z.ltb_spec (Z.of_nat i) (Z.of_nat (length A) + 1))
        |destruct (Z.ltb_spec (Z.of_nat i) (Z.of_nat (length A)))]; lia.
Qed.

(** X20: on a reachable TreeMap [first()] is the position of the least
    key and [last()] the position of the greatest key ([None] when the map
    is empty), and [find_min()] returns the pair of the least key, [None]
    when the map is empty. *)
Theorem X20_tree_first_last t ks :
  reachable t → iter t = Some (Ok ks) →
  match first t with
  | None => ks = []
  | Some q => ∃ y, element t q = Ok y ∧ ∀ k', k' ∈ ks → key y ≤ k'
  end ∧
  match TreeMap.last t with
  | None => ks = []
  | Some q => ∃ y, element t q = Ok y ∧ ∀ k', k' ∈ ks → k' ≤ key y
  end ∧
  ∃ r, find_min t = Ok r ∧ least_with (λ _, True) (getitem t) ks r.
Proof.
  intros Hr. rewrite tree_iter_inorder. intros [= <-].
  pose proof (tree_reachable_bst _ Hr) as Hb.
  pose proof (bst_keys_sorted _ Hb) as Hs.
  pose proof (sorted_first_least _ Hs) as Hleast.
  split_and!.
  - rewrite first_entries.
    destruct (entries t !! 0%nat) as [[q it]|] eqn:H0; simpl.
    + exists it. split; [by eapply entries_valid|].
      rewrite (inorder_lookup_entries _ _ _ _ H0) in Hleast.
      destruct Hleast as (_ & _ & Hmin). intros k' Hk'.
      apply list_elem_of_fmap in Hk' as (it' & -> & Hit'). by apply Hmin.
    + apply lookup_ge_None in H0. rewrite length_entries, len_inorder in H0.
      destruct (inorder t); [done|simpl in H0; lia].
  - rewrite last_entries.
    destruct (entries t !! pred (length (entries t))) as [[q it]|] eqn:Hn; simpl.
    + exists it. split; [by eapply entries_valid|].
      pose proof (inorder_lookup_entries _ _ _ _ Hn) as Hit.
      intros k' Hk'. apply list_elem_of_fmap in Hk' as (it' & -> & Hit').
      apply list_elem_of_lookup in Hit' as [j Hj].
      apply (keys_sorted_le (inorder t) j (pred (length (entries t)))); [done..|].
      apply lookup_lt_Some in Hj. rewrite length_entries, len_inorder. lia.
    + apply lookup_ge_None in Hn. rewrite length_entries, len_inorder in Hn.
      destruct (inorder t); [done|simpl in Hn; lia].
  - exists (pair_of <$> inorder t !! 0%nat). split.
    + unfold find_min. destruct (tree_leaf_or_node t) as [->|Hne]; [done|].
      rewrite is_empty_nonleaf, first_entries by done.
      destruct (entries_head t Hne) as [it Hit].
      rewrite Hit. cbn [fmap option_fmap option_map fst].
      destruct (entries_valid _ _ _ _ Hit) as [_ ->]. cbn [mbind res_bind].
      by rewrite (inorder_lookup_entries _ _ _ _ Hit).
    + by apply tree_least_with.
Qed.

Lemma X20_tree_first_last_witness :
  match first Examples.tree_315 with
  | None => [1; 3; 5] = []
  | Some q => ∃ y, element Examples.tree_315 q = Ok y ∧
                   ∀ k', k' ∈ [1; 3; 5] → key y ≤ k'
  end ∧
  match TreeMap.last Examples.tree_315 with
  | None => [1; 3; 5] = []
  | Some q => ∃ y, element Examples.tree_315 q = Ok y ∧
                   ∀ k', k' ∈ [1; 3; 5] → k' ≤ key y
  end ∧
  ∃ r, find_min Examples.tree_315 = Ok r ∧
       least_with (λ _, True) (getitem Examples.tree_315) [1; 3; 5] r.
Proof.
  apply (X20_tree_first_last Examples.tree_315 [1; 3; 5]); [|reflexivity].
  apply tree_315_reachable.
Defined.

(** X21: [after(p)] and [before(p)] are the neighbours of [p] in iteration
    order.  When the iteration of a TreeMap yields [ks] and [p] is a
    position of the tree, then for some index [i] with [ks[i]] the key at
    [p], [after(p)] is the position of [ks[i+1]] and [before(p)] the
    position of [ks[i-1]]; each is [None] when there is no such index. *)
Theorem X21_tree_after_before t ks p x :
  iter t = Some (Ok ks) → element t p = Ok x →
  ∃ (i : nat) nxt prv,
    ks !! i = Some (key x) ∧
    after t p = Ok nxt ∧ before t p = Ok prv ∧
    position_of t nxt (ks !! S i) ∧
    position_of t prv (pred_lookup ks i).
Proof.
  rewrite tree_iter_inorder. intros [= <-] Hx.
  assert (subtree t p ≠ Leaf) as Hp.
  { unfold element in Hx. by destruct (subtree t p). }
  destruct (entries_complete t p Hp) as (i & it & Hi).
  destruct (entries_valid _ _ _ _ Hi) as [_ Hit].
  rewrite Hx in Hit. injection Hit as <-.
  exists i, (fst <$> entries t !! S i), (fst <$> pred_lookup (entries t) i).
  split_and!.
  - by rewrite list_lookup_fmap, (inorder_lookup_entries _ _ _ _ Hi).
  - by eapply after_entries.
  - by eapply before_entries.
  - apply entries_position_of.
  - destruct i as [|j]; [done|]. apply entries_position_of.
Qed.

Lemma X21_tree_after_before_witness :
  ∃ (i : nat) nxt prv,
    [1; 3; 5] !! i = Some (key (mkItem 3 30)) ∧
    after Examples.tree_315 [] = Ok nxt ∧
    before Examples.tree_315 [] = Ok prv ∧
    position_of Examples.tree_315 nxt ([1; 3; 5] !! S i) ∧
    position_of Examples.tree_315 prv (pred_lookup [1; 3; 5] i).
Proof.
  apply (X21_tree_after_before Examples.tree_315 [1; 3; 5] [] (mkItem 3 30));
    reflexivity.
Defined.

(** X22: on a reachable TreeMap that holds a key [k' >= k], [find_ge(k)]
    returns the pair of the least key that is at least [k]; on an empty
    map it returns [None]. *)
Theorem X22_tree_find_ge t ks k k' :
  reachable t → iter t = Some (Ok ks) → k' ∈ ks → k ≤ k' →
  ∃ p, find_ge t k = Ok (Some p) ∧
       least_with (λ k', k ≤ k') (getitem t) ks (Some p).
Proof.
  intros Hr. rewrite tree_iter_inorder. intros [= <-] Hk' Hle.
  pose proof (tree_reachable_bst _ Hr) as Hb.
  pose proof (bst_keys_sorted _ Hb) as Hs.
  assert (t ≠ Leaf) as Hne.
  { intros ->. by apply elem_of_nil in Hk'. }
  destruct (search_split t k Hb Hne) as (A & it & C & Hin & Hent & HA & HC).
  destruct (entries_valid _ _ _ _ Hent) as [_ Hel].
  pose proof (split_of_parts A C it k HA HC) as Hsplit. rewrite <- Hin in Hsplit.
  pose proof (split_least_ge _ _ _ Hs Hsplit) as Hleast.
  unfold find_ge, find_position.
  rewrite is_empty_nonleaf, root_nonleaf by done.
  cbn [fmap option_fmap option_map].
  replace (subtree_search t [] k) with (subtree_search_in t [] k) by done.
  rewrite Hel. cbn [mbind res_bind].
  destruct (Z.ltb_spec (key it) k) as [Hlt|Hge].
  - rewrite (after_entries _ _ _ _ Hent). cbn [mbind res_bind].
    replace (Z.to_nat (Z.of_nat (length A) + 1)) with (S (length A)) in Hleast
      by lia.
    destruct (entries t !! S (length A)) as [[q c]|] eqn:Hnext; simpl.
    + destruct (entries_valid _ _ _ _ Hnext) as [_ ->]. simpl.
      rewrite (inorder_lookup_entries _ _ _ _ Hnext) in Hleast.
      exists (pair_of c). split; [done|].
      by apply (tree_least_with _ t (Some c)).
    + exfalso. apply lookup_ge_None in Hnext.
      rewrite length_entries, len_inorder in Hnext.
      rewrite lookup_ge_None_2 in Hleast by done.
      apply list_elem_of_fmap in Hk' as (it' & -> & Hit').
      by apply (Hleast it' Hit').
  - rewrite Nat2Z.id in Hleast.
    rewrite (inorder_lookup_entries _ _ _ _ Hent) in Hleast.
    cbn [mbind res_bind]. rewrite Hel. cbn [mbind res_bind].
    exists (pair_of it). split; [done|].
    by apply (tree_least_with _ t (Some it)).
Qed.

Lemma X22_tree_find_ge_witness :
  ∃ p, find_ge Examples.tree_315 4 = Ok (Some p) ∧
       least_with (λ k', 4 ≤ k') (getitem Examples.tree_315) [1; 3; 5] (Some p).
Proof.
  apply (X22_tree_find_ge Examples.tree_315 [1; 3; 5] 4 5).
  - apply tree_315_reachable.
  - reflexivity.
  - apply (list_elem_of_lookup_2 _ 2%nat). reflexivity.
  - lia.
Defined.

(** X23: [delete(p)] at any position [p] of a TreeMap with the search-tree
    property, whatever the number of children of its node, returns a tree
    that is again a search tree, has one node less, and whose iteration is
    the former one without the key that was at [p]; that key has no value
    afterwards. *)
Theorem X23_tree_delete_position t p x :
  bst t → element t p = Ok x →
  ∃ t' ks, delete t p = Ok t' ∧ bst t' ∧
           iter t = Some (Ok ks) ∧
           iter t' = Some (Ok (filter (λ k', k' ≠ key x) ks)) ∧
           getitem t' (key x) = Raise KeyError ∧
           len t = S (len t').
Proof.
  intros Hb Hx.
  assert (subtree t p ≠ Leaf) as Hp.
  { unfold element in Hx. by destruct (subtree t p). }
  destruct (delete_bst t p Hb Hp) as (t' & y & Hdel & Hy & Hb' & Hin).
  rewrite Hx in Hy. injection Hy as <-.
  exists t', (key <$> inorder t). split_and!; [done|done| | | |].
  - apply tree_iter_inorder.
  - by rewrite tree_iter_inorder, Hin, keys_without.
  - rewrite getitem_lookup. apply bst_lookup_absent. rewrite Hin.
    apply without_keys.
  - rewrite !len_inorder, Hin. apply without_length.
    + by apply keys_sorted_NoDup, bst_keys_sorted.
    + apply list_elem_of_fmap. exists x. split; [done|].
      destruct (entries_complete t p Hp) as (i & it & Hi).
      destruct (entries_valid _ _ _ _ Hi) as [_ Hit].
      rewrite Hx in Hit. injection Hit as <-.
      eapply list_elem_of_lookup_2. by eapply inorder_lookup_entries.
Qed.

Lemma X23_tree_delete_position_witness :
  ∃ t' ks, delete Examples.tree_315 [L] = Ok t' ∧ bst t' ∧
           iter Examples.tree_315 = Some (Ok ks) ∧
           iter t' = Some (Ok (filter (λ k', k' ≠ key (mkItem 1 10)) ks)) ∧
           getitem t' (key (mkItem 1 10)) = Raise KeyError ∧
           len Examples.tree_315 = S (len t').
Proof.
  apply (X23_tree_delete_position Examples.tree_315 [L] (mkItem 1 10));
    [|reflexivity].
  apply tree_reachable_bst, tree_315_reachable.
Defined.

End tree_order_theorems.

(** * merge_sort *)

Section merge_sort.
Import MergeSort.

(** The merge of two lists as a function: the head of [l1] goes first
    exactly when it is less than the head of [l2]. *)
Fixpoint merged (l1 : list Z) : list Z → list Z :=
  fix merged_aux (l2 : list Z) : list Z :=
    match l1, l2 with
    | [], _ => l2
    | _, [] => l1
    | x1 :: l1', x2 :: l2' =>
        if x1 <? x2 then x1 :: merged l1' l2 else x2 :: merged_aux l2'
    end.

Lemma merged_nil_r l1 : merged l1 [] = l1.
Proof. by destruct l1. Qed.

Lemma merged_nil_l l2 : merged [] l2 = l2.
Proof. by destruct l2. Qed.

Lemma merged_cons x1 l1 x2 l2 :
  merged (x1 :: l1) (x2 :: l2) =
  if x1 <? x2 then x1 :: merged l1 (x2 :: l2) else x2 :: merged (x1 :: l1) l2.
Proof. done. Qed.

Lemma merged_perm l1 l2 : merged l1 l2 ≡ₚ l1 ++ l2.
Proof.
  revert l2. induction l1 as [|x1 l1 IH1]; intros l2.
  - by rewrite merged_nil_l.
  - induction l2 as [|x2 l2 IH2].
    + by rewrite merged_nil_r, app_nil_r.
    + rewrite merged_cons. destruct (x1 <? x2).
      * by rewrite IH1.
      * rewrite IH2. apply Permutation_middle.
Qed.

Lemma merged_sorted l1 l2 :
  StronglySorted Z.le l1 → StronglySorted Z.le l2 →
  StronglySorted Z.le (merged l1 l2).
Proof.
  revert l2. induction l1 as [|x1 l1 IH1]; intros l2 H1 H2.
  - by rewrite merged_nil_l.
  - induction l2 as [|x2 l2 IH2].
    + by rewrite merged_nil_r.
    + apply StronglySorted_cons in H1 as [Hx1 H1'].
      apply StronglySorted_cons in H2 as [Hx2 H2'].
      rewrite merged_cons. destruct (Z.ltb_spec x1 x2) as [Hlt|Hge].
      * apply StronglySorted_cons. split.
        -- rewrite merged_perm. apply Forall_app. split; [done|].
           apply Forall_cons. split; [lia|].
           eapply Forall_impl; [exact Hx2|]. simpl. lia.
        -- apply IH1; [done|]. by apply StronglySorted_cons.
      * apply StronglySorted_cons. split.
        -- rewrite merged_perm. apply Forall_app. split; [|done].
           apply Forall_cons. split; [lia|].
           eapply Forall_impl; [exact Hx1|]. simpl. lia.
        -- apply IH2. done.
Qed.

Lemma merge_loop_eq fuel s1 s2 s i j :
  merge_loop fuel s1 s2 s i j =
  if i + j <? Z.of_nat (length s) then
    match fuel with
    | O => None
    | S fuel' =>
        from_s1 ←! Some (if j =? Z.of_nat (length s2) then Ok true
                         else if i <? Z.of_nat (length s1) then
                           a ← list_get s1 i; b ← list_get s2 j; Ok (a <? b)
                         else Ok false);
        if from_s1 : bool then
          a ←! Some (list_get s1 i);
          s' ←! Some (list_set s (i + j) a);
          merge_loop fuel' s1 s2 s' (i + 1) j
        else
          b ←! Some (list_get s2 j);
          s' ←! Some (list_set s (i + j) b);
          merge_loop fuel' s1 s2 s' i (j + 1)
    end
  else Some (Ok s).
Proof. by destruct fuel. Qed.

Lemma list_get_beyond {A} (l : list A) (i : nat) :
  (length l ≤ i)%nat → list_get l (Z.of_nat i) = Raise IndexError.
Proof.
  intros Hi. unfold list_get.
  destruct (Z.ltb_spec (Z.of_nat i) 0); [lia|].
  destruct (Z.ltb_spec (Z.of_nat i) 0); [lia|].
  rewrite Nat2Z.id. by rewrite lookup_ge_None_2.
Qed.

Lemma merge_step (s : list Z) (n : nat) a X :
  (n < length s)%nat →
  take (S n) (<[n := a]> s) ++ take (length s - S n) X =
  take n s ++ take (length s - n) (a :: X).
Proof.
  intros Hn. rewrite (take_S_r _ n a) by (by apply list_lookup_insert_eq).
  rewrite take_insert_ge by lia.
  replace (length s - n)%nat with (S (length s - S n)) by lia.
  simpl. by rewrite <- app_assoc.
Qed.

Lemma merge_loop_fits fuel s1 s2 :
  ∀ s (i j : nat),
    (length s ≤ length s1 + length s2)%nat →
    (i ≤ length s1)%nat → (j ≤ length s2)%nat → (i + j ≤ length s)%nat →
    (length s - (i + j) ≤ fuel)%nat →
    merge_loop fuel s1 s2 s (Z.of_nat i) (Z.of_nat j) =
    Some (Ok (take (i + j) s ++
              take (length s - (i + j)) (merged (drop i s1) (drop j s2)))).
Proof.
  induction fuel as [|fuel IH]; intros s i j Hfit Hi Hj Hij Hf;
    rewrite merge_loop_eq;
    destruct (Z.ltb_spec (Z.of_nat i + Z.of_nat j) (Z.of_nat (length s)))
      as [Hlt|Hge];
    try (replace (length s - (i + j))%nat with 0%nat by lia;
         rewrite take_0, app_nil_r, take_ge by lia; done).
  { lia. }
  assert (Z.to_nat (Z.of_nat i + Z.of_nat j) = (i + j)%nat) as Hidx by lia.
  assert (∀ x, list_set s (Z.of_nat i + Z.of_nat j) x = Ok (<[(i + j)%nat := x]> s))
    as Hset.
  { intros x. rewrite list_set_Ok by lia. by rewrite Hidx. }
  destruct (Z.eqb_spec (Z.of_nat j) (Z.of_nat (length s2))) as [Hj2|Hj2].
  - destruct (lookup_lt_is_Some_2 s1 i) as [a Ha]; [lia|].
    cbn [fbind]. rewrite (list_get_lookup s1 i a Ha). cbn [fbind].
    rewrite Hset. cbn [fbind].
    replace (Z.of_nat i + 1) with (Z.of_nat (S i)) by lia.
    rewrite IH by (rewrite ?length_insert; lia). rewrite length_insert.
    do 2 f_equal. rewrite (drop_S s1 a i Ha). rewrite (drop_ge s2 j) by lia.
    rewrite !merged_nil_r. apply (merge_step s (i + j)). lia.
  - destruct (lookup_lt_is_Some_2 s2 j) as [b Hb]; [lia|].
    rewrite (drop_S s2 b j Hb).
    destruct (Z.ltb_spec (Z.of_nat i) (Z.of_nat (length s1))) as [Hi1|Hi1].
    + destruct (lookup_lt_is_Some_2 s1 i) as [a Ha]; [lia|].
      rewrite (drop_S s1 a i Ha), merged_cons.
      rewrite (list_get_lookup s1 i a Ha), (list_get_lookup s2 j b Hb).
      cbn [mbind res_bind fbind]. destruct (a <? b); cbn [fbind].
      * rewrite Hset. cbn [fbind].
        replace (Z.of_nat i + 1) with (Z.of_nat (S i)) by lia.
        rewrite IH by (rewrite ?length_insert; lia). rewrite length_insert.
        do 2 f_equal. rewrite (drop_S s2 b j Hb).
        apply (merge_step s (i + j)). lia.
      * rewrite Hset. cbn [fbind].
        replace (Z.of_nat j + 1) with (Z.of_nat (S j)) by lia.
        rewrite IH by (rewrite ?length_insert; lia). rewrite length_insert.
        do 2 f_equal. rewrite (drop_S s1 a i Ha), Nat.add_succ_r.
        apply (merge_step s (i + j)). lia.
    + cbn [fbind]. rewrite (list_get_lookup s2 j b Hb). cbn [fbind].
      rewrite Hset. cbn [fbind].
      replace (Z.of_nat j + 1) with (Z.of_nat (S j)) by lia.
      rewrite IH by (rewrite ?length_insert; lia). rewrite length_insert.
      do 2 f_equal. rewrite (drop_ge s1 i) by lia. rewrite !merged_nil_l.
      rewrite Nat.add_succ_r. apply (merge_step s (i + j)). lia.
Qed.

Lemma merge_loop_overflow fuel s1 s2 :
  ∀ s (i j : nat),
    (length s1 + length s2 < length s)%nat →
    (i ≤ length s1)%nat → (j ≤ length s2)%nat →
    (length s1 - i + (length s2 - j) < fuel)%nat →
    merge_loop fuel s1 s2 s (Z.of_nat i) (Z.of_nat j) = Some (Raise IndexError).
Proof.
  induction fuel as [|fuel IH]; intros s i j Hover Hi Hj Hf; [lia|].
  rewrite merge_loop_eq.
  destruct (Z.ltb_spec (Z.of_nat i + Z.of_nat j) (Z.of_nat (length s)))
    as [Hlt|Hge]; [|lia].
  assert (Z.to_nat (Z.of_nat i + Z.of_nat j) = (i + j)%nat) as Hidx by lia.
  assert (∀ x, list_set s (Z.of_nat i + Z.of_nat j) x = Ok (<[(i + j)%nat := x]> s))
    as Hset.
  { intros x. rewrite list_set_Ok by lia. by rewrite Hidx. }
  destruct (Z.eqb_spec (Z.of_nat j) (Z.of_nat (length s2))) as [Hj2|Hj2].
  - cbn [fbind]. destruct (decide (i < length s1)%nat) as [Hi1|Hi1].
    + destruct (lookup_lt_is_Some_2 s1 i) as [a Ha]; [lia|].
      rewrite (list_get_lookup s1 i a Ha). cbn [fbind].
      rewrite Hset. cbn [fbind].
      replace (Z.of_nat i + 1) with (Z.of_nat (S i)) by lia.
      apply IH; rewrite ?length_insert; lia.
    + by rewrite list_get_beyond by lia.
  - destruct (lookup_lt_is_Some_2 s2 j) as [b Hb]; [lia|].
    destruct (Z.ltb_spec (Z.of_nat i) (Z.of_nat (length s1))) as [Hi1|Hi1].
    + destruct (lookup_lt_is_Some_2 s1 i) as [a Ha]; [lia|].
      rewrite (list_get_lookup s1 i a Ha), (list_get_lookup s2 j b Hb).
      cbn [mbind res_bind fbind]. destruct (a <? b); cbn [fbind].
      * rewrite Hset. cbn [fbind].
        replace (Z.of_nat i + 1) with (Z.of_nat (S i)) by lia.
        apply IH; rewrite ?length_insert; lia.
      * rewrite Hset. cbn [fbind].
        replace (Z.of_nat j + 1) with (Z.of_nat (S j)) by lia.
        apply IH; rewrite ?length_insert; lia.
    + cbn [fbind]. rewrite (list_get_lookup s2 j b Hb). cbn [fbind].
      rewrite Hset. cbn [fbind].
      replace (Z.of_nat j + 1) with (Z.of_nat (S j)) by lia.
      apply IH; rewrite ?length_insert; lia.
Qed.

Lemma merge_result fuel s1 s2 s :
  (length s ≤ fuel)%nat →
  merge fuel s1 s2 s =
  if decide (length s ≤ length s1 + length s2)%nat
  then Some (Ok (take (length s) (merged s1 s2)))
  else Some (Raise IndexError).
Proof.
  intros Hf. unfold merge. case_decide as Hfit.
  - pose proof (merge_loop_fits fuel s1 s2 s 0 0) as H.
    change (Z.of_nat 0) with 0 in H. rewrite H by lia.
    by rewrite take_0, Nat.sub_0_r.
  - pose proof (merge_loop_overflow fuel s1 s2 s 0 0) as H.
    change (Z.of_nat 0) with 0 in H. apply H; lia.
Qed.

Lemma merge_fits_spec fuel s1 s2 s :
  length s = (length s1 + length s2)%nat → (length s ≤ fuel)%nat →
  ∃ r, merge fuel s1 s2 s = Some (Ok r) ∧
       r ≡ₚ s1 ++ s2 ∧
       (StronglySorted Z.le s1 → StronglySorted Z.le s2 →
        StronglySorted Z.le r).
Proof.
  intros Hlen Hf. exists (merged s1 s2).
  assert (length (merged s1 s2) = length s) as Hm.
  { by rewrite merged_perm, length_app. }
  split_and!.
  - rewrite merge_result, decide_True by lia. by rewrite take_ge by lia.
  - apply merged_perm.
  - apply merged_sorted.
Qed.

(** X24: [merge(s1, s2, s)] for a list [s] as long as [s1] and [s2]
    together returns within [len(s)] iterations and leaves in [s] a
    permutation of the elements of [s1] and [s2], whatever [s] held
    before; when [s1] and [s2] are sorted, so is the result. *)
Theorem X24_merge fuel s1 s2 s :
  length s = (length s1 + length s2)%nat → (length s ≤ fuel)%nat →
  ∃ r, merge fuel s1 s2 s = Some (Ok r) ∧
       r ≡ₚ s1 ++ s2 ∧
       (StronglySorted Z.le s1 → StronglySorted Z.le s2 →
        StronglySorted Z.le r).
Proof. apply merge_fits_spec. Qed.

Lemma X24_merge_witness :
  ∃ r, merge 5 [1; 4; 9] [2; 4] [0; 0; 0; 0; 0] = Some (Ok r) ∧
       r ≡ₚ [1; 4; 9] ++ [2; 4] ∧
       (StronglySorted Z.le [1; 4; 9] → StronglySorted Z.le [2; 4] →
        StronglySorted Z.le r).
Proof.
  apply (X24_merge 5 [1; 4; 9] [2; 4] [0; 0; 0; 0; 0]); [reflexivity|].
  simpl. lia.
Defined.



(** X26: [merge_sort(s)] returns for every list (fuel [len(s)]) and leaves
    in [s] a sorted permutation of what it held. *)
Theorem X26_merge_sort fuel s :
  (length s ≤ fuel)%nat →
  ∃ r, merge_sort fuel s = Some (Ok r) ∧ r ≡ₚ s ∧ StronglySorted Z.le r.
Proof.
  revert s. induction fuel as [|fuel IH]; intros s Hf.
  - exists s. destruct s; [|simpl in Hf; lia]. split_and!; [done..|constructor].
  - destruct (Z.ltb_spec (Z.of_nat (length s)) 2) as [Hsmall|Hbig].
    + exists s. split_and!; [|done|].
      * simpl. by destruct (Z.ltb_spec (Z.of_nat (length s)) 2); [|lia].
      * destruct s as [|x [|y s]]; [constructor|repeat constructor|].
        simpl in Hsmall. lia.
    + set (mid := Z.to_nat (Z.of_nat (length s) `div` 2)).
      assert (0 < mid < length s)%nat as Hmid.
      { unfold mid. split.
        - apply Nat2Z.inj_lt. rewrite Z2Nat.id by (apply Z.div_pos; lia).
          apply Z.div_str_pos. lia.
        - apply Nat2Z.inj_lt. rewrite Z2Nat.id by (apply Z.div_pos; lia).
          apply Z.div_lt; lia. }
      destruct (IH (take mid s)) as (r1 & Hr1 & Hp1 & Hs1).
      { rewrite length_take. lia. }
      destruct (IH (drop mid s)) as (r2 & Hr2 & Hp2 & Hs2).
      { rewrite length_drop. lia. }
      destruct (merge_fits_spec (S fuel) r1 r2 s) as (r & Hr & Hp & Hs); [|done|].
      { rewrite Hp1, Hp2, length_take, length_drop. lia. }
      exists r. split_and!.
      * cbn [merge_sort].
        destruct (Z.ltb_spec (Z.of_nat (length s)) 2); [lia|].
        fold mid. rewrite Hr1. cbn [fbind]. rewrite Hr2. cbn [fbind]. done.
      * by rewrite Hp, Hp1, Hp2, take_drop.
      * by apply Hs.
Qed.

Lemma X26_merge_sort_witness :
  ∃ r, merge_sort 6 [5; 2; 9; 2; 7; 1] = Some (Ok r) ∧
       r ≡ₚ [5; 2; 9; 2; 7; 1] ∧ StronglySorted Z.le r.
Proof.
  apply (X26_merge_sort 6 [5; 2; 9; 2; 7; 1]). simpl. lia.
Defined.

End merge_sort.

(** * LinkedQueue *)

Section linked_queue.
Import LinkedQueue.

(** The elements met from location [p] along the [next] fields, [n] nodes
    at most. *)
Fixpoint elements_from (n : nat) (st : list node) (p : option nat) : list Z :=
  match n with
  | O => []
  | S n' =>
      match p ≫= λ l, st !! l with
      | Some nd => element nd :: elements_from n' st (next nd)
      | None => []
      end
  end.

(** The elements of the queue, from the head. *)
Definition contents (q : t) : list Z :=
  elements_from (Z.to_nat (size q)) (store q) (head q).

(** The elements of the nodes at [locs]. *)
Definition elems (st : list node) (locs : list nat) : list Z :=
  omap (λ l, element <$> st !! l) locs.

(** The nodes of the queue are at the locations [locs], in this order. *)
Record queue_inv (q : t) (locs : list nat) : Prop := {
  qi_nodup : NoDup locs;
  qi_size : size q = Z.of_nat (length locs);
  qi_head : head q = locs !! 0%nat;
  qi_tail : locs ≠ [] → tail q = locs !! pred (length locs);
  qi_nodes : ∀ (i : nat) loc, locs !! i = Some loc →
               ∃ x, store q !! loc = Some (mkNode x (locs !! S i))
}.

Lemma elements_from_chain st (locs : list nat) :
  (∀ (i : nat) loc, locs !! i = Some loc →
     ∃ x, st !! loc = Some (mkNode x (locs !! S i))) →
  elements_from (length locs) st (locs !! 0%nat) = elems st locs ∧
  length (elems st locs) = length locs.
Proof.
  induction locs as [|l rest IH]; intros Hnodes; [done|].
  destruct (Hnodes 0%nat l eq_refl) as [x Hx].
  destruct IH as [IH1 IH2].
  { intros i loc Hi. apply (Hnodes (S i) loc Hi). }
  unfold elems in *. simpl. rewrite Hx. simpl. rewrite IH1. split; [done|].
  f_equal. exact IH2.
Qed.

Lemma contents_elems q locs :
  queue_inv q locs →
  contents q = elems (store q) locs ∧ length (contents q) = length locs.
Proof.
  intros [Hnd Hsize Hhead Htail Hnodes]. unfold contents.
  rewrite Hsize, Nat2Z.id, Hhead.
  destruct (elements_from_chain (store q) locs Hnodes) as [-> ->]. done.
Qed.

Lemma queue_inv_init : queue_inv init [].
Proof. split; try done. constructor. Qed.

Lemma queue_locs_bound q locs loc :
  queue_inv q locs → loc ∈ locs → (loc < length (store q))%nat.
Proof.
  intros Hinv Hin. apply list_elem_of_lookup in Hin as [i Hi].
  destruct (qi_nodes _ _ Hinv i loc Hi) as [x Hx]. by eapply lookup_lt_Some.
Qed.

Lemma elems_ext st st' (locs : list nat) :
  (∀ loc, loc ∈ locs → element <$> st' !! loc = element <$> st !! loc) →
  elems st' locs = elems st locs.
Proof.
  induction locs as [|l rest IH]; intros Hext; [done|].
  assert (elems st' rest = elems st rest) as IH'.
  { apply IH. intros loc Hloc. apply Hext. by right. }
  unfold elems in *. csimpl. rewrite (Hext l) by (by left). by rewrite IH'.
Qed.

Lemma enqueue_inv q locs e :
  queue_inv q locs →
  ∃ q', enqueue q e = Return q' ∧
        queue_inv q' (locs ++ [length (store q)]) ∧
        elems (store q') (locs ++ [length (store q)])
          = elems (store q) locs ++ [e].
Proof.
  intros Hinv. pose proof Hinv as [Hnd Hsize Hhead Htail Hnodes].
  set (nd := length (store q)).
  assert (∀ loc, loc ∈ locs → (loc < nd)%nat) as Hbound.
  { intros loc Hloc. by eapply queue_locs_bound. }
  assert ((store q ++ [mkNode e None]) !! nd = Some (mkNode e None)) as Hnew.
  { rewrite lookup_app_r by done. unfold nd. by rewrite Nat.sub_diag. }
  unfold enqueue, is_empty. fold nd. rewrite Hsize.
  destruct locs as [|l0 rest0] eqn:Hlocs.
  - simpl. eexists. split; [done|]. split.
    + split; simpl.
      * apply NoDup_singleton.
      * done.
      * done.
      * done.
      * intros [|i] loc Hi; [|done]. injection Hi as <-. exists e. by rewrite Hnew.
    + unfold elems. simpl. by rewrite Hnew.
  - rewrite <- Hlocs in *. assert (locs ≠ []) as Hne by (by rewrite Hlocs).
    assert (0 < length locs)%nat as Hpos by (rewrite Hlocs; simpl; lia).
    destruct (Z.eqb_spec (Z.of_nat (length locs)) 0) as [|_]; [lia|].
    rewrite (Htail Hne).
    destruct (lookup_lt_is_Some_2 locs (pred (length locs))) as [tl Htl]; [lia|].
    rewrite Htl. destruct (Hnodes _ _ Htl) as [x Hx].
    replace (S (pred (length locs))) with (length locs) in Hx by lia.
    rewrite (lookup_ge_None_2 locs (length locs)) in Hx by done.
    assert (tl < nd)%nat as Htlb by (by eapply Hbound, list_elem_of_lookup_2).
    rewrite (lookup_app_l (store q)) by done. rewrite Hx. simpl.
    eexists. split; [done|]. split.
    + split; simpl.
      * apply NoDup_app. split_and!; [done| |apply NoDup_singleton].
        intros loc Hloc ->%list_elem_of_singleton. apply Hbound in Hloc. lia.
      * rewrite length_app. simpl. lia.
      * by rewrite lookup_app_l by done.
      * intros _. rewrite length_app. simpl.
        rewrite lookup_app_r by lia.
        by replace (pred (length locs + 1) - length locs)%nat with 0%nat by lia.
      * intros i loc Hi. apply lookup_app_Some in Hi as [Hi|[Hlen Hi]].
        -- destruct (decide (i = pred (length locs))) as [->|Hi'].
           ++ rewrite Htl in Hi. injection Hi as <-. exists x.
              rewrite list_lookup_insert_eq by (rewrite length_app; simpl; lia).
              f_equal. f_equal. rewrite lookup_app_r by lia.
              by replace (S (pred (length locs)) - length locs)%nat with 0%nat
                by lia.
           ++ pose proof (lookup_lt_Some _ _ _ Hi) as Hlt.
              destruct (Hnodes _ _ Hi) as [y Hy]. exists y.
              assert (loc ≠ tl) as Hneq.
              { intros ->. apply Hi'. by eapply (NoDup_lookup locs). }
              rewrite list_lookup_insert_ne by done.
              rewrite lookup_app_l by (by eapply Hbound, list_elem_of_lookup_2).
              rewrite Hy. f_equal. f_equal. by rewrite lookup_app_l by lia.
        -- destruct (i - length locs)%nat as [|j] eqn:Hj; [|done].
           injection Hi as <-. exists e.
           rewrite list_lookup_insert_ne by lia. rewrite Hnew.
           f_equal. f_equal. symmetry. apply lookup_ge_None_2.
           rewrite length_app. simpl. lia.
    + unfold elems. rewrite omap_app. simpl.
      rewrite list_lookup_insert_ne by lia. rewrite Hnew. simpl. f_equal.
      apply elems_ext. intros loc Hloc. pose proof (Hbound loc Hloc).
      destruct (decide (loc = tl)) as [->|Hneq].
      * rewrite list_lookup_insert_eq by (rewrite length_app; simpl; lia).
        by rewrite Hx.
      * rewrite list_lookup_insert_ne by done. by rewrite lookup_app_l by done.
Qed.

Lemma dequeue_inv q h rest :
  queue_inv q (h :: rest) →
  ∃ x q', dequeue q = Return (x, q') ∧ first q = Return x ∧
          queue_inv q' rest ∧ store q' = store q ∧
          elems (store q) (h :: rest) = x :: elems (store q) rest.
Proof.
  intros [Hnd Hsize Hhead Htail Hnodes].
  destruct (Hnodes 0%nat h eq_refl) as [x Hx]. simpl in Hx, Hhead, Hsize.
  apply NoDup_cons in Hnd as [Hh Hnd].
  assert (queue_inv (mk (store q) (rest !! 0%nat) (tail q) (size q - 1)) rest
          ∨ rest = []) as Hq1.
  { destruct rest as [|r0 rest']; [by right|]. left. split; simpl.
    - done.
    - simpl in Hsize. lia.
    - done.
    - intros _. rewrite Htail by done. done.
    - intros i loc Hi. by apply (Hnodes (S i) loc). }
  unfold dequeue, first, is_empty. rewrite Hsize, Hhead. simpl. rewrite Hx. simpl.
  destruct (Z.eqb_spec (Z.of_nat (S (length rest))) 0) as [|_]; [lia|].
  destruct (Z.eqb_spec (Z.of_nat (S (length rest)) - 1) 0) as [Hz|Hnz].
  - assert (rest = []) as -> by (destruct rest; [done|simpl in Hz; lia]).
    eexists _, _. split; [done|]. split; [done|]. split_and!; [|done|done].
    split; simpl; first [done|constructor].
  - destruct Hq1 as [Hq1| ->]; [|simpl in Hnz; lia].
    eexists _, _. split; [done|]. split; [done|]. split_and!; [|done|done].
    by rewrite Hsize in Hq1.
Qed.

Lemma dequeue_empty q :
  queue_inv q [] → dequeue q = RaiseEmpty ∧ first q = RaiseEmpty.
Proof.
  intros [_ Hsize _ _ _]. unfold dequeue, first, is_empty.
  by rewrite Hsize.
Qed.

Lemma queue_reachable_inv q : reachable q → ∃ locs, queue_inv q locs.
Proof.
  induction 1 as [|q e q' _ [locs IH] Henq|q x q' _ [locs IH] Hdeq].
  - exists []. apply queue_inv_init.
  - destruct (enqueue_inv q locs e IH) as (q'' & Henq' & Hinv & _).
    rewrite Henq in Henq'. injection Henq' as <-. eauto.
  - destruct locs as [|h rest].
    + destruct (dequeue_empty q IH) as [Hd _]. by rewrite Hd in Hdeq.
    + destruct (dequeue_inv q h rest IH) as (y & q'' & Hdeq' & _ & Hinv & _).
      rewrite Hdeq in Hdeq'. injection Hdeq' as <- <-. eauto.
Qed.

Lemma queue_12_reachable : reachable Examples.queue_12.
Proof.
  apply (reach_enqueue (mk [mkNode 1 None] (Some 0%nat) (Some 0%nat) 1) 2);
    [|done].
  apply (reach_enqueue init 1); [|done]. apply reach_init.
Qed.

(** X27: a reachable LinkedQueue is first-in, first-out.  [enqueue(e)]
    returns and puts [e] behind the elements of the queue; on a queue that
    is not empty [first()] returns the oldest element and [dequeue()]
    returns it and leaves the others in their order; [len] is the number
    of elements. *)
Theorem X27_queue_fifo q :
  reachable q →
  len q = Z.of_nat (length (contents q)) ∧
  (∀ e, ∃ q', enqueue q e = Return q' ∧ contents q' = contents q ++ [e]) ∧
  (∀ x rest, contents q = x :: rest →
     first q = Return x ∧
     ∃ q', dequeue q = Return (x, q') ∧ contents q' = rest).
Proof.
  intros Hr. destruct (queue_reachable_inv q Hr) as [locs Hinv].
  destruct (contents_elems q locs Hinv) as [Hc Hlen].
  split_and!.
  - unfold len. rewrite Hlen. by destruct Hinv.
  - intros e. destruct (enqueue_inv q locs e Hinv) as (q' & Henq & Hinv' & Hel).
    exists q'. split; [done|].
    destruct (contents_elems q' _ Hinv') as [-> _]. by rewrite Hel, Hc.
  - intros x rest Hxs. destruct locs as [|h locs'].
    { rewrite Hc in Hxs. done. }
    destruct (dequeue_inv q h locs' Hinv)
      as (y & q' & Hdeq & Hfirst & Hinv' & Hst & Hel).
    rewrite Hc, Hel in Hxs. injection Hxs as -> <-.
    split; [done|]. exists q'. split; [done|].
    destruct (contents_elems q' _ Hinv') as [-> _]. by rewrite Hst.
Qed.

Lemma X27_queue_fifo_witness :
  len Examples.queue_12 = Z.of_nat (length (contents Examples.queue_12)) ∧
  (∀ e, ∃ q', enqueue Examples.queue_12 e = Return q' ∧
              contents q' = contents Examples.queue_12 ++ [e]) ∧
  (∀ x rest, contents Examples.queue_12 = x :: rest →
     first Examples.queue_12 = Return x ∧
     ∃ q', dequeue Examples.queue_12 = Return (x, q') ∧ contents q' = rest).
Proof.
  apply (X27_queue_fifo Examples.queue_12), queue_12_reachable.
Defined.

(** X28: on a reachable LinkedQueue [first()] and [dequeue()] raise
    [Empty] exactly when the queue has no element, which is when
    [is_empty()] holds and [len] is 0; no operation ever raises
    [AttributeError]. *)
Theorem X28_queue_empty q :
  reachable q →
  (is_empty q = true ↔ contents q = []) ∧
  (len q = 0 ↔ contents q = []) ∧
  (first q = RaiseEmpty ↔ contents q = []) ∧
  (dequeue q = RaiseEmpty ↔ contents q = []) ∧
  first q ≠ RaiseAttributeError ∧
  dequeue q ≠ RaiseAttributeError ∧
  (∀ e, enqueue q e ≠ RaiseAttributeError).
Proof.
  intros Hr. destruct (queue_reachable_inv q Hr) as [locs Hinv].
  destruct (contents_elems q locs Hinv) as [Hc Hlen].
  assert (contents q = [] ↔ locs = []) as Hnil.
  { split; [intros H; rewrite H in Hlen; by destruct locs|].
    intros ->. by destruct (contents q). }
  assert (∀ e, enqueue q e ≠ RaiseAttributeError) as Henq.
  { intros e. by destruct (enqueue_inv q locs e Hinv) as (q' & -> & _). }
  destruct locs as [|h rest].
  - destruct (dequeue_empty q Hinv) as [Hd Hf].
    pose proof (qi_size _ _ Hinv) as Hsize. simpl in Hsize.
    rewrite Hd, Hf. unfold is_empty, len. rewrite Hsize.
    split_and!; try done; tauto.
  - destruct (dequeue_inv q h rest Hinv) as (y & q' & Hd & Hf & _).
    pose proof (qi_size _ _ Hinv) as Hsize. simpl in Hsize.
    rewrite Hd, Hf. unfold is_empty, len. rewrite Hsize.
    destruct (Z.eqb_spec (Z.of_nat (S (length rest))) 0) as [|_]; [lia|].
    split_and!; try done; rewrite Hnil; split; try done; lia.
Qed.

Lemma X28_queue_empty_witness :
  (is_empty init = true ↔ contents init = []) ∧
  (len init = 0 ↔ contents init = []) ∧
  (first init = RaiseEmpty ↔ contents init = []) ∧
  (dequeue init = RaiseEmpty ↔ contents init = []) ∧
  first init ≠ RaiseAttributeError ∧
  dequeue init ≠ RaiseAttributeError ∧
  (∀ e, enqueue init e ≠ RaiseAttributeError).
Proof.
  apply (X28_queue_empty init), reach_init.
Defined.

End linked_queue.
